(** * DuEU-Net / nnSeq2Seq inference: a shallow embedding of the predictor

    The development follows two source files of the repository:

    - [nnseq2seq/inference/predict_from_raw_data.py], the class
      [nnSeq2SeqPredictor] (list management, the per-case sweep, the
      mirror-augmented tile prediction, the sliding-window execution and the
      end-of-run contribution report);
    - [nnseq2seq/networks/seq2seq/model3d/encoder.py], the constructor of
      [ImageEncoder].

    Python values are modelled as the code has them: exceptions are an
    inductive type, a fallible pure computation returns [res], and code that
    talks to the device, the network, the worker pool or the file system runs
    in a state-and-exception monad whose state survives a raised exception,
    as an object's attributes and the process' side effects do in Python.
    Tensors, the trained network and numpy's floating-point reductions are
    interfaces (type classes); the theorems hold for every implementation and
    the examples run on a small executable one. *)

From Stdlib Require Import ZArith List String Ascii Bool Lia Reals.
From stdpp Require Import base list strings pretty.

Set Warnings "-register-all".
Open Scope Z_scope.

(** ** Python exceptions and fallible values *)

Module Py.

Inductive exn : Type :=
| TypeError
| AttributeError
| IndexError
| ValueError
| AssertionError
| RuntimeError
| UnboundLocalError
| OSError
| StopIteration.

#[global] Instance exn_eq_dec : EqDecision exn.
Proof. solve_decision. Defined.

(** The outcome of evaluating an expression: a value or a raised exception. *)
Inductive res (A : Type) : Type :=
| Ok (a : A)
| Raise (e : exn).
Arguments Ok {A} a.
Arguments Raise {A} e.

Definition is_ok {A} (r : res A) : bool :=
  match r with Ok _ => true | Raise _ => false end.

#[global] Instance res_ret : MRet res := fun _ a => Ok a.
#[global] Instance res_bind : MBind res := fun _ _ f m =>
  match m with Ok a => f a | Raise e => Raise e end.
#[global] Instance res_fmap : FMap res := fun _ _ f m =>
  match m with Ok a => Ok (f a) | Raise e => Raise e end.

(** [l[i]] for a non-negative index: [IndexError] out of range. *)
Definition index {A} (l : list A) (i : nat) : res A :=
  match l !! i with Some a => Ok a | None => Raise IndexError end.

(** [assert c]. *)
Definition assert (c : bool) : res unit :=
  if c then Ok tt else Raise AssertionError.

(** A [for] loop that threads an accumulator and stops at the first
    exception. *)
Fixpoint for_each {A B} (l : list B) (a : A) (body : A → B → res A) : res A :=
  match l with
  | [] => Ok a
  | b :: l' => a' ← body a b; for_each l' a' body
  end.

(** A list comprehension whose element expression can raise. *)
Fixpoint comprehension {A B} (f : A → res B) (l : list A) : res (list B) :=
  match l with
  | [] => Ok []
  | a :: l' => b ← f a; bs ← comprehension f l'; Ok (b :: bs)
  end.

(** [range(n)]. *)
Definition range (n : nat) : list nat := seq 0 n.

(** [l[start::step]] for non-negative [start] and [step]: every [step]-th
    element from [start] on; a zero step is a [ValueError]. The countdown
    [k] is the number of elements still to skip before the next pick. *)
Fixpoint stride {A} (step k : nat) (l : list A) : list A :=
  match l with
  | [] => []
  | a :: l' =>
      match k with
      | O => a :: stride step (step - 1) l'
      | S k' => stride step k' l'
      end
  end.

Definition slice_from_step {A} (l : list A) (start step : nat) : res (list A) :=
  match step with
  | O => Raise ValueError
  | S _ => Ok (stride step 0 (drop start l))
  end.

(** [x in l] on a list of integers. *)
Definition contains (l : list nat) (x : nat) : bool :=
  existsb (Nat.eqb x) l.

(** [l.index(x)]: the first position of [x], [ValueError] when absent. *)
Fixpoint list_index (l : list nat) (x : nat) : res nat :=
  match l with
  | [] => Raise ValueError
  | y :: l' => if Nat.eqb x y then Ok 0%nat else S <$> list_index l' x
  end.

End Py.
Import Py.

(** ** [os.path] on POSIX strings *)

Module OsPath.

Definition sep : ascii := "/"%char.

Definition starts_with_sep (s : string) : bool :=
  match s with
  | String c _ => Ascii.eqb c sep
  | EmptyString => false
  end.

Fixpoint ends_with_sep (s : string) : bool :=
  match s with
  | EmptyString => false
  | String c EmptyString => Ascii.eqb c sep
  | String _ r => ends_with_sep r
  end.

(** [os.path.join(a, b)]: an absolute [b] replaces [a]; an empty [a] or one
    that ends in the separator takes [b] directly. *)
Definition join (a b : string) : string :=
  if starts_with_sep b then b
  else if (String.length a =? 0)%nat || ends_with_sep a then (a ++ b)%string
  else (a ++ String sep b)%string.

(** The part of [s] after its last separator; [acc] collects the
    characters seen since the latest one. *)
Fixpoint after_last_sep (acc s : string) : string :=
  match s with
  | EmptyString => acc
  | String c r =>
      if Ascii.eqb c sep then after_last_sep EmptyString r
      else after_last_sep (acc ++ String c EmptyString)%string r
  end.

(** [os.path.basename(p)]. *)
Definition basename (p : string) : string := after_last_sep EmptyString p.

(** The part of [s] up to and including its last separator. *)
Fixpoint head_with_sep (s : string) : string :=
  match s with
  | EmptyString => EmptyString
  | String c r =>
      let h := head_with_sep r in
      if (String.length h =? 0)%nat
      then (if Ascii.eqb c sep then String c EmptyString else EmptyString)
      else String c h
  end.

Definition all_sep (s : string) : bool :=
  forallb (fun c => Ascii.eqb c sep) (list_ascii_of_string s).

(** Drop the trailing separators of [s]. *)
Fixpoint rstrip_sep (s : string) : string :=
  match s with
  | EmptyString => EmptyString
  | String c r => if all_sep (String c r) then EmptyString else String c (rstrip_sep r)
  end.

(** [os.path.dirname(p)]: the head up to the last separator, with its
    trailing separators removed unless it consists of separators only. *)
Definition dirname (p : string) : string :=
  let h := head_with_sep p in
  if all_sep h then h else rstrip_sep h.

(** A path argument that may be [None]: [os.path] raises [TypeError] on
    [None]. *)
Definition fspath (p : option string) : res string :=
  match p with Some s => Ok s | None => Raise TypeError end.

End OsPath.

(** ** The image encoder's constructor ([encoder.py]) *)

Module Encoder.

Section Init.
(** Floating-point hyper-parameters are carried, never computed with. *)
Variable float : Type.

(** The [args] mapping of [ImageEncoder.__init__], one field per key the
    constructor reads. *)
Record args := {
  in_channels : Z;
  conv_channels : list Z;
  conv_kernel : list Z;
  conv_stride : list Z;
  resblock_n : list Z;
  resblock_kernel : list Z;
  resblock_padding : list Z;
  layer_scale_init_value : float;
  latent_space_dim : Z;
  vq_beta : float;
  vq_n_embed : Z;
}.

(** The torch modules the constructor instantiates, by their
    constructor arguments. *)
Inductive module : Type :=
| Conv3d (c_in c_out kernel_size padding stride : Z)
| LayerNorm (channels : Z)
| AttnResBlock (dim n_layer kernel_size padding : Z) (layer_scale : float) (use_attn : bool)
| Upsample (scale_factor : Z)
| VectorQuantizer (n_embed dim : Z) (beta : float)
| Sequential (ms : list module).

Definition conv_in (m : module) : option Z :=
  match m with Conv3d c_in _ _ _ _ => Some c_in | _ => None end.
Definition conv_out (m : module) : option Z :=
  match m with Conv3d _ c_out _ _ _ => Some c_out | _ => None end.
Definition conv_stride_of (m : module) : option Z :=
  match m with Conv3d _ _ _ _ s => Some s | _ => None end.
Definition conv_kernel_of (m : module) : option Z :=
  match m with Conv3d _ _ k _ _ => Some k | _ => None end.

Record ImageEncoder := {
  down_layers : list module;
  up_layers : list module;
  conv_latent : module;
  quantize : module;
  p : module;
}.

(** The tuples of [zip(c_enc, k_enc, s_enc, n_res, k_res, p_res)]; the
    zip stops with the shortest list. *)
Fixpoint zip6 (ce ke se nr kr pr : list Z) : list (Z * Z * Z * Z * Z * Z) :=
  match ce, ke, se, nr, kr, pr with
  | a :: ce', b :: ke', c :: se', d :: nr', e :: kr', f :: pr' =>
      (a, b, c, d, e, f) :: zip6 ce' ke' se' nr' kr' pr'
  | _, _, _, _, _, _ => []
  end.

(** The loop state of the constructor. *)
Record loop_state := {
  ls_down : list module;
  ls_up : list module;
  c_pre : Z;
  up_scale : Z;
  up_channel : option Z;
}.

(** One turn of the stage loop, for the stage at position [i]. In every
    turn after the first [up_channel] is bound by the first one. *)
Definition stage (lsv : float) (st : loop_state) (i : nat) (t : Z * Z * Z * Z * Z * Z) : loop_state :=
  let '(ce, ke, se, nr, kr, pr) := t in
  let first := Nat.eqb i 0 in
  let block :=
    if first
    then [Conv3d (c_pre st) ce se 0 se] ++ (if nr =? 0 then [] else [LayerNorm ce])
    else [LayerNorm (c_pre st); Conv3d (c_pre st) ce se 0 se] in
  let up_channel' := if first then Some ce else up_channel st in
  let up_scale' := if first then up_scale st else up_scale st * se in
  let block := block ++ [AttnResBlock ce nr kr pr lsv true] in
  let uc := default 0 up_channel' in
  let up :=
    if up_scale' =? 1
    then Sequential [Conv3d ce uc 1 0 1; LayerNorm uc]
    else Sequential [Conv3d ce uc 1 0 1; LayerNorm uc; Upsample up_scale'] in
  {| ls_down := ls_down st ++ [Sequential block];
     ls_up := ls_up st ++ [up];
     c_pre := ce;
     up_scale := up_scale';
     up_channel := up_channel' |}.

Fixpoint stages (lsv : float) (st : loop_state) (i : nat) (ts : list (Z * Z * Z * Z * Z * Z)) : loop_state :=
  match ts with
  | [] => st
  | t :: ts' => stages lsv (stage lsv st i t) (S i) ts'
  end.

(** [ImageEncoder.__init__]. With no stage at all [up_channel] is still
    [None] when [conv_latent] multiplies it, a [TypeError]. *)
Definition init (a : args) : res ImageEncoder :=
  let st0 := {| ls_down := []; ls_up := []; c_pre := in_channels a;
                up_scale := 1; up_channel := None |} in
  let st := stages (layer_scale_init_value a) st0 0
              (zip6 (conv_channels a) (conv_kernel a) (conv_stride a)
                    (resblock_n a) (resblock_kernel a) (resblock_padding a)) in
  match up_channel st with
  | None => Raise TypeError
  | Some uc =>
      Ok {| down_layers := ls_down st;
            up_layers := ls_up st;
            conv_latent := Conv3d (uc * Z.of_nat (length (conv_channels a)))
                                  (latent_space_dim a) 1 0 1;
            quantize := VectorQuantizer (vq_n_embed a) (latent_space_dim a) (vq_beta a);
            p := Conv3d (latent_space_dim a) (latent_space_dim a * 2 * 2 * 2) 2 0 2 |}
  end.
End Init.

Arguments Conv3d {float}.
Arguments LayerNorm {float}.
Arguments Upsample {float}.
Arguments Sequential {float}.
Arguments conv_in {float}.
Arguments conv_out {float}.
Arguments conv_stride_of {float}.
Arguments conv_kernel_of {float}.
Arguments p {float}.
Arguments init {float}.

(** A one-stage configuration with a latent dimension of 8. *)
Definition small_args : args unit :=
  {| in_channels := 1; conv_channels := [16]; conv_kernel := [4]; conv_stride := [4];
     resblock_n := [2]; resblock_kernel := [3]; resblock_padding := [1];
     layer_scale_init_value := tt; latent_space_dim := 8; vq_beta := tt;
     vq_n_embed := 512 |}.

End Encoder.

(** ** The fused source / target / segmentation codes *)

Module Codes.

(** [F.one_hot(torch.tensor([idx]), num_classes=n)], as its single row;
    torch rejects a class value that is not below [num_classes]. *)
Definition one_hot (idx n : nat) : res (list Z) :=
  if (idx <? n)%nat
  then Ok ((fun i => if Nat.eqb i idx then 1 else 0) <$> range n)
  else Raise RuntimeError.

(** [_internal_maybe_mirror_and_predict], line 685: the availability mask
    of the case. *)
Definition tsf_src_code (num_channel : nat) (available_channel : list nat) : list Z :=
  (fun i => if contains available_channel i then 1 else 0) <$> range num_channel.

(** Line 686: [torch.cat([tsf_src_code, target_code, zeros((1, 1))], dim=1)]. *)
Definition tsf_tgt_code (num_channel : nat) (available_channel : list nat) (target_code : list Z) : list Z :=
  tsf_src_code num_channel available_channel ++ target_code ++ [0].

(** Line 687: [torch.cat([tsf_src_code, zeros_like(target_code), ones((1, 1))], dim=1)]. *)
Definition tsf_seg_code (num_channel : nat) (available_channel : list nat) (target_code : list Z) : list Z :=
  tsf_src_code num_channel available_channel ++ ((fun _ => 0) <$> target_code) ++ [1].

(** [predict_from_files], line 243: the code of target [tgt_id] for the
    task-specific contribution table. *)
Definition files_tgt_code (num_channel tgt_id : nat) : list Z :=
  ((fun i => if negb (Nat.eqb i tgt_id) then 1 else 0) <$> range num_channel)
  ++ ((fun i => if Nat.eqb i tgt_id then 1 else 0) <$> range num_channel)
  ++ [0].

(** [predict_from_files], line 246: the segmentation code of that table. *)
Definition files_seg_code (num_channel : nat) : list Z :=
  ((fun _ => 1) <$> range num_channel) ++ ((fun _ => 0) <$> range num_channel) ++ [1].

(** What a fused code is for. *)
Inductive mode : Type :=
| Translation (tgt : nat)
| Segmentation.

(** The layout a fused code must have for [num_channel] channels. *)
Record fused_layout (num_channel : nat) (m : mode) (code : list Z) : Prop := {
  fl_length : length code = (2 * num_channel + 1)%nat;
  fl_source : ∀ i, (i < num_channel)%nat → code !! i = Some 0 ∨ code !! i = Some 1;
  fl_target : ∀ j, (j < num_channel)%nat →
    code !! (num_channel + j)%nat =
      Some (match m with
            | Translation tgt => if Nat.eqb j tgt then 1 else 0
            | Segmentation => 0
            end);
  fl_flag : code !! (2 * num_channel)%nat =
              Some (match m with Translation _ => 0 | Segmentation => 1 end);
}.

End Codes.

(** ** Input and output list management ([_manage_input_and_output_lists]) *)

Module Lists.

(** The first argument: a source folder or the per-case file groups. *)
Inductive source_spec : Type :=
| SourceFolder (folder : string)
| SourceLists (cases : list (list string)).

(** The second argument: [None], an output folder, or one truncated output
    file name per case. *)
Inductive output_spec : Type :=
| OutputNone
| OutputFolder (folder : string)
| OutputList (prefixes : list string).

Section Manage.
(** [isfile] on the file system at the time of the call. *)
Variable isfile : string → bool.
(** [create_lists_from_splitted_dataset_folder(folder, file_ending)], a
    utility outside this file. *)
Variable create_lists_from_splitted_dataset_folder : string → string → list (list string).
(** [self.dataset_json['file_ending']]. *)
Variable file_ending : string.

(** [s[:-n]] for a positive [n]. *)
Definition drop_last (n : nat) (s : string) : string :=
  String.substring 0 (String.length s - n) s.

(** Line 175: the identifier of a case, from its first file. *)
Definition caseid (case : list string) : res string :=
  f ← index case 0;
  Ok (drop_last (String.length file_ending + 5) (OsPath.basename f)).

(** Lines 190-193: whether the outputs of a case are already there. *)
Definition exists_flags (save_probabilities : bool) (outputs : list string) : list bool :=
  let tmp := (fun o => isfile (o ++ file_ending)%string) <$> outputs in
  if save_probabilities
  then
    let tmp2 := (fun o => isfile (o ++ ".npz")%string) <$> outputs in
    (fun ij => fst ij && snd ij) <$> zip tmp tmp2
  else tmp.

(** Line 194: [[i for i, j in enumerate(tmp) if not j]]. *)
Definition not_existing_indices (tmp : list bool) : list nat :=
  fst <$> List.filter (fun ij => negb (snd ij)) (imap (fun i j => (i, j)) tmp).

(** [[l[i] for i in indices]]. *)
Definition select {A} (l : list A) (indices : list nat) : res (list A) :=
  comprehension (index l) indices.

Definition _manage_input_and_output_lists
    (list_of_lists_or_source_folder : source_spec)
    (output_folder_or_list_of_truncated_output_files : output_spec)
    (folder_with_segs_from_prev_stage : option string)
    (overwrite : bool) (part_id num_parts : nat) (save_probabilities : bool)
  : res (list (list string) * option (list string) * list (option string)) :=
  let list_of_lists :=
    match list_of_lists_or_source_folder with
    | SourceFolder folder => create_lists_from_splitted_dataset_folder folder file_ending
    | SourceLists cases => cases
    end in
  list_of_lists ← slice_from_step list_of_lists part_id num_parts;
  caseids ← comprehension caseid list_of_lists;
  let output_filename_truncated :=
    match output_folder_or_list_of_truncated_output_files with
    | OutputFolder folder => Some (OsPath.join folder <$> caseids)
    | OutputList prefixes => Some prefixes
    | OutputNone => None
    end in
  let seg_from_prev_stage_files :=
    (fun i => match folder_with_segs_from_prev_stage with
              | Some folder => Some (OsPath.join folder (i ++ file_ending)%string)
              | None => None
              end) <$> caseids in
  match overwrite, output_filename_truncated with
  | false, Some outputs =>
      let tmp := exists_flags save_probabilities outputs in
      let idx := not_existing_indices tmp in
      outputs' ← select outputs idx;
      list_of_lists' ← select list_of_lists idx;
      segs' ← select seg_from_prev_stage_files idx;
      Ok (list_of_lists', Some outputs', segs')
  | _, _ => Ok (list_of_lists, output_filename_truncated, seg_from_prev_stage_files)
  end.

(** The reading of the specification: a case is already predicted when
    its label file exists and, if probabilities are requested, its
    probability archive as well. *)
Definition already_predicted (save_probabilities : bool) (prefix : string) : bool :=
  isfile (prefix ++ file_ending)%string
  && (if save_probabilities then isfile (prefix ++ ".npz")%string else true).

(** The cases (source group, output prefix, previous-stage file) that are
    still to be predicted. *)
Definition remaining (save_probabilities : bool)
    (cases : list (list string * string * option string))
  : list (list string * string * option string) :=
  List.filter (fun c => negb (already_predicted save_probabilities (snd (fst c)))) cases.

End Manage.

End Lists.

(** ** The synthesis-based contribution report (lines 516-539) *)

(** numpy's double-precision scalars and the two reductions the report uses. *)
Class Scalar := {
  num : Type;
  num_of_Z : Z → num;
  nadd : num → num → num;
  nsub : num → num → num;
  ndiv : num → num → num;
  np_nanmean : list num → num;
  np_nanstd : list num → num;
}.

Module Report.

Section Report.
Context `{Scalar}.

(** [self.one2one_translate_psnr]: for every source and target channel
    the PSNR values observed so far. *)
Definition table : Type := list (list (list num)).

(** Line 240: [[[[] for _ in range(n)] for _ in range(n)]]. *)
Definition empty_table (n : nat) : table :=
  (fun _ => (fun _ => []) <$> range n) <$> range n.

(** [self.one2one_translate_psnr[src][tgt].append(psnr)]. *)
Definition table_append (t : table) (src tgt : nat) (psnr : num) : res table :=
  row ← index t src;
  cell ← index row tgt;
  Ok (<[src := <[tgt := cell ++ [psnr]]> row]> t).

(** Lines 521-524. *)
Definition all_psnr (t : table) : list num := concat (concat t).

(** [eps = 1e-9]. *)
Definition eps : num := ndiv (num_of_Z 1) (num_of_Z 1000000000).

(** Line 529. *)
Definition score (t : table) (obs : list num) : num :=
  ndiv (nsub (np_nanmean obs) (np_nanmean (all_psnr t)))
       (nadd (np_nanstd (all_psnr t)) eps).

(** Lines 519 and 525-529: the score matrix [A]. *)
Definition score_matrix (N : nat) (t : table) : res (list (list num)) :=
  let A0 := (fun _ => (fun _ => num_of_Z 0) <$> range N) <$> range N in
  for_each (range N) A0 (fun A i =>
    for_each (range N) A (fun A j =>
      row ← index t i;
      obs ← index row j;
      if (length obs =? 0)%nat then Ok A
      else
        Ai ← index A i;
        Ok (<[i := <[j := score t obs]> Ai]> A))).

(** Lines 530-538: one row [[i, metric_ct, metric_cd]] per channel. *)
Definition contribution_rows (N : nat) (A : list (list num)) : res (list (nat * num * num)) :=
  for_each (range N) [] (fun sbsc i =>
    '(metric_ct, metric_cd) ←
      for_each (range N) (num_of_Z 0, num_of_Z 0) (fun m j =>
        Ai ← index A i;
        Aij ← index Ai j;
        Aj ← index A j;
        Aji ← index Aj i;
        Ok (nadd (fst m) Aij, nsub (snd m) Aji));
    Ok (sbsc ++ [(i, ndiv metric_ct (num_of_Z (Z.of_nat N)),
                     ndiv metric_cd (num_of_Z (Z.of_nat N)))])).

Definition synthesis_based_sequence_contribution (N : nat) (t : table)
  : res (list (nat * num * num)) :=
  A ← score_matrix N t;
  contribution_rows N A.

End Report.

(** *** Real numbers as scalars

    On data without NaN, [np.nanmean] is the arithmetic mean and
    [np.nanstd] the population standard deviation (ddof = 0). This instance
    is the exact arithmetic that the doubles of the code round; it serves as
    the type of the values a table stores, and nothing is proved from its
    arithmetic. *)

Definition Rsum (l : list R) : R := fold_right Rplus 0%R l.

Definition Rmean (l : list R) : R := (Rsum l / INR (length l))%R.

Definition Rstd (l : list R) : R :=
  sqrt (Rmean ((fun x => ((x - Rmean l) * (x - Rmean l))%R) <$> l)).

#[export] Instance real_scalar : Scalar := {|
  num := R;
  num_of_Z := IZR;
  nadd := Rplus;
  nsub := Rminus;
  ndiv := Rdiv;
  np_nanmean := Rmean;
  np_nanstd := Rstd;
|}.

(** A table of [n] rows of [n] cells. *)
Definition square {A} (n : nat) (t : list (list A)) : Prop :=
  length t = n ∧ Forall (fun row => length row = n) t.

End Report.

(** ** Devices, tensors, the network and the utilities around the predictor *)

Inductive device : Type := Cuda | Cpu | Mps.

#[global] Instance device_eq_dec : EqDecision device.
Proof. solve_decision. Defined.

(** One entry of an indexing tuple: [slice(None)], an integer, or
    [slice(start, stop)]. *)
Inductive slice_item : Type :=
| All
| At (d : nat)
| Range (start stop : nat).

Definition slicer : Type := list slice_item.

(** The torch operations the predictor uses. Values do not depend on the
    device a tensor lives on. *)
Class TensorLib := {
  tensor : Type;
  (** [t.ndim] and [t.shape] *)
  ndim : tensor → nat;
  shape : tensor → list nat;
  (** [torch.zeros(shape, dtype=torch.half)] and [torch.zeros_like(t)] *)
  zeros : list nat → tensor;
  zeros_like : tensor → tensor;
  (** [t[i:i+1]] along dimension [dim], all other dimensions in full *)
  narrow : nat → nat → tensor → tensor;
  (** [torch.cat(ts, dim)] *)
  cat : nat → list tensor → tensor;
  (** [t.view(-1, 1, *shape[2:])] *)
  channels_to_batch : tensor → tensor;
  (** [t.reshape(b, -1, *t.shape[2:])] *)
  batch_to_channels : nat → tensor → tensor;
  (** [torch.flip(t, axes)] *)
  flip : list nat → tensor → tensor;
  (** [a + b], [a - b], [a * b], [a / b], with broadcasting *)
  tadd : tensor → tensor → tensor;
  tsub : tensor → tensor → tensor;
  tmul : tensor → tensor → tensor;
  tdiv : tensor → tensor → tensor;
  (** [t / n] for a Python integer [n] *)
  tdiv_int : tensor → nat → tensor;
  (** [torch.abs(t)] *)
  tabs : tensor → tensor;
  (** [torch.argmax(t, dim=0, keepdim=True)] *)
  argmax0 : tensor → tensor;
  (** [torch.any(torch.isinf(t))] *)
  any_isinf : tensor → bool;
  (** [F.interpolate(t, scale_factor=4)] and [F.interpolate(t, scale_factor=0.25)] *)
  upsample4 : tensor → tensor;
  downsample4 : tensor → tensor;
  (** [t[None]], [t.unsqueeze(0)] and [t[0]] *)
  unsqueeze0 : tensor → tensor;
  select0 : tensor → tensor;
  (** [t[sl]] *)
  slice_get : slicer → tensor → tensor;
  (** [acc[sl] += v], as the new value of [acc] *)
  slice_add : slicer → tensor → tensor → tensor;
  (** [acc[sl] += 1] *)
  slice_incr : slicer → tensor → tensor;
}.

(** The trained network: its sub-modules as functions of the state dict that
    is loaded and of their inputs. A code is the single row of a
    [(1, n)]-shaped tensor. *)
Class Network `{TensorLib} := {
  weights : Type;
  (** [self.network(x, code, with_latent=True)]: prediction and latent *)
  forward : weights → tensor → list Z → tensor * tensor;
  segmentor : weights → tensor → tensor;
  (** [self.network.image_encoder(t)]: the quantized latent *)
  image_encoder : weights → tensor → tensor;
  (** [self.network.tsf(latent, code)]: the fused latent, plain and refined *)
  tsf : weights → tensor → list Z → tensor * tensor;
  hyper_decoder : weights → tensor → list Z → tensor;
  (** [self.network.tsf.infer_contribution(code)], as the list of weights *)
  contribution : Type;
  infer_contribution : weights → list Z → contribution;
}.

(** The properties of a preprocessed case, as far as the predictor reads
    them. *)
Record properties := {
  num_channel : nat;
  available_channel : list nat;
}.

(** A record of a data iterator: ['data'] is a tensor or the name of a spilled
    [.npy] file. *)
Record preprocessed `{TensorLib} := {
  data : tensor + string;
  ofile : option string;
  data_properties : properties;
}.

(** Utilities of the package and of third parties that the predictor calls
    and that lie outside this file. *)
Class Toolkit `{TensorLib} `{Scalar} := {
  (** [compute_gaussian(patch_size, sigma_scale=1/8, value_scaling_factor=10)] *)
  compute_gaussian : list nat → tensor;
  (** [compute_steps_for_sliding_window(image_size, patch_size, step)] *)
  tile_step : Type;
  compute_steps_for_sliding_window : list nat → list nat → tile_step → res (list (list nat));
  (** [pad_nd_image(image, patch_size, 'constant', {'value': 0}, True, None)]:
      the padded image and the slicer that reverts the padding *)
  pad_nd_image : tensor → list nat → tensor * slicer;
  (** [torch.from_numpy(np.load(file))] *)
  np_load : string → tensor;
  (** [linearMatch(prediction, reference)] *)
  linearMatch : tensor → tensor → tensor;
  (** [torch_PSNR(reference, prediction, data_range=1).item()] *)
  torch_PSNR : tensor → tensor → num;
  (** what a finished export job hands back through [get()[0]] *)
  exported : Type;
  export_prediction_from_logits : tensor → properties → string → bool → bool → exported;
  convert_predicted_logits_to_segmentation_with_correct_shape :
    tensor → properties → bool → exported;
  (** the record [next(PreprocessAdapterFromNpy(...))] yields *)
  raw_image : Type;
  raw_properties : Type;
  preprocess_npy : raw_image → option raw_image → raw_properties → tensor * properties;
  (** the records [preprocessing_iterator_fromfiles(...)] yields for the
      source groups, previous-stage files and output prefixes *)
  preprocessing_iterator_fromfiles :
    list (list string) → list (option string) → option (list string) → list preprocessed;
  (** the records [preprocessing_iterator_fromnpy(...)] yields *)
  preprocessing_iterator_fromnpy :
    list raw_image → option (list raw_image) → list raw_properties → option (list string)
    → list preprocessed;
  (** whether these iterators are instances of [MultiThreadedAugmenter] *)
  iterator_is_multithreaded : bool;
}.

(** ** The world: what a run of the predictor touches *)

Section World.
Context `{TL : TensorLib} `{SC : Scalar} `{NW : !Network} `{TK : !Toolkit}.

(** A job handed to the export pool with [starmap_async]. *)
Inductive job : Type :=
| ExportJob (logits : tensor) (props : properties) (ofile : string)
            (save_probabilities is_latent : bool)
| ConvertJob (logits : tensor) (props : properties) (return_probabilities : bool).

Definition job_result (j : job) : exported :=
  match j with
  | ExportJob t p f s l => export_prediction_from_logits t p f s l
  | ConvertJob t p s => convert_predicted_logits_to_segmentation_with_correct_shape t p s
  end.

(** The calls that reach outside the interpreter. Each of them can fail. *)
Inductive event : Type :=
| EmptyCache (d : device)
| NetworkTo (d : device)
| MoveImage (d : device) (data : tensor)
| MoveTo (d : device) (t : tensor)
| Allocate (d : device) (shape : list nat)
| Gaussian (d : device)
| LoadStateDict
| Forward (x : tensor) (code : list Z)
| Segmentor (latent : tensor)
| Encoder (x : tensor)
| Fusion (latent : tensor) (code : list Z)
| Decoder (latent : tensor) (code : list Z)
| Preprocess
| PoolOpen (workers : nat)
| PoolWait
| Submit (j : job)
| Get (j : job)
| Run (j : job)
| PoolClose
| Makedirs (path : string)
| LoadAndRemove (file : string)
| FinishIterator
| WriteCsv (path : string) (rows : list (nat * num * num))
| SaveJson (path : string)
| InferContribution (code : list Z)
| WriteContributionCsv (path : string) (rows : list (option nat * contribution))
| GaussianCacheClear.

(** The state of a run. [faults] schedules the failures of the outside
    world: the call made at time [n] raises [e] when [faults n = Some e].
    [loaded] is the state dict inside [self.network]; [psnr] is the
    attribute [self.one2one_translate_psnr], [None] while the object has no
    such attribute; [tile_outputs_bound] tells whether the locals
    [prediction_mask] and [latent_space] of the running
    [_internal_predict_sliding_window_return_logits] are bound. *)
Record world := {
  clock : nat;
  faults : nat → option exn;
  trace : list event;
  loaded : weights;
  psnr : option Report.table;
  tile_outputs_bound : bool;
}.

(** A computation: it ends in a value or an exception, and the state is
    kept in both cases. *)
Definition M (A : Type) : Type := world → res A * world.

#[global] Instance M_ret : MRet M := fun _ a w => (Ok a, w).
#[global] Instance M_bind : MBind M := fun _ _ f m w =>
  match m w with
  | (Ok a, w') => f a w'
  | (Raise e, w') => (Raise e, w')
  end.

Definition raise {A} (e : exn) : M A := fun w => (Raise e, w).

(** A pure, fallible step. *)
Definition lift {A} (r : res A) : M A := fun w => (r, w).

(** A call to the outside: it is recorded, time advances, and the
    scheduled failure, if any, is raised. *)
Definition ext (e : event) : M unit := fun w =>
  let w' := {| clock := S (clock w); faults := faults w; trace := trace w ++ [e];
               loaded := loaded w; psnr := psnr w;
               tile_outputs_bound := tile_outputs_bound w |} in
  match faults w (clock w) with
  | Some x => (Raise x, w')
  | None => (Ok tt, w')
  end.

Definition get_loaded : M weights := fun w => (Ok (loaded w), w).

Definition set_loaded (p : weights) : M unit := fun w =>
  (Ok tt, {| clock := clock w; faults := faults w; trace := trace w;
             loaded := p; psnr := psnr w;
             tile_outputs_bound := tile_outputs_bound w |}).

Definition set_psnr (t : option Report.table) : M unit := fun w =>
  (Ok tt, {| clock := clock w; faults := faults w; trace := trace w;
             loaded := loaded w; psnr := t;
             tile_outputs_bound := tile_outputs_bound w |}).

(** Reading [self.one2one_translate_psnr]: an [AttributeError] while the
    attribute does not exist. *)
Definition get_psnr : M Report.table := fun w =>
  match psnr w with
  | Some t => (Ok t, w)
  | None => (Raise AttributeError, w)
  end.

Definition set_tile_outputs_bound (b : bool) : M unit := fun w =>
  (Ok tt, {| clock := clock w; faults := faults w; trace := trace w;
             loaded := loaded w; psnr := psnr w;
             tile_outputs_bound := b |}).

Definition get_tile_outputs_bound : M bool := fun w => (Ok (tile_outputs_bound w), w).

(** [try: body except Exception as e: handler(e)]. *)
Definition try_except {A} (body : M A) (handler : exn → M A) : M A := fun w =>
  match body w with
  | (Ok a, w') => (Ok a, w')
  | (Raise e, w') => handler e w'
  end.

(** A [for] loop with an accumulator. *)
Fixpoint for_eachM {A B} (l : list B) (a : A) (body : A → B → M A) : M A :=
  match l with
  | [] => mret a
  | b :: l' => a' ← body a b; for_eachM l' a' body
  end.

(** A world in which nothing fails from now on. *)
Definition quiet (w : world) : Prop := ∀ n, (clock w ≤ n)%nat → faults w n = None.

(** The world after the calls [evs] went through. *)
Definition after (w : world) (evs : list event) : world :=
  {| clock := (length evs + clock w)%nat; faults := faults w; trace := trace w ++ evs;
     loaded := loaded w; psnr := psnr w;
     tile_outputs_bound := tile_outputs_bound w |}.

End World.


(** ** The predictor *)

Section Predictor.
Context `{TL : TensorLib} `{SC : Scalar} `{NW : !Network} `{TK : !Toolkit}.

(** The attributes of an initialized [nnSeq2SeqPredictor] that inference
    reads and never writes; [tsf_num_channel] is
    [self.network.tsf.num_channel], [latent_dim] is
    [self.network.image_encoder.latent_space_dim], [patch_size] and
    [previous_stage_name] come from the configuration manager,
    [num_segmentation_heads] from the label manager and [file_ending] from
    the dataset descriptor. *)
Record predictor := {
  tile_step_size : tile_step;
  use_gaussian : bool;
  use_mirroring : bool;
  perform_everything_on_device : bool;
  self_device : device;
  allowed_mirroring_axes : option (list nat);
  list_of_parameters : list weights;
  patch_size : list nat;
  previous_stage_name : option string;
  num_segmentation_heads : nat;
  tsf_num_channel : nat;
  latent_dim : nat;
  file_ending : string;
}.

(** *** Mirror-augmented tile prediction *)

(** [itertools.combinations(l, r)]: the [r]-element selections of [l] by
    position, in lexicographic order of the positions. *)
Fixpoint combinations {A} (l : list A) (r : nat) : list (list A) :=
  match r with
  | O => [[]]
  | S r' =>
      match l with
      | [] => []
      | a :: l' => (cons a <$> combinations l' r') ++ combinations l' r
      end
  end.

(** Lines 706-708: [[c for i in range(len(mirror_axes))
    for c in itertools.combinations([m + 2 for m in mirror_axes], i + 1)]]. *)
Definition axes_combinations (mirror_axes : list nat) : list (list nat) :=
  range (length mirror_axes) ≫= fun i =>
    combinations ((fun m => (m + 2)%nat) <$> mirror_axes) (i + 1).

(** [max(l)] on a sequence of integers; empty, a [ValueError]. *)
Definition py_max (l : list nat) : res nat :=
  match l with
  | [] => Raise ValueError
  | a :: l' => Ok (foldr Nat.max a l')
  end.

(** The simple path (no properties): the bare network, then the segmentor
    on its latent. Lines 674-675 and 711-712. *)
Definition bare_pass (p : weights) (x : tensor) (target_code : list Z)
  : tensor * tensor * tensor :=
  let '(prediction, latent_space) := forward p x target_code in
  (prediction, segmentor p latent_space, latent_space).

Definition run_bare_pass (x : tensor) (target_code : list Z) : M (tensor * tensor * tensor) :=
  p ← get_loaded;
  ext (Forward x target_code);;
  ext (Segmentor (snd (forward p x target_code)));;
  mret (bare_pass p x target_code).

(** The fusion path from the per-channel volume on: encoder, reshape, the
    fusion network under the target and the segmentation code, decoder and
    segmentor. Lines 682-698 and 714-726; [batch] is [x.shape[0]]. *)
Definition fused_pass (p : weights) (batch : nat) (tsf_data : tensor)
    (tsf_tgt_code tsf_seg_code target_code : list Z) (with_attn : bool)
  : tensor * tensor * tensor :=
  let latent_tsf := batch_to_channels batch (image_encoder p tsf_data) in
  let '(latent_tsf_tgt, latent_tsf_tgt_finetune) := tsf p latent_tsf tsf_tgt_code in
  let '(latent_tsf_seg, latent_tsf_seg_finetune) := tsf p latent_tsf tsf_seg_code in
  if with_attn
  then (hyper_decoder p latent_tsf_tgt_finetune target_code,
        segmentor p latent_tsf_seg_finetune,
        latent_tsf_tgt_finetune)
  else (hyper_decoder p latent_tsf_tgt target_code,
        segmentor p latent_tsf_seg,
        latent_tsf_tgt).

Definition run_fused_pass (batch : nat) (tsf_data : tensor)
    (tsf_tgt_code tsf_seg_code target_code : list Z) (with_attn : bool)
  : M (tensor * tensor * tensor) :=
  p ← get_loaded;
  ext (Encoder tsf_data);;
  let latent_tsf := batch_to_channels batch (image_encoder p tsf_data) in
  ext (Fusion latent_tsf tsf_tgt_code);;
  ext (Fusion latent_tsf tsf_seg_code);;
  let latent_tgt := tsf p latent_tsf tsf_tgt_code in
  let latent_seg := tsf p latent_tsf tsf_seg_code in
  ext (Decoder (if with_attn then snd latent_tgt else fst latent_tgt) target_code);;
  ext (Segmentor (if with_attn then snd latent_seg else fst latent_seg));;
  mret (fused_pass p batch tsf_data tsf_tgt_code tsf_seg_code target_code with_attn).

(** Lines 677-680: the channels of the tile that are present, scattered
    into [num_channel] zero volumes and concatenated. *)
Definition scatter_channels (props : properties) (x : tensor) : res tensor :=
  let blank := (fun _ => zeros_like (narrow 1 0 x)) <$> range (num_channel props) in
  tsf_data ←
    for_each (imap (fun i seq_i => (i, seq_i)) (available_channel props)) blank
      (fun tsf_data '(i, seq_i) =>
         _ ← index tsf_data seq_i;
         Ok (<[seq_i := narrow 1 i x]> tsf_data));
  Ok (channels_to_batch (cat 1 tsf_data)).

(** What one pass works on, and how it runs on an input flipped along
    [axes]. *)
Inductive tile_input : Type :=
| Bare (x : tensor)
| Fused (batch : nat) (tsf_data : tensor) (tsf_tgt_code tsf_seg_code : list Z).

Definition flipped (axes : list nat) (inp : tile_input) : tile_input :=
  match inp with
  | Bare x => Bare (flip axes x)
  | Fused b d tc sc => Fused b (flip axes d) tc sc
  end.

Definition pass (p : weights) (target_code : list Z) (with_attn : bool) (inp : tile_input)
  : tensor * tensor * tensor :=
  match inp with
  | Bare x => bare_pass p x target_code
  | Fused b d tc sc => fused_pass p b d tc sc target_code with_attn
  end.

Definition run_pass (target_code : list Z) (with_attn : bool) (inp : tile_input)
  : M (tensor * tensor * tensor) :=
  match inp with
  | Bare x => run_bare_pass x target_code
  | Fused b d tc sc => run_fused_pass b d tc sc target_code with_attn
  end.

Definition add3 (a b : tensor * tensor * tensor) : tensor * tensor * tensor :=
  (tadd (fst (fst a)) (fst (fst b)), tadd (snd (fst a)) (snd (fst b)), tadd (snd a) (snd b)).

Definition flip3 (axes : list nat) (a : tensor * tensor * tensor) : tensor * tensor * tensor :=
  (flip axes (fst (fst a)), flip axes (snd (fst a)), flip axes (snd a)).

Definition div3 (a : tensor * tensor * tensor) (n : nat) : tensor * tensor * tensor :=
  (tdiv_int (fst (fst a)) n, tdiv_int (snd (fst a)) n, tdiv_int (snd a) n).

Definition _internal_maybe_mirror_and_predict (self : predictor)
    (x : tensor) (target_code : list Z) (props : option properties) (with_attn : bool)
  : M (tensor * tensor * tensor) :=
  let mirror_axes := if use_mirroring self then allowed_mirroring_axes self else None in
  inp ←
    match props with
    | None => mret (Bare x)
    | Some props =>
        tsf_data ← lift (scatter_channels props x);
        ext (MoveTo (self_device self) tsf_data);;
        mret (Fused (default 0%nat (shape x !! 0%nat)) tsf_data
                (Codes.tsf_tgt_code (num_channel props) (available_channel props) target_code)
                (Codes.tsf_seg_code (num_channel props) (available_channel props) target_code))
    end;
  acc ← run_pass target_code with_attn inp;
  match mirror_axes with
  | None => mret acc
  | Some mirror_axes =>
      top ← lift (py_max mirror_axes);
      lift (assert (Z.of_nat top <=? Z.of_nat (ndim x) - 3));;
      let combos := axes_combinations mirror_axes in
      acc ← for_eachM combos acc (fun acc axes =>
               out ← run_pass target_code with_attn (flipped axes inp);
               mret (add3 acc (flip3 axes out)));
      mret (div3 acc (length combos + 1))
  end.

(** *** Sliding-window execution *)

(** Lines 637-669. *)
Definition _internal_get_sliding_window_slicers (self : predictor) (image_size : list nat)
  : res (list slicer) :=
  let tiles (offsets : list nat) : list slice_item :=
    (fun st => Range (fst st) (fst st + snd st)) <$> zip offsets (patch_size self) in
  if (length (patch_size self) <? length image_size)%nat
  then
    assert (Nat.eqb (length (patch_size self)) (length image_size - 1));;
    steps ← compute_steps_for_sliding_window (drop 1 image_size) (patch_size self)
               (tile_step_size self);
    depth ← index image_size 0;
    for_each (range depth) [] (fun slicers d =>
      steps0 ← index steps 0;
      for_each steps0 slicers (fun slicers sx =>
        steps1 ← index steps 1;
        Ok (slicers ++ ((fun sy => All :: At d :: tiles [sx; sy]) <$> steps1))))
  else
    steps ← compute_steps_for_sliding_window image_size (patch_size self)
               (tile_step_size self);
    steps0 ← index steps 0;
    for_each steps0 [] (fun slicers sx =>
      steps1 ← index steps 1;
      for_each steps1 slicers (fun slicers sy =>
        steps2 ← index steps 2;
        Ok (slicers ++ ((fun sz => All :: tiles [sx; sy; sz]) <$> steps2)))).

(** The accumulators of the sliding window: translation logits, mask
    logits, latent space and the normalization volume. *)
Record buffers := {
  predicted_logits : tensor;
  predicted_mask_logits : tensor;
  predicted_latent_space : tensor;
  n_predictions : tensor;
}.

(** Lines 782-785: one tile added to the accumulators. *)
Definition accumulate (gaussian : option tensor) (sl : slicer) (acc : buffers)
    (out : tensor * tensor * tensor) : buffers :=
  let weighted t := match gaussian with Some g => tmul t g | None => t end in
  {| predicted_logits := slice_add sl (predicted_logits acc) (weighted (fst (fst out)));
     predicted_mask_logits := slice_add sl (predicted_mask_logits acc) (weighted (snd (fst out)));
     predicted_latent_space := slice_add sl (predicted_latent_space acc) (weighted (snd out));
     n_predictions :=
       match gaussian with
       | Some g => slice_add (drop 1 sl) (n_predictions acc) g
       | None => slice_incr (drop 1 sl) (n_predictions acc)
       end |}.

(** Lines 788-790. *)
Definition normalize (acc : buffers) : tensor * tensor * tensor :=
  (tdiv (predicted_logits acc) (n_predictions acc),
   tdiv (predicted_mask_logits acc) (n_predictions acc),
   tdiv (predicted_latent_space acc) (n_predictions acc)).

(** Lines 746-785, the first part of the [try]: the image is moved to the
    results device, the accumulators are allocated, and every tile is
    predicted and added. The tuple assignment of line 777 binds
    [prediction_mask] and [latent_space]. *)
Definition sliding_window_tiles (self : predictor) (data : tensor) (slicers : list slicer)
    (target_code : list Z) (results_device : device)
    (props : option properties) (with_attn : bool)
  : M buffers :=
  ext (EmptyCache (self_device self));;
  ext (MoveImage results_device data);;
  let spatial := drop 1 (shape data) in
  ext (Allocate results_device (1%nat :: spatial));;
  ext (Allocate results_device (num_segmentation_heads self :: spatial));;
  ext (Allocate results_device (latent_dim self :: spatial));;
  ext (Allocate results_device spatial);;
  let acc0 := {| predicted_logits := zeros (1%nat :: spatial);
                 predicted_mask_logits := zeros (num_segmentation_heads self :: spatial);
                 predicted_latent_space := zeros (latent_dim self :: spatial);
                 n_predictions := zeros spatial |} in
  gaussian ←
    (if use_gaussian self
     then ext (Gaussian results_device);; mret (Some (compute_gaussian (patch_size self)))
     else mret None);
  for_eachM slicers acc0 (fun acc sl =>
    let workon := unsqueeze0 (slice_get sl data) in
    ext (MoveTo (self_device self) workon);;
    out ← _internal_maybe_mirror_and_predict self workon target_code props with_attn;
    set_tile_outputs_bound true;;
    let prediction := select0 (fst (fst out)) in
    ext (MoveTo results_device prediction);;
    let prediction_mask := select0 (snd (fst out)) in
    ext (MoveTo results_device prediction_mask);;
    let latent_space := select0 (upsample4 (snd out)) in
    ext (MoveTo results_device latent_space);;
    mret (accumulate gaussian sl acc (prediction, prediction_mask, latent_space))).

(** Lines 788-795: the accumulators are normalized and the translation
    logits checked for infinite values. *)
Definition check_for_infs (acc : buffers) : M (tensor * tensor * tensor) :=
  let out := normalize acc in
  if any_isinf (fst (fst out)) then raise RuntimeError else mret out.

(** Lines 746-795, the body of the [try]. *)
Definition sliding_window_body (self : predictor) (data : tensor) (slicers : list slicer)
    (target_code : list Z) (results_device : device)
    (props : option properties) (with_attn : bool)
  : M (tensor * tensor * tensor) :=
  acc ← sliding_window_tiles self data slicers target_code results_device props with_attn;
  check_for_infs acc.

(** Lines 796-800, the handler: the [del] statement names [prediction_mask]
    and [latent_space], which are bound by the first tile only (the other
    names are bound to [None] at line 742); deleting an unbound local is an
    [UnboundLocalError]. *)
Definition sliding_window_handler (self : predictor) (results_device : device)
    (e : exn) : M (tensor * tensor * tensor) :=
  bound ← get_tile_outputs_bound;
  if bound : bool
  then
    ext (EmptyCache (self_device self));;
    ext (EmptyCache results_device);;
    raise e
  else raise UnboundLocalError.

Definition _internal_predict_sliding_window_return_logits (self : predictor)
    (data : tensor) (slicers : list slicer) (target_code : list Z) (do_on_device : bool)
    (props : option properties) (with_attn : bool)
  : M (tensor * tensor * tensor) :=
  let results_device := if do_on_device then self_device self else Cpu in
  set_tile_outputs_bound false;;
  try_except
    (sliding_window_body self data slicers target_code results_device props with_attn)
    (sliding_window_handler self results_device).

(** [self.device != 'cpu']: a [torch.device] compared with a [str] is never
    equal. *)
Definition device_differs_from_str (d : device) (s : string) : bool := true.

(** [except RuntimeError: handler]. *)
Definition except_RuntimeError {A} (body handler : M A) : M A :=
  try_except body (fun e => if decide (e = RuntimeError) then handler else raise e).

Definition crop (revert : slicer) (t : tensor) : tensor :=
  slice_get (All :: drop 1 revert) t.

(** Lines 832-844: the execution on the configured results device and, when
    results are kept on the device, the fallback to host memory. *)
Definition sliding_window_with_fallback (self : predictor) (data : tensor)
    (slicers : list slicer) (target_code : list Z)
    (props : option properties) (with_attn : bool)
  : M (tensor * tensor * tensor) :=
  if perform_everything_on_device self && device_differs_from_str (self_device self) "cpu"
  then
    except_RuntimeError
      (_internal_predict_sliding_window_return_logits self data slicers target_code
         (perform_everything_on_device self) props with_attn)
      (ext (EmptyCache (self_device self));;
       _internal_predict_sliding_window_return_logits self data slicers target_code
         false props with_attn)
  else
    _internal_predict_sliding_window_return_logits self data slicers target_code
      (perform_everything_on_device self) props with_attn.

(** Lines 803-851. *)
Definition predict_sliding_window_return_logits (self : predictor)
    (input_image : tensor) (target_code : list Z)
    (props : option properties) (with_attn : bool)
  : M (tensor * tensor * tensor) :=
  ext (NetworkTo (self_device self));;
  ext (EmptyCache (self_device self));;
  lift (assert (Nat.eqb (ndim input_image) 4));;
  let '(data, slicer_revert_padding) := pad_nd_image input_image (patch_size self) in
  slicers ← lift (_internal_get_sliding_window_slicers self (drop 1 (shape data)));
  out ← sliding_window_with_fallback self data slicers target_code props with_attn;
  ext (EmptyCache (self_device self));;
  mret (crop slicer_revert_padding (fst (fst out)),
        crop slicer_revert_padding (snd (fst out)),
        crop slicer_revert_padding (snd out)).

End Predictor.

Section Sweep.
Context `{TL : TensorLib} `{SC : Scalar} `{NW : !Network} `{TK : !Toolkit}.

(** *** Fold ensembling (lines 588-635) *)

Definition move3 (d : device) (out : tensor * tensor * tensor) : M unit :=
  ext (MoveTo d (fst (fst out)));;
  ext (MoveTo d (snd (fst out)));;
  ext (MoveTo d (snd out)).

(** [def predict_logits_from_preprocessed_data(self, data, target_code,
    properties=None, with_attn=True)]. With no parameter set at all,
    [prediction] is still [None] at line 631 and [None.to] is an
    [AttributeError]. *)
Definition predict_logits_from_preprocessed_data (self : predictor)
    (data : tensor) (target_code : list Z) (props : option properties) (with_attn : bool)
  : M (tensor * tensor * tensor) :=
  acc ← for_eachM (list_of_parameters self) None (fun acc params =>
    ext LoadStateDict;;
    set_loaded params;;
    out ← predict_sliding_window_return_logits self data target_code props with_attn;
    move3 Cpu out;;
    mret (Some (match acc with None => out | Some a => add3 a out end)));
  match acc with
  | None => raise AttributeError
  | Some a =>
      let a := if (1 <? length (list_of_parameters self))%nat
               then div3 a (length (list_of_parameters self)) else a in
      move3 Cpu a;;
      mret a
  end.

(** A call [self.predict_logits_from_preprocessed_data(...)] as Python
    binds it: [None] stands for an argument the call does not give; a
    parameter without default that gets no argument is a [TypeError], the
    others take their defaults. *)
Definition call_predict_logits_from_preprocessed_data (self : predictor)
    (data : option tensor) (target_code : option (list Z))
    (props : option (option properties)) (with_attn : option bool)
  : M (tensor * tensor * tensor) :=
  match data, target_code with
  | Some data, Some target_code =>
      predict_logits_from_preprocessed_data self data target_code
        (default None props) (default true with_attn)
  | _, _ => raise TypeError
  end.

(** *** The single-array path (lines 548-586) *)

Definition predict_single_npy_array (self : predictor)
    (input_image : raw_image) (image_properties : raw_properties)
    (segmentation_previous_stage : option raw_image)
    (output_file_truncated : option string) (save_or_return_probabilities : bool)
  : M (option exported) :=
  ext Preprocess;;
  let dct := preprocess_npy input_image segmentation_previous_stage image_properties in
  out ← call_predict_logits_from_preprocessed_data self (Some (fst dct)) None None None;
  move3 Cpu out;;
  let predicted_logits := fst (fst out) in
  match output_file_truncated with
  | Some ofile =>
      ext (Run (ExportJob predicted_logits (snd dct) ofile save_or_return_probabilities false));;
      mret None
  | None =>
      let j := ConvertJob predicted_logits (snd dct) save_or_return_probabilities in
      ext (Run j);;
      mret (Some (job_result j))
  end.

(** *** The per-case sweep (lines 356-546) *)

(** [export_pool.starmap_async(f, (args,))], appended to [r]. *)
Definition submit (r : list job) (j : job) : M (list job) :=
  ext (Submit j);;
  mret (r ++ [j]).

Definition path3 (a b c : string) : string := OsPath.join (OsPath.join a b) c.

(** Lines 424-510: one source sequence of one target. The state is the job
    list [r] and the running differentiation map [md]. *)
Definition sweep_source (self : predictor) (save_probabilities : bool)
    (data : tensor) (ofile : option string) (props : properties)
    (tgt_seq : nat) (tgt_code : list Z)
    (st : list job * tensor) (src : nat * nat) : M (list job * tensor) :=
  let '(r, md) := st in
  let '(src_idx, src_seq) := src in
  let available := available_channel props in
  out ← call_predict_logits_from_preprocessed_data self
           (Some (narrow 0 src_idx data)) (Some tgt_code) None None;
  let prediction := fst (fst out) in
  let prediction_mask := argmax0 (snd (fst out)) in
  let prediction_latent := select0 (downsample4 (unsqueeze0 (snd out))) in
  md ←
    (if contains available tgt_seq
     then
       tgt_idx ← lift (list_index available tgt_seq);
       let reference := narrow 0 tgt_idx data in
       let hm_prediction := linearMatch prediction reference in
       let md := tadd md (tabs (tsub hm_prediction reference)) in
       let psnr := torch_PSNR reference hm_prediction in
       t ← get_psnr;
       t' ← lift (Report.table_append t src_seq tgt_seq psnr);
       set_psnr (Some t');;
       mret md
     else mret md);
  match ofile with
  | Some ofile =>
      ext (Makedirs (OsPath.join ofile "normalized_source_images"));;
      r ← (if Nat.eqb tgt_seq 0
           then submit r (ExportJob (narrow 0 src_idx data) props
                            (path3 ofile "normalized_source_images"
                               ("norm_src_" ++ pretty src_seq))
                            save_probabilities false)
           else mret r);
      ext (Makedirs (OsPath.join ofile "one2one_inference"));;
      r ← submit r (ExportJob prediction props
                      (path3 ofile "one2one_inference"
                         ("translate_src_" ++ pretty src_seq ++ "_to_tgt_" ++ pretty tgt_seq))
                      save_probabilities false);
      r ← submit r (ExportJob prediction_mask props
                      (path3 ofile "one2one_inference" ("segment_src_" ++ pretty src_seq))
                      save_probabilities false);
      ext (Makedirs (OsPath.join ofile "latent_space"));;
      r ← submit r (ExportJob prediction_latent props
                      (path3 ofile "latent_space" ("latent_space_src_" ++ pretty src_seq))
                      save_probabilities true);
      if Nat.eqb src_idx (length available - 1)
      then
        ext (Makedirs (OsPath.join ofile
                         "explainability_visualization/imaging_differentiation_map"));;
        let md := tdiv_int md (length available) in
        r ← (if contains available tgt_seq
             then submit r (ExportJob md props
                              (path3 ofile
                                 "explainability_visualization/imaging_differentiation_map"
                                 ("imaging_differentiation_map_tgt_" ++ pretty tgt_seq))
                              save_probabilities false)
             else mret r);
        mret (r, md)
      else mret (r, md)
  | None =>
      r ← submit r (ConvertJob prediction props save_probabilities);
      mret (r, md)
  end.

(** Lines 391-510: one target sequence of one case. *)
Definition sweep_target (self : predictor) (save_probabilities : bool)
    (data : tensor) (ofile : option string) (props : properties)
    (r : list job) (tgt_seq : nat) : M (list job) :=
  tgt_code ← lift (Codes.one_hot tgt_seq (num_channel props));
  plain ← call_predict_logits_from_preprocessed_data self
             (Some data) (Some tgt_code) (Some (Some props)) (Some false);
  finetune ← call_predict_logits_from_preprocessed_data self
                (Some data) (Some tgt_code) (Some (Some props)) (Some true);
  let tsf_prediction := fst (fst plain) in
  let tsf_prediction_finetune := fst (fst finetune) in
  let tsf_prediction_mask_finetune := argmax0 (snd (fst finetune)) in
  let tsem := tabs (tsub tsf_prediction_finetune tsf_prediction) in
  dir ← lift (OsPath.fspath ofile);
  ext (Makedirs (OsPath.join dir "multi2one_inference"));;
  r ← submit r (ExportJob tsf_prediction_finetune props
                  (path3 dir "multi2one_inference" ("translate_tgt_" ++ pretty tgt_seq))
                  save_probabilities false);
  r ← submit r (ExportJob tsf_prediction_mask_finetune props
                  (path3 dir "multi2one_inference" "segment")
                  save_probabilities false);
  ext (Makedirs (OsPath.join dir "explainability_visualization/task-specific_enhanced_map"));;
  r ← submit r (ExportJob tsem props
                  (path3 dir "explainability_visualization/task-specific_enhanced_map"
                     ("task-specific_enhanced_map_tgt_" ++ pretty tgt_seq))
                  save_probabilities false);
  let md := zeros_like (narrow 0 0 data) in
  st ← for_eachM (imap (fun i s => (i, s)) (available_channel props)) (r, md)
          (sweep_source self save_probabilities data ofile props tgt_seq tgt_code);
  mret (fst st).

(** Lines 367-510: one record of the iterator. The state is the job list
    and the local [ofile], unbound ([None]) before the first record. *)
Definition sweep_case (self : predictor) (save_probabilities : bool)
    (st : list job * option (option string)) (rec : preprocessed)
  : M (list job * option (option string)) :=
  data ← match data rec with
         | inl t => mret t
         | inr file => ext (LoadAndRemove file);; mret (np_load file)
         end;
  ext PoolWait;;
  r ← for_eachM (range (num_channel (data_properties rec))) (fst st)
         (sweep_target self save_probabilities data (ofile rec) (data_properties rec));
  mret (r, Some (ofile rec)).

(** Line 511: [[i.get()[0] for i in r]]. *)
Definition collect (r : list job) : M (list exported) :=
  for_eachM r [] (fun ret j => ext (Get j);; mret (ret ++ [job_result j])).

(** Lines 516-540: the report, written next to the last [ofile]. *)
Definition write_contribution_report (self : predictor)
    (last_ofile : option (option string)) : M unit :=
  t ← get_psnr;
  rows ← lift (Report.synthesis_based_sequence_contribution (tsf_num_channel self) t);
  ofile ← match last_ofile with
          | None => raise UnboundLocalError
          | Some ofile => lift (OsPath.fspath ofile)
          end;
  ext (WriteCsv (OsPath.join (OsPath.dirname ofile)
                   "synthesis-based_sequence_contribution.csv") rows).

(** [multithreaded] tells whether the iterator is a
    [MultiThreadedAugmenter]. The teardown of the pool when the [with]
    block is left has no effect on what the function computes and is left
    out. *)
Definition predict_from_data_iterator (self : predictor)
    (data_iterator : list preprocessed) (multithreaded : bool)
    (save_probabilities : bool) (num_processes_segmentation_export : nat)
  : M (list exported) :=
  ext (PoolOpen num_processes_segmentation_export);;
  st ← for_eachM data_iterator ([], None) (sweep_case self save_probabilities);
  ret ← collect (fst st);
  (if multithreaded then ext FinishIterator else mret tt);;
  write_contribution_report self (snd st);;
  ext GaussianCacheClear;;
  ext (EmptyCache (self_device self));;
  mret ret.

(** *** The entry points that build the iterator *)

(** Lines 338-354; a single image, segmentation, property dict or output
    name is wrapped into a list by [get_data_iterator_from_raw_npy_data]. *)
Definition predict_from_list_of_npy_arrays (self : predictor)
    (images : list raw_image) (segs_from_prev_stage : option (list raw_image))
    (props : list raw_properties) (truncated_ofname : option (list string))
    (save_probabilities : bool) (num_processes_segmentation_export : nat)
  : M (list exported) :=
  predict_from_data_iterator self
    (preprocessing_iterator_fromnpy images segs_from_prev_stage props truncated_ofname)
    iterator_is_multithreaded save_probabilities num_processes_segmentation_export.

(** Lines 226-250: the bookkeeping [predict_from_files] does when there is
    an output folder. This is the one place that creates
    [self.one2one_translate_psnr]. *)
Definition record_run (self : predictor) (output_folder : string) : M unit :=
  let N := tsf_num_channel self in
  ext (Makedirs output_folder);;
  ext (SaveJson (OsPath.join output_folder "predict_from_raw_data_args.json"));;
  ext (SaveJson (OsPath.join output_folder "dataset.json"));;
  ext (SaveJson (OsPath.join output_folder "plans.json"));;
  set_psnr (Some (Report.empty_table N));;
  ts_w ← for_eachM (range N) [] (fun ts_w tgt_id =>
    let tgt_code := Codes.files_tgt_code N tgt_id in
    p ← get_loaded;
    ext (InferContribution tgt_code);;
    mret (ts_w ++ [(Some tgt_id, infer_contribution p tgt_code)]));
  let seg_code := Codes.files_seg_code N in
  p ← get_loaded;
  ext (InferContribution seg_code);;
  let ts_w := ts_w ++ [(None, infer_contribution p seg_code)] in
  ext (WriteContributionCsv
         (OsPath.join output_folder "task-specific_sequence_contribution.csv") ts_w).

(** Lines 203-274; [isfile] and [create_lists] are the file system at the
    time of the call. The result is [None] when no case is left. *)
Definition predict_from_files (self : predictor)
    (isfile : string → bool) (create_lists : string → string → list (list string))
    (list_of_lists_or_source_folder : Lists.source_spec)
    (output_folder_or_list_of_truncated_output_files : Lists.output_spec)
    (save_probabilities overwrite : bool)
    (num_processes_segmentation_export : nat)
    (folder_with_segs_from_prev_stage : option string)
    (num_parts part_id : nat)
  : M (option (list exported)) :=
  output_folder ←
    match output_folder_or_list_of_truncated_output_files with
    | Lists.OutputFolder folder => mret (Some folder)
    | Lists.OutputList prefixes =>
        first ← lift (index prefixes 0);
        mret (Some (OsPath.dirname first))
    | Lists.OutputNone => mret None
    end;
  match output_folder with
  | Some folder => record_run self folder
  | None => mret tt
  end;;
  match previous_stage_name self with
  | Some _ => lift (assert (bool_decide (is_Some folder_with_segs_from_prev_stage)))
  | None => mret tt
  end;;
  lists ← lift (Lists._manage_input_and_output_lists isfile create_lists (file_ending self)
                  list_of_lists_or_source_folder
                  output_folder_or_list_of_truncated_output_files
                  folder_with_segs_from_prev_stage overwrite part_id num_parts
                  save_probabilities);
  let '(list_of_lists, output_filename_truncated, seg_from_prev_stage_files) := lists in
  if Nat.eqb (length list_of_lists) 0
  then mret None
  else
    ret ← predict_from_data_iterator self
             (preprocessing_iterator_fromfiles list_of_lists seg_from_prev_stage_files
                output_filename_truncated)
             iterator_is_multithreaded save_probabilities num_processes_segmentation_export;
    mret (Some ret).

End Sweep.

(** ** An executable instance

    A line of voxels: a tensor is its rank and the list of its values, all
    dimensions but the last of extent one. Values are half-precision numbers
    without fraction; a magnitude above 65504 overflows to infinity. The
    network and the utilities are small stand-ins that compute. *)

Module Toy.

Inductive half : Type :=
| Fin (z : Z)
| Inf
| NaN.

Definition round (z : Z) : half := if Z.abs z >? 65504 then Inf else Fin z.

Definition hadd (a b : half) : half :=
  match a, b with
  | Fin x, Fin y => round (x + y)
  | NaN, _ | _, NaN => NaN
  | _, _ => Inf
  end.

Definition hsub (a b : half) : half :=
  match a, b with
  | Fin x, Fin y => round (x - y)
  | Inf, Inf => NaN
  | NaN, _ | _, NaN => NaN
  | _, _ => Inf
  end.

Definition hmul (a b : half) : half :=
  match a, b with
  | Fin x, Fin y => round (x * y)
  | NaN, _ | _, NaN => NaN
  | _, _ => Inf
  end.

Definition hdiv (a b : half) : half :=
  match a, b with
  | Fin x, Fin y => if y =? 0 then (if x =? 0 then NaN else Inf) else round (x / y)
  | Inf, Fin _ => Inf
  | Fin _, Inf => Fin 0
  | _, _ => NaN
  end.

Definition habs (a : half) : half :=
  match a with Fin x => Fin (Z.abs x) | other => other end.

Definition is_inf (a : half) : bool :=
  match a with Inf => true | _ => false end.

Record line := { rank : nat; vals : list half }.

Definition pointwise (f : half → half → half) (a b : line) : line :=
  {| rank := rank a; vals := zip_with f (vals a) (vals b) |}.

Definition on_vals (f : list half → list half) (a : line) : line :=
  {| rank := rank a; vals := f (vals a) |}.

(** The extent a slicer selects on the line: its last entry. *)
Definition span (sl : slicer) (n : nat) : nat * nat :=
  match last sl with
  | Some (Range a b) => (a, b)
  | _ => (0%nat, n)
  end.

Definition add_at (f : half → half) (sl : slicer) (acc : line) : line :=
  let '(a, b) := span sl (length (vals acc)) in
  on_vals (imap (fun i v => if (a <=? i)%nat && (i <? b)%nat then f v else v)) acc.

#[export] Instance tensors : TensorLib := {|
  tensor := line;
  ndim := rank;
  shape := fun t => replicate (rank t - 1) 1%nat ++ [length (vals t)];
  zeros := fun sh => {| rank := length sh; vals := replicate (foldr Nat.mul 1%nat sh) (Fin 0) |};
  zeros_like := on_vals (fmap (fun _ => Fin 0));
  narrow := fun dim i t => if Nat.eqb i 0 then t else on_vals (fun _ => []) t;
  cat := fun dim ts => {| rank := default 0%nat (rank <$> head ts); vals := ts ≫= vals |};
  channels_to_batch := fun t => t;
  batch_to_channels := fun _ t => t;
  flip := fun axes t => if existsb (Nat.eqb (rank t - 1)) axes then on_vals (@rev half) t else t;
  tadd := pointwise hadd;
  tsub := pointwise hsub;
  tmul := pointwise hmul;
  tdiv := pointwise hdiv;
  tdiv_int := fun t n => on_vals (fmap (fun v => hdiv v (Fin (Z.of_nat n)))) t;
  tabs := on_vals (fmap habs);
  argmax0 := on_vals (fmap (fun _ => Fin 0));
  any_isinf := fun t => existsb is_inf (vals t);
  upsample4 := fun t => t;
  downsample4 := fun t => t;
  unsqueeze0 := fun t => {| rank := S (rank t); vals := vals t |};
  select0 := fun t => {| rank := rank t - 1; vals := vals t |};
  slice_get := fun sl t =>
    let '(a, b) := span sl (length (vals t)) in on_vals (fun v => take (b - a) (drop a v)) t;
  slice_add := fun sl acc v =>
    let '(a, b) := span sl (length (vals acc)) in
    on_vals (imap (fun i x => if (a <=? i)%nat && (i <? b)%nat
                              then hadd x (default (Fin 0) (vals v !! (i - a)%nat)) else x)) acc;
  slice_incr := add_at (fun x => hadd x (Fin 1));
|}.

(** Integer stand-ins for numpy's scalars. *)
#[export] Instance scalars : Scalar := {|
  num := Z;
  num_of_Z := fun z => z;
  nadd := Z.add;
  nsub := Z.sub;
  ndiv := Z.div;
  np_nanmean := fun l => foldr Z.add 0 l / Z.of_nat (length l);
  np_nanstd := fun l =>
    let mean := foldr Z.add 0 l / Z.of_nat (length l) in
    Z.sqrt (foldr Z.add 0 ((fun x => (x - mean) * (x - mean)) <$> l) / Z.of_nat (length l));
|}.

(** A network whose state dict is one integer [p]: the prediction at
    position [i] is [p * x_i + 2 * i], so it does not commute with a flip. *)
Definition ramp (p : Z) (x : line) : line :=
  on_vals (imap (fun i v => hadd (hmul (Fin p) v) (Fin (2 * Z.of_nat i)))) x.

#[export] Instance network : Network := {|
  weights := Z;
  forward := fun p x _ => (ramp p x, x);
  segmentor := fun p l => on_vals (fmap (hmul (Fin 2))) l;
  image_encoder := fun p t => t;
  tsf := fun p l _ => (l, ramp 1 l);
  hyper_decoder := fun p l _ => ramp p l;
  contribution := list Z;
  infer_contribution := fun p code => code;
|}.

Definition hval (a : half) : Z := match a with Fin z => z | _ => 0 end.

(** The tile offsets along one axis: the start and, when the image is
    longer than the patch, the last full tile. *)
Definition axis_steps (size patch : nat) : list nat :=
  if (patch <? size)%nat then [0%nat; (size - patch)%nat] else [0%nat].

Definition record_for (ofile : option string) : preprocessed :=
  {| data := inl {| rank := 4; vals := [Fin 1; Fin 2; Fin 3; Fin 4] |};
     ofile := ofile;
     data_properties := {| num_channel := 1; available_channel := [0%nat] |} |}.

#[export] Instance toolkit : Toolkit := {|
  compute_gaussian := fun patch => {| rank := length patch;
                                      vals := replicate (foldr Nat.mul 1%nat patch) (Fin 10) |};
  tile_step := unit;
  compute_steps_for_sliding_window := fun size patch _ =>
    Ok ((fun sp => axis_steps (fst sp) (snd sp)) <$> zip size patch);
  pad_nd_image := fun t patch => (t, (fun n => Range 0 n) <$> shape t);
  np_load := fun _ => {| rank := 4; vals := [] |};
  linearMatch := fun prediction reference => prediction;
  torch_PSNR := fun reference prediction =>
    40 - foldr Z.add 0 (hval <$> vals (tabs (tsub reference prediction)));
  exported := string;
  export_prediction_from_logits := fun _ _ ofile _ _ => ofile;
  convert_predicted_logits_to_segmentation_with_correct_shape := fun _ _ _ => "segmentation";
  raw_image := line;
  raw_properties := properties;
  preprocess_npy := fun image _ props => (image, props);
  preprocessing_iterator_fromfiles := fun cases _ outputs =>
    match outputs with
    | Some outputs => (fun o => record_for (Some o)) <$> outputs
    | None => (fun _ => record_for None) <$> cases
    end;
  preprocessing_iterator_fromnpy := fun images _ _ outputs =>
    match outputs with
    | Some outputs => (fun o => record_for (Some o)) <$> outputs
    | None => (fun _ => record_for None) <$> images
    end;
  iterator_is_multithreaded := false;
|}.

(** A predictor on the accelerator that keeps its results there: one fold,
    patches of four voxels on volumes of extent [1 x 1 x n], mirroring
    along the last two axes. *)
Definition on_device : predictor := {|
  tile_step_size := tt;
  use_gaussian := true;
  use_mirroring := true;
  perform_everything_on_device := true;
  self_device := Cuda;
  allowed_mirroring_axes := Some [1%nat; 2%nat];
  list_of_parameters := [3];
  patch_size := [1%nat; 1%nat; 4%nat];
  previous_stage_name := None;
  num_segmentation_heads := 1;
  tsf_num_channel := 1;
  latent_dim := 1;
  file_ending := ".nii.gz";
|}.

(** A world in which the call made at time [n] fails as [plan n] says. *)
Definition world_with (plan : nat → option exn) (attr : option Report.table) : world :=
  {| clock := 0; faults := plan; trace := []; loaded := 1; psnr := attr;
     tile_outputs_bound := false |}.

Definition no_fault : nat → option exn := fun _ => None.

(** The failure [e] at time [n], and none else. *)
Definition fault_at (n : nat) (e : exn) : nat → option exn :=
  fun k => if Nat.eqb k n then Some e else None.

Definition volume (l : list Z) : line := {| rank := 4; vals := Fin <$> l |}.
Definition tile (l : list Z) : line := {| rank := 5; vals := Fin <$> l |}.

End Toy.

(** ** Notions the properties are stated with *)

Section ReportNotions.
Import Report.
Open Scope R_scope.

(** The observations of source [i] and target [j]. *)
Definition observations (t : list (list (list R))) (i j : nat) : list R :=
  default [] (t !! i ≫= (.!! j)).


End ReportNotions.

Section RunNotions.
Context `{TL : TensorLib} `{SC : Scalar} `{NW : !Network} `{TK : !Toolkit}.

(** [m] returns [v] after the calls [evs], in every quiet world whose
    loaded state dict is [p]. *)
Definition returns {A} (p : weights) (m : M A) (v : A) (evs : list event) : Prop :=
  ∀ w, quiet w → loaded w = p → m w = (Ok v, after w evs).

(** The selections of size [0 .. n] of a list, counted. *)
Fixpoint count_upto {A} (l : list A) (n : nat) : nat :=
  match n with
  | O => length (combinations l 0)
  | S n' => (count_upto l n' + length (combinations l n))%nat
  end.

(** The calls one pass makes. *)
Definition pass_events (p : weights) (target_code : list Z) (with_attn : bool)
    (inp : tile_input) : list event :=
  match inp with
  | Bare x => [Forward x target_code; Segmentor (snd (forward p x target_code))]
  | Fused b d tc sc =>
      let latent := batch_to_channels b (image_encoder p d) in
      [Encoder d; Fusion latent tc; Fusion latent sc;
       Decoder (if with_attn then snd (tsf p latent tc) else fst (tsf p latent tc)) target_code;
       Segmentor (if with_attn then snd (tsf p latent sc) else fst (tsf p latent sc))]
  end.

(** The input of the first pass (lines 673-687). *)
Definition tile_input_of (self : predictor) (x : tensor) (target_code : list Z)
    (props : option properties) : res tile_input :=
  match props with
  | None => Ok (Bare x)
  | Some props =>
      tsf_data ← scatter_channels props x;
      Ok (Fused (default 0%nat (shape x !! 0%nat)) tsf_data
            (Codes.tsf_tgt_code (num_channel props) (available_channel props) target_code)
            (Codes.tsf_seg_code (num_channel props) (available_channel props) target_code))
  end.

(** The tensor a pass feeds the network with. *)
Definition input_of (inp : tile_input) : tensor :=
  match inp with Bare x => x | Fused _ d _ _ => d end.

(** The inputs of the forward passes among the calls [evs]: of the bare
    network on the simple path, of the shared encoder on the fusion path. *)
Definition forward_inputs (evs : list event) : list tensor :=
  omap (fun e => match e with
                 | Forward x _ => Some x
                 | Encoder x => Some x
                 | _ => None
                 end) evs.

(** The left-to-right sum of a non-empty list of tensors. *)
Definition total (l : list tensor) : tensor :=
  match l with
  | [] => zeros []
  | a :: l' => fold_left tadd l' a
  end.

(** [m] raises in every world. *)
Definition fails {A} (m : M A) : Prop := ∀ w, is_ok (fst (m w)) = false.

(** The world [w] with the attribute set to [t], or removed. *)
Definition with_psnr (t : option Report.table) (w : world) : world :=
  {| clock := clock w; faults := faults w; trace := trace w; loaded := loaded w;
     psnr := t; tile_outputs_bound := tile_outputs_bound w |}.

(** [m] neither reads nor writes the attribute. *)
Definition blind {A} (m : M A) : Prop :=
  ∀ w t, m (with_psnr t w) = (fst (m w), with_psnr t (snd (m w))).

(** Two runs from worlds that differ in the attribute only, one with the
    table and one without: either the run without the attribute has raised
    [AttributeError], or both have done the same and their worlds still
    differ in the attribute only. *)
Definition lockstep {A} (m : M A) : Prop :=
  ∀ w t,
    (fst (m (with_psnr None w)) = Raise AttributeError
     ∧ psnr (snd (m (with_psnr None w))) = None)
    ∨ ∃ r w' t', m (with_psnr (Some t) w) = (r, with_psnr (Some t') w')
                 ∧ m (with_psnr None w) = (r, with_psnr None w').

(** A computation that cannot go past the missing attribute: without it, it
    raises [AttributeError], or it raises what the run with the attribute
    raises as well. *)
Definition blocked {A} (m : M A) : Prop :=
  ∀ w t,
    fst (m (with_psnr None w)) = Raise AttributeError
    ∨ ∃ e, fst (m (with_psnr None w)) = Raise e
           ∧ fst (m (with_psnr (Some t) w)) = Raise e.

(** The world [w] with the binding flag of the tile outputs set to [b]. *)
Definition with_bound (b : bool) (w : world) : world :=
  {| clock := clock w; faults := faults w; trace := trace w; loaded := loaded w;
     psnr := psnr w; tile_outputs_bound := b |}.

(** The devices the image was moved to: one entry per execution of the
    sliding window. *)
Definition executions (evs : list event) : list device :=
  omap (fun e => match e with MoveImage d _ => Some d | _ => None end) evs.

End RunNotions.

(** ** Fixtures *)

(** Three cases of two channels each, and a file system that holds the label
    file of the second. *)
Definition three_cases : list (list string) :=
  [["in/a_0000.nii.gz"; "in/a_0001.nii.gz"];
   ["in/b_0000.nii.gz"; "in/b_0001.nii.gz"];
   ["in/c_0000.nii.gz"; "in/c_0001.nii.gz"]]%string.

Definition only_b_label (f : string) : bool := String.eqb f "out/b.nii.gz".

(** Two channels: channel 0 is translated to channel 1 at 30 dB and to itself
    at 34 dB; channel 1 was never a source. *)
Definition psnr_fixture : list (list (list R)) :=
  [[[34%R]; [30%R]]; [[]; []]].

(** A volume whose third voxel makes the weighted sum of its tile overflow
    half precision. *)
Definition hot_volume : Toy.line := Toy.volume [1; 2; 7000; 4; 5; 6].

Definition hot_slicers : list slicer :=
  [[All; Range 0 1; Range 0 1; Range 0 4]; [All; Range 0 1; Range 0 1; Range 2 6]].

(** ** More of the predictor: construction and the entry points *)

(** *** [int(s)] on an ASCII string *)

Module PyInt.

(** The ASCII characters [str.isspace] accepts. *)
Definition is_space (c : ascii) : bool :=
  let n := nat_of_ascii c in
  ((9 <=? n) && (n <=? 13) || (28 <=? n) && (n <=? 32))%nat.

Definition digit (c : ascii) : option Z :=
  let n := nat_of_ascii c in
  if ((48 <=? n) && (n <=? 57))%nat then Some (Z.of_nat (n - 48)) else None.

Fixpoint lstrip (s : list ascii) : list ascii :=
  match s with
  | c :: r => if is_space c then lstrip r else s
  | [] => []
  end.

Definition strip (s : list ascii) : list ascii := rev (lstrip (rev (lstrip s))).

(** The digits of a literal, most significant first; an underscore may
    stand between two digits. [after_digit] tells whether the character
    before was a digit. *)
Fixpoint digits (acc : Z) (after_digit : bool) (s : list ascii) : option Z :=
  match s with
  | [] => if after_digit then Some acc else None
  | c :: r =>
      match digit c with
      | Some d => digits (10 * acc + d) true r
      | None =>
          if Ascii.eqb c "_" && after_digit
          then match r with
               | [] => None
               | _ => digits acc false r
               end
          else None
      end
  end.

(** [int(s)] for a string [s] of ASCII characters: surrounding white space,
    an optional sign, decimal digits; anything else is a [ValueError]. On
    other strings Python's [int] also takes the decimal digits and the white
    space of other scripts, which this function does not describe. *)
Definition int (s : string) : res Z :=
  let body := strip (list_ascii_of_string s) in
  let '(sign, body) :=
    match body with
    | c :: r => if Ascii.eqb c "-" then (-1, r) else if Ascii.eqb c "+" then (1, r) else (1, body)
    | [] => (1, body)
    end in
  match digits 0 false body with
  | Some n => Ok (sign * n)
  | None => Raise ValueError
  end.



End PyInt.

(** *** The constructor and the initialization (lines 43-151) *)

Section Construction.
Context `{TL : TensorLib} `{SC : Scalar} `{NW : !Network} `{TK : !Toolkit}.

(** What [nnSeq2SeqPredictor.__init__] stores; the model bundle is [None]
    until one of the two initializations runs. *)
Record constructed := {
  c_tile_step_size : tile_step;
  c_use_gaussian : bool;
  c_use_mirroring : bool;
  c_perform_everything_on_device : bool;
  c_device : device;
}.

(** Lines 43-69: on a device other than cuda, keeping the results on the
    device is switched off. *)
Definition nnSeq2SeqPredictor__init__ (tile_step_size : tile_step)
    (use_gaussian use_mirroring perform_everything_on_device : bool) (dev : device)
  : constructed :=
  {| c_tile_step_size := tile_step_size;
     c_use_gaussian := use_gaussian;
     c_use_mirroring := use_mirroring;
     c_perform_everything_on_device :=
       match dev with
       | Cuda => perform_everything_on_device
       | _ => false
       end;
     c_device := dev |}.

(** The model bundle an initialization installs, as far as inference reads
    it. *)
Record bundle := {
  b_parameters : list weights;
  b_patch_size : list nat;
  b_previous_stage_name : option string;
  b_num_segmentation_heads : nat;
  b_tsf_num_channel : nat;
  b_latent_dim : nat;
  b_file_ending : string;
  b_allowed_mirroring_axes : option (list nat);
}.

(** The attributes of the object once the bundle is installed (lines 115-122
    and 135-142). *)
Definition install (c : constructed) (b : bundle) : predictor :=
  {| tile_step_size := c_tile_step_size c;
     use_gaussian := c_use_gaussian c;
     use_mirroring := c_use_mirroring c;
     perform_everything_on_device := c_perform_everything_on_device c;
     self_device := c_device c;
     allowed_mirroring_axes := b_allowed_mirroring_axes b;
     list_of_parameters := b_parameters b;
     patch_size := b_patch_size b;
     previous_stage_name := b_previous_stage_name b;
     num_segmentation_heads := b_num_segmentation_heads b;
     tsf_num_channel := b_tsf_num_channel b;
     latent_dim := b_latent_dim b;
     file_ending := b_file_ending b |}.

End Construction.

(** ** Notions for the case lists *)

(** The identifier the list management derives from the first file of a
    case (line 175), for a case that has one. *)
Definition caseid_of (file_ending : string) (case : list string) : string :=
  Lists.drop_last (String.length file_ending + 5)
    (OsPath.basename (default EmptyString (head case))).

(** A string without a path separator. *)
Fixpoint no_sep (s : string) : bool :=
  match s with
  | EmptyString => true
  | String c r => negb (Ascii.eqb c OsPath.sep) && no_sep r
  end.

(** The file [dir/<id><suffix><ending>] of a case; the dataset convention
    has the suffix [_0000], [_0001], ... of five characters. *)
Definition case_file (dir id suffix file_ending : string) : string :=
  (dir ++ String OsPath.sep (id ++ suffix ++ file_ending))%string.

Definition two_shards : list (list string) :=
  [["in/a_0000.nii.gz"]; ["in/b_0000.nii.gz"]; ["in/c_0000.nii.gz"];
   ["in/d_0000.nii.gz"]; ["in/e_0000.nii.gz"]]%string.

(** ** Predictors over the toy instance *)

(** The bundle of the toy model: one fold, patches of four voxels on volumes
    of extent [1 x 1 x n], mirroring allowed along the last two axes. *)
Definition toy_bundle_with (folds : list Z) (axes : option (list nat))
  : bundle (TL := Toy.tensors) (NW := Toy.network) :=
  @Build_bundle Toy.tensors Toy.network folds [1%nat; 1%nat; 4%nat] None 1 1 1 ".nii.gz" axes.

Definition toy_bundle : bundle (TL := Toy.tensors) (NW := Toy.network) :=
  toy_bundle_with [3] (Some [1%nat; 2%nat]).

(** The same model with two-dimensional patches. *)
Definition toy_slice_bundle : bundle (TL := Toy.tensors) (NW := Toy.network) :=
  @Build_bundle Toy.tensors Toy.network [3] [1%nat; 4%nat] None 1 1 1 ".nii.gz"
    (Some [1%nat]).

(** A predictor constructed with the given switches and initialized with a
    bundle. *)
Definition toy_predictor (use_mirroring perform_everything_on_device : bool) (dev : device)
    (b : bundle (TL := Toy.tensors) (NW := Toy.network))
  : predictor (TL := Toy.tensors) (SC := Toy.scalars) (NW := Toy.network) (TK := Toy.toolkit) :=
  install (TK := Toy.toolkit)
    (nnSeq2SeqPredictor__init__ (TL := Toy.tensors) (SC := Toy.scalars) (TK := Toy.toolkit)
       tt true use_mirroring perform_everything_on_device dev) b.

(** The toy model as the second stage of a cascade. *)
Definition toy_cascade_bundle : bundle (TL := Toy.tensors) (NW := Toy.network) :=
  @Build_bundle Toy.tensors Toy.network [3] [1%nat; 1%nat; 4%nat] (Some "3d_lowres"%string)
    1 1 1 ".nii.gz" None.

(** ** Notions for the encoder's constructor and its forward pass *)

Section EncoderNotions.
Variable float : Type.

(** The stage tuples the constructor iterates over. *)
Definition stage_tuples (a : Encoder.args float) : list (Z * Z * Z * Z * Z * Z) :=
  Encoder.zip6 (Encoder.conv_channels _ a) (Encoder.conv_kernel _ a)
    (Encoder.conv_stride _ a) (Encoder.resblock_n _ a) (Encoder.resblock_kernel _ a)
    (Encoder.resblock_padding _ a).

Definition t_ce (t : Z * Z * Z * Z * Z * Z) : Z := let '(ce, _, _, _, _, _) := t in ce.
Definition t_se (t : Z * Z * Z * Z * Z * Z) : Z := let '(_, _, se, _, _, _) := t in se.
Definition t_nr (t : Z * Z * Z * Z * Z * Z) : Z := let '(_, _, _, nr, _, _) := t in nr.
Definition t_kr (t : Z * Z * Z * Z * Z * Z) : Z := let '(_, _, _, _, kr, _) := t in kr.
Definition t_pr (t : Z * Z * Z * Z * Z * Z) : Z := let '(_, _, _, _, _, pr) := t in pr.

(** The product of a list of strides. *)
Definition stride_product (ss : list Z) : Z := fold_right Z.mul 1 ss.

(** The number of channels that enter stage [i]: the input channels for the
    first stage, the output channels of the stage before for the others. *)
Definition channels_before (c_in : Z) (ts : list (Z * Z * Z * Z * Z * Z)) (i : nat) : Z :=
  match i with
  | O => c_in
  | S i' => default 0 (t_ce <$> ts !! i')
  end.

(** The down-sampling of stage [i] relative to the output of the first
    stage: the product of the strides of the stages [1 .. i]. *)
Definition scale_after_first (ts : list (Z * Z * Z * Z * Z * Z)) (i : nat) : Z :=
  stride_product (t_se <$> take i (drop 1 ts)).

(** [forward], line 72: [torch.cat(features, dim=1)] adds up the channels
    of the features, each the output of the first module of an up layer. *)
Definition feature_channels (up : Encoder.module float) : option Z :=
  match up with
  | Encoder.Sequential (c :: _) => Encoder.conv_out c
  | _ => None
  end.

Definition concatenated_channels (enc : Encoder.ImageEncoder float) : option Z :=
  foldr (fun up acc => c ← feature_channels up; n ← acc; Some (c + n)) (Some 0)
    (Encoder.up_layers _ enc).

(** The up layer of a stage of [ce] channels at the scale [s] (lines
    48-58). *)
Definition up_layer (ce uc s : Z) : Encoder.module float :=
  if s =? 1
  then Encoder.Sequential [Encoder.Conv3d ce uc 1 0 1; Encoder.LayerNorm uc]
  else Encoder.Sequential [Encoder.Conv3d ce uc 1 0 1; Encoder.LayerNorm uc; Encoder.Upsample s].

(** The down block of the stage at position [i] that [cb] channels enter
    (lines 31-44). *)
Definition down_block (lsv : float) (cb : Z) (i : nat) (t : Z * Z * Z * Z * Z * Z)
  : list (Encoder.module float) :=
  match i with
  | O => [Encoder.Conv3d cb (t_ce t) (t_se t) 0 (t_se t)]
         ++ (if t_nr t =? 0 then [] else [Encoder.LayerNorm (t_ce t)])
         ++ [Encoder.AttnResBlock _ (t_ce t) (t_nr t) (t_kr t) (t_pr t) lsv true]
  | S _ => [Encoder.LayerNorm cb; Encoder.Conv3d cb (t_ce t) (t_se t) 0 (t_se t);
            Encoder.AttnResBlock _ (t_ce t) (t_nr t) (t_kr t) (t_pr t) lsv true]
  end.

(** The arguments [a] with another [conv_kernel] entry. *)
Definition with_conv_kernel (a : Encoder.args float) (ke : list Z) : Encoder.args float :=
  {| Encoder.in_channels := Encoder.in_channels _ a;
     Encoder.conv_channels := Encoder.conv_channels _ a;
     Encoder.conv_kernel := ke;
     Encoder.conv_stride := Encoder.conv_stride _ a;
     Encoder.resblock_n := Encoder.resblock_n _ a;
     Encoder.resblock_kernel := Encoder.resblock_kernel _ a;
     Encoder.resblock_padding := Encoder.resblock_padding _ a;
     Encoder.layer_scale_init_value := Encoder.layer_scale_init_value _ a;
     Encoder.latent_space_dim := Encoder.latent_space_dim _ a;
     Encoder.vq_beta := Encoder.vq_beta _ a;
     Encoder.vq_n_embed := Encoder.vq_n_embed _ a |}.

(** The object [ImageEncoder(args)] leaves behind: the attributes of lines
    13-23 ([c_in], [c_enc], [k_enc], ... [vq_n_embed]), which hold the
    entries of [args] as they were passed, and the modules built from
    them. *)
Record encoder_object := {
  attributes : Encoder.args float;
  modules : Encoder.ImageEncoder float;
}.

(** The constructor with what it stores: the attributes are assigned first,
    so they are lost with the object when the constructor raises. *)
Definition construct (a : Encoder.args float) : res encoder_object :=
  built ← Encoder.init a;
  Ok {| attributes := a; modules := built |}.

End EncoderNotions.

Arguments stage_tuples {float}.
Arguments feature_channels {float}.
Arguments concatenated_channels {float}.
Arguments with_conv_kernel {float}.
Arguments encoder_object : clear implicits.
Arguments attributes {float}.
Arguments modules {float}.
Arguments construct {float}.
Arguments up_layer {float}.
Arguments down_block {float}.

(** Three stages of 16, 32 and 64 channels with strides 2, 2 and 1. *)
Definition three_stage_args : Encoder.args unit :=
  {| Encoder.in_channels := 1; Encoder.conv_channels := [16; 32; 64];
     Encoder.conv_kernel := [7; 3; 3]; Encoder.conv_stride := [2; 2; 1];
     Encoder.resblock_n := [0; 2; 2]; Encoder.resblock_kernel := [3; 3; 3];
     Encoder.resblock_padding := [1; 1; 1];
     Encoder.layer_scale_init_value := tt; Encoder.latent_space_dim := 8;
     Encoder.vq_beta := tt; Encoder.vq_n_embed := 512 |}.

(** ** Notions for runs that raise *)

Section RaiseNotions.
Context `{TL : TensorLib} `{SC : Scalar} `{NW : !Network} `{TK : !Toolkit}.

(** [m] raises [e] after the calls [evs], in every quiet world whose
    loaded state dict is [p]. *)
Definition throws {A} (p : weights) (m : M A) (e : exn) (evs : list event) : Prop :=
  ∀ w, quiet w → loaded w = p → m w = (Raise e, after w evs).

(** The call a tile makes before its first pass: on the fusion path the
    scattered channels are moved to the device. *)
Definition staging_events (self : predictor) (props : option properties) (inp : tile_input)
  : list event :=
  match props with
  | None => []
  | Some _ => [MoveTo (self_device self) (input_of inp)]
  end.

(** [m] does not move an image to a results device. *)
Definition silent {A} (m : M A) : Prop :=
  ∀ w, executions (trace (snd (m w))) = executions (trace w).

(** [m] moves an image to the device [d] at most once, and to no other. *)
Definition moves_once {A} (d : device) (m : M A) : Prop :=
  ∀ w, ∃ l, executions (trace (snd (m w))) = executions (trace w) ++ l
            ∧ (l = [] ∨ l = [d]).

End RaiseNotions.

(** ** Notions for the fold ensemble *)

Section EnsembleNotions.
Context `{TL : TensorLib} `{SC : Scalar} `{NW : !Network} `{TK : !Toolkit}.



End EnsembleNotions.

(** ** Notions for the bookkeeping of [predict_from_files] *)

Section BookkeepingNotions.
Context `{TL : TensorLib} `{SC : Scalar} `{NW : !Network} `{TK : !Toolkit}.

(** The rows of the task-specific contribution table: one per target
    channel, then the row of the segmentation task. *)
Definition task_specific_rows (self : predictor) (p : weights)
  : list (option nat * contribution) :=
  let N := tsf_num_channel self in
  ((fun tgt => (Some tgt, infer_contribution p (Codes.files_tgt_code N tgt))) <$> range N)
  ++ [(None, infer_contribution p (Codes.files_seg_code N))].

(** The calls the bookkeeping makes for the output folder [folder] while
    the weights [p] are loaded. *)
Definition record_events (self : predictor) (folder : string) (p : weights) : list event :=
  let N := tsf_num_channel self in
  [Makedirs folder;
   SaveJson (OsPath.join folder "predict_from_raw_data_args.json");
   SaveJson (OsPath.join folder "dataset.json");
   SaveJson (OsPath.join folder "plans.json")]
  ++ ((fun tgt => InferContribution (Codes.files_tgt_code N tgt)) <$> range N)
  ++ [InferContribution (Codes.files_seg_code N);
      WriteContributionCsv (OsPath.join folder "task-specific_sequence_contribution.csv")
        (task_specific_rows self p)].

End BookkeepingNotions.

(** ** Notions for the growth of the PSNR table *)

Section TableNotions.
Context `{TL : TensorLib} `{SC : Scalar} `{NW : !Network} `{TK : !Toolkit}.

(** The values recorded for source [i] and target [j]. *)
Definition cell (t : list (list (list num))) (i j : nat) : list num :=
  default [] (t !! i ≫= (.!! j)).

(** [t'] holds everything [t] holds, in the same places: every cell of [t]
    is the beginning of the same cell of [t']. *)
Definition extends (t t' : list (list (list num))) : Prop :=
  length t = length t' ∧ ∀ i j, cell t i j `prefix_of` cell t' i j.

(** A computation that loses nothing of a table that is there. *)
Definition keeps {A} (m : M A) : Prop :=
  ∀ w t, psnr w = Some t → ∃ t', psnr (snd (m w)) = Some t' ∧ extends t t'.

End TableNotions.

(** ** Notions for the export pool *)

Section PoolNotions.
Context `{TL : TensorLib} `{SC : Scalar} `{NW : !Network} `{TK : !Toolkit}.

(** The traffic with the export pool among the calls [evs]: the jobs
    submitted ([inl]) and the results fetched ([inr]), in the order of the
    calls. *)
Definition pool_log (evs : list event) : list (job + job) :=
  omap (fun e => match e with
                 | Submit j => Some (inl j)
                 | Get j => Some (inr j)
                 | _ => None
                 end) evs.

(** [m] neither submits a job nor fetches a result. *)
Definition ignores_pool {A} (m : M A) : Prop :=
  ∀ w, pool_log (trace (snd (m w))) = pool_log (trace w).

(** When [m] returns, the job list of its result is [r] followed by the
    jobs [m] has submitted, and [m] has fetched nothing. *)
Definition appends_jobs {A} (jobs : A → list job) (r : list job) (m : M A) : Prop :=
  ∀ w a w', m w = (Ok a, w') →
    ∃ new, jobs a = r ++ new
           ∧ pool_log (trace w') = pool_log (trace w) ++ (inl <$> new).

End PoolNotions.

(** ** The command-line entry points (lines 854-1071) *)

Section EntryPoints.
Context `{TL : TensorLib} `{SC : Scalar} `{NW : !Network} `{TK : !Toolkit}.

(** The value of [-step_size] when the option is not given: the float
    [0.5]. *)
Variable default_step_size : tile_step.

(** What is on the command line: an option that takes a value is [None]
    when it is absent, a flag is [true] when it is present. [argparse]
    hands the values of [-f] over as strings, in a list that is not empty,
    and has converted those of [-npp], [-nps], [-num_parts] and [-part_id]
    to integers. *)
Record command_line := {
  cl_i : string;
  cl_o : string;
  cl_f : option (list string);
  cl_step_size : option tile_step;
  cl_disable_tta : bool;
  cl_save_probabilities : bool;
  cl_continue_prediction : bool;
  cl_chk : option string;
  cl_npp : option Z;
  cl_nps : option Z;
  cl_prev_stage_predictions : option string;
  cl_num_parts : option Z;
  cl_part_id : option Z;
  cl_device : option string;
}.

(** [action='store_true', default=d]: the attribute is [True] when the
    flag is given and [d] when it is not. *)
Definition store_true (d present : bool) : bool := if present then true else d.

(** An element of [args.f] before the conversion: a string from the command
    line, or an integer of the default tuple [(0, 1, 2, 3, 4)]. *)
Inductive fold_arg : Type :=
| FoldStr (s : string)
| FoldInt (n : Z).

(** An element of [args.f] after it. *)
Inductive fold : Type :=
| FoldAll
| Fold (n : Z).

(** [i if i == 'all' else int(i)]: an integer is not equal to ['all'], and
    [int] of an integer is that integer. *)
Definition convert_fold (a : fold_arg) : res fold :=
  match a with
  | FoldStr s => if String.eqb s "all" then Ok FoldAll else n ← PyInt.int s; Ok (Fold n)
  | FoldInt n => Ok (Fold n)
  end.

Definition raw_folds (cl : command_line) : list fold_arg :=
  match cl_f cl with
  | Some l => FoldStr <$> l
  | None => FoldInt <$> [0; 1; 2; 3; 4]
  end.

(** Lines 920-933 and 1037-1050: the device assertion and the choice of the
    device. *)
Definition choose_device (name : string) : res device :=
  assert (String.eqb name "cpu" || String.eqb name "cuda" || String.eqb name "mps");;
  Ok (if String.eqb name "cpu" then Cpu
      else if String.eqb name "cuda" then Cuda
      else Mps).

(** Where the model comes from: the folder of [-m], or the folder
    [get_output_folder] derives from dataset, trainer, plans and
    configuration. *)
Inductive model_source : Type :=
| ModelFolder (m : string)
| TrainedModel (d tr p c : string).

(** What an entry point does once its arguments are accepted: the predictor
    it constructs, the initialization it asks for, and the arguments of its
    call of [predict_from_files]. *)
Record session := {
  s_predictor : constructed;
  s_model : model_source;
  s_folds : list fold;
  s_checkpoint : string;
  s_source : string;
  s_output : string;
  s_save_probabilities : bool;
  s_overwrite : bool;
  s_num_processes_preprocessing : Z;
  s_num_processes_segmentation_export : Z;
  s_folder_with_segs_from_prev_stage : option string;
  s_num_parts : Z;
  s_part_id : Z;
}.

(** [if not isdir(args.o): maybe_mkdir_p(args.o)]: the folders the entry
    point creates. *)
Definition make_output_folder (isdir : string → bool) (o : string) : list string :=
  if isdir o then [] else [o].

(** Lines 854-949; [m] is the value of the required option [-m], [isdir]
    the file system. The result is the list of the folders created and what
    the entry point raises or goes on to do. *)
Definition predict_entry_point_modelfolder (isdir : string → bool) (m : string)
    (cl : command_line) : list string * res session :=
  let disable_tta := store_true false (cl_disable_tta cl) in
  match comprehension convert_fold (raw_folds cl) with
  | Raise e => ([], Raise e)
  | Ok f =>
      (make_output_folder isdir (cl_o cl),
       dev ← choose_device (default "cuda"%string (cl_device cl));
       Ok {| s_predictor :=
               nnSeq2SeqPredictor__init__ (default default_step_size (cl_step_size cl)) true
                 (negb disable_tta) true dev;
             s_model := ModelFolder m;
             s_folds := f;
             s_checkpoint := default "checkpoint_final.pth"%string (cl_chk cl);
             s_source := cl_i cl;
             s_output := cl_o cl;
             s_save_probabilities := store_true false (cl_save_probabilities cl);
             s_overwrite := negb (store_true false (cl_continue_prediction cl));
             s_num_processes_preprocessing := default 3 (cl_npp cl);
             s_num_processes_segmentation_export := default 3 (cl_nps cl);
             s_folder_with_segs_from_prev_stage := cl_prev_stage_predictions cl;
             s_num_parts := 1;
             s_part_id := 0 |})
  end.

(** Lines 952-1071; [d] and [c] are the values of the required options
    [-d] and [-c], [p] and [tr] those of [-p] and [-tr] when given. The
    flag [--disable_tta] is declared with [default=True]. The folder that
    [get_output_folder] derives is kept as its four arguments. *)
Definition predict_entry_point (isdir : string → bool) (d c : string)
    (p tr : option string) (cl : command_line) : list string * res session :=
  let disable_tta := store_true true (cl_disable_tta cl) in
  match comprehension convert_fold (raw_folds cl) with
  | Raise e => ([], Raise e)
  | Ok f =>
      let num_parts := default 1 (cl_num_parts cl) in
      let part_id := default 0 (cl_part_id cl) in
      (make_output_folder isdir (cl_o cl),
       assert (part_id <? num_parts);;
       dev ← choose_device (default "cuda"%string (cl_device cl));
       Ok {| s_predictor :=
               nnSeq2SeqPredictor__init__ (default default_step_size (cl_step_size cl)) true
                 (negb disable_tta) true dev;
             s_model := TrainedModel d (default "nnSeq2SeqTrainer"%string tr)
                          (default "nnSeq2SeqPlans"%string p) c;
             s_folds := f;
             s_checkpoint := default "checkpoint_final.pth"%string (cl_chk cl);
             s_source := cl_i cl;
             s_output := cl_o cl;
             s_save_probabilities := store_true false (cl_save_probabilities cl);
             s_overwrite := negb (store_true false (cl_continue_prediction cl));
             s_num_processes_preprocessing := default 3 (cl_npp cl);
             s_num_processes_segmentation_export := default 3 (cl_nps cl);
             s_folder_with_segs_from_prev_stage := cl_prev_stage_predictions cl;
             s_num_parts := num_parts;
             s_part_id := part_id |})
  end.

End EntryPoints.

(** A command line with the required options only, and one that asks for
    everything the options offer. *)
Definition bare_command_line
  : command_line (TL := Toy.tensors) (SC := Toy.scalars) (TK := Toy.toolkit) :=
  @Build_command_line Toy.tensors Toy.scalars Toy.toolkit
    "in" "out" None None false false false None None None None None None None.

Definition full_command_line
  : command_line (TL := Toy.tensors) (SC := Toy.scalars) (TK := Toy.toolkit) :=
  @Build_command_line Toy.tensors Toy.scalars Toy.toolkit
    "in" "out" (Some ["0"; "all"; " 12 "]%string) (Some tt) true true true
    (Some "checkpoint_best.pth"%string) (Some 2) (Some 2) (Some "prev"%string)
    (Some 4) (Some 3) (Some "mps"%string).


(** ** Notions for the contribution report *)

Section ScoreNotions.
Context `{SC : Scalar}.






End ScoreNotions.


(** ** The list management with Python's integers

    [part_id] and [num_parts] are Python integers, and the entry point only
    asserts [part_id < num_parts]: the slice [l[part_id::num_parts]] is
    defined for every sign of the two. *)

Module IntLists.

(** [l[start::step]] for any two integers: a zero step is a [ValueError]; a
    negative start counts from the end; the start is clipped to the list;
    with a negative step the slice runs from the start down to the first
    element. *)
Definition slice_from_step {A} (l : list A) (start step : Z) : res (list A) :=
  let n := Z.of_nat (length l) in
  if step =? 0 then Raise ValueError
  else if 0 <? step then
    let first := if start <? 0 then Z.max (start + n) 0 else Z.min start n in
    Ok (stride (Z.to_nat step) 0 (drop (Z.to_nat first) l))
  else
    let first := if start <? 0 then Z.max (start + n) (-1) else Z.min start (n - 1) in
    Ok (stride (Z.to_nat (- step)) 0 (reverse (take (Z.to_nat (first + 1)) l))).

Section Manage.
Variable isfile : string → bool.
Variable create_lists_from_splitted_dataset_folder : string → string → list (list string).
Variable file_ending : string.

(** Lines 163-201, with the slice of line 174 over the integers. *)
Definition _manage_input_and_output_lists
    (list_of_lists_or_source_folder : Lists.source_spec)
    (output_folder_or_list_of_truncated_output_files : Lists.output_spec)
    (folder_with_segs_from_prev_stage : option string)
    (overwrite : bool) (part_id num_parts : Z) (save_probabilities : bool)
  : res (list (list string) * option (list string) * list (option string)) :=
  let list_of_lists :=
    match list_of_lists_or_source_folder with
    | Lists.SourceFolder folder => create_lists_from_splitted_dataset_folder folder file_ending
    | Lists.SourceLists cases => cases
    end in
  list_of_lists ← slice_from_step list_of_lists part_id num_parts;
  caseids ← comprehension (Lists.caseid file_ending) list_of_lists;
  let output_filename_truncated :=
    match output_folder_or_list_of_truncated_output_files with
    | Lists.OutputFolder folder => Some (OsPath.join folder <$> caseids)
    | Lists.OutputList prefixes => Some prefixes
    | Lists.OutputNone => None
    end in
  let seg_from_prev_stage_files :=
    (fun i => match folder_with_segs_from_prev_stage with
              | Some folder => Some (OsPath.join folder (i ++ file_ending)%string)
              | None => None
              end) <$> caseids in
  match overwrite, output_filename_truncated with
  | false, Some outputs =>
      let tmp := Lists.exists_flags isfile file_ending save_probabilities outputs in
      let idx := Lists.not_existing_indices tmp in
      outputs' ← Lists.select outputs idx;
      list_of_lists' ← Lists.select list_of_lists idx;
      segs' ← Lists.select seg_from_prev_stage_files idx;
      Ok (list_of_lists', Some outputs', segs')
  | _, _ => Ok (list_of_lists, output_filename_truncated, seg_from_prev_stage_files)
  end.

End Manage.

End IntLists.

(** * Properties *)

Example basename_ex : OsPath.basename "/a/b/case_0000.nii.gz" = "case_0000.nii.gz"%string.
Proof. reflexivity. Qed.
Example dirname_ex : OsPath.dirname "/a/b/c" = "/a/b"%string /\ OsPath.dirname "c" = ""%string /\ OsPath.dirname "/c" = "/"%string /\ OsPath.dirname "a//c" = "a"%string.
Proof. repeat split; reflexivity. Qed.
Example join_ex : OsPath.join "out" "case" = "out/case"%string /\ OsPath.join "out/" "case" = "out/case"%string /\ OsPath.join "out" "/case" = "/case"%string.
Proof. repeat split; reflexivity. Qed.
Example stride_ex : Py.slice_from_step [0;1;2;3;4;5;6] 1 3 = Ok [1;4].
Proof. reflexivity. Qed.

(** ** The encoder's secondary convolution *)

Section EncoderFacts.
Import Encoder.
Context {float : Type}.

(** Whatever the stage lists are, a constructor that returns has built [p]
    from the latent dimension alone. *)
Lemma init_p (a : args float) (enc : ImageEncoder float) :
  init a = Ok enc →
  p enc = Conv3d (latent_space_dim float a) (latent_space_dim float a * 2 * 2 * 2) 2 0 2.
Proof.
  unfold init. destruct (up_channel _ _) as [uc|]; [|discriminate].
  intros [= <-]. reflexivity.
Qed.

(** C9, as amended: the secondary convolution of a constructed encoder has
    kernel 2 and stride 2, reads [latent_space_dim] channels and writes
    exactly eight (2*2*2) times as many. *)
Theorem secondary_conv_octuples_channels (a : args float) (enc : ImageEncoder float) :
  init a = Ok enc →
  conv_in (p enc) = Some (latent_space_dim float a)
  ∧ conv_out (p enc) = Some (8 * latent_space_dim float a)
  ∧ conv_kernel_of (p enc) = Some 2
  ∧ conv_stride_of (p enc) = Some 2.
Proof.
  intros Hinit. rewrite (init_p a enc Hinit). cbn.
  repeat split. f_equal. lia.
Qed.
End EncoderFacts.

(** The constructor returns on the one-stage configuration, and its secondary
    convolution maps 8 channels to 64. *)
Lemma secondary_conv_octuples_channels_witness :
  ∃ enc, Encoder.init Encoder.small_args = Ok enc
         ∧ Encoder.conv_in (Encoder.p enc) = Some 8
         ∧ Encoder.conv_out (Encoder.p enc) = Some 64.
Proof.
  eexists. split; [reflexivity|].
  destruct (secondary_conv_octuples_channels Encoder.small_args _ eq_refl)
    as (Hin & Hout & _).
  split; [exact Hin | exact Hout].
Defined.

(** C9, as stated, fails: with a latent dimension of 8 the secondary
    convolution writes 64 channels, not 16. *)
Lemma secondary_conv_not_doubling :
  ¬ (∀ enc, Encoder.init Encoder.small_args = Ok enc →
            Encoder.conv_out (Encoder.p enc)
            = Some (2 * Encoder.latent_space_dim unit Encoder.small_args)).
Proof.
  intros Hdouble.
  specialize (Hdouble _ eq_refl). cbn in Hdouble. discriminate.
Qed.

(** ** The layout of the fused codes *)

Section CodeFacts.
Import Codes.

Lemma range_length n : length (range n) = n.
Proof. apply length_seq. Qed.

Lemma range_lookup n i : (i < n)%nat → range n !! i = Some i.
Proof. intros Hi. unfold range. rewrite lookup_seq_lt; [reflexivity | assumption]. Qed.

Lemma tabulate_lookup {A} (f : nat → A) n i :
  (i < n)%nat → (f <$> range n) !! i = Some (f i).
Proof. intros Hi. rewrite list_lookup_fmap, range_lookup by assumption. reflexivity. Qed.

Lemma tabulate_length {A} (f : nat → A) n : length (f <$> range n) = n.
Proof. rewrite length_fmap. apply range_length. Qed.

(** A code [src ++ tgt ++ [flag]] of two blocks of [n] slots and a flag. *)
Lemma blocks_lookup (src tgt : list Z) (flag : Z) n :
  length src = n → length tgt = n →
  (∀ i, (i < n)%nat → (src ++ tgt ++ [flag]) !! i = src !! i)
  ∧ (∀ j, (j < n)%nat → (src ++ tgt ++ [flag]) !! (n + j)%nat = tgt !! j)
  ∧ (src ++ tgt ++ [flag]) !! (2 * n)%nat = Some flag
  ∧ length (src ++ tgt ++ [flag]) = (2 * n + 1)%nat.
Proof.
  intros Hs Ht. repeat split.
  - intros i Hi. apply lookup_app_l. lia.
  - intros j Hj. rewrite lookup_app_r by lia.
    replace (n + j - length src)%nat with j by lia.
    apply lookup_app_l. lia.
  - rewrite lookup_app_r by lia. rewrite lookup_app_r by lia.
    replace (2 * n - length src - length tgt)%nat with 0%nat by lia. reflexivity.
  - rewrite !length_app. cbn. lia.
Qed.

Lemma one_hot_ok tgt n :
  (tgt < n)%nat →
  one_hot tgt n = Ok ((fun i => if Nat.eqb i tgt then 1 else 0) <$> range n).
Proof. intros Ht. unfold one_hot. apply Nat.ltb_lt in Ht. rewrite Ht. reflexivity. Qed.

(** The availability mask marks exactly the available channels. *)
Lemma tsf_src_code_lookup n available i :
  (i < n)%nat →
  tsf_src_code n available !! i = Some (if contains available i then 1 else 0).
Proof. intros Hi. unfold tsf_src_code. rewrite tabulate_lookup by assumption. reflexivity. Qed.

Lemma sweep_tgt_code_layout n available tgt :
  (tgt < n)%nat →
  ∃ target_code, one_hot tgt n = Ok target_code
    ∧ fused_layout n (Translation tgt) (tsf_tgt_code n available target_code)
    ∧ fused_layout n Segmentation (tsf_seg_code n available target_code).
Proof.
  intros Ht. eexists. split; [apply one_hot_ok, Ht|].
  unfold tsf_tgt_code, tsf_seg_code. split.
  - destruct (blocks_lookup (tsf_src_code n available)
                ((fun i => if Nat.eqb i tgt then 1 else 0) <$> range n) 0 n)
      as (Hs & Hm & Hf & Hl); [apply tabulate_length..|].
    split; [exact Hl | | | exact Hf].
    + intros i Hi. rewrite Hs, tsf_src_code_lookup by assumption.
      destruct (contains available i); auto.
    + intros j Hj. rewrite Hm by assumption. rewrite tabulate_lookup by assumption. reflexivity.
  - destruct (blocks_lookup (tsf_src_code n available)
                ((fun _ => 0) <$> ((fun i => if Nat.eqb i tgt then 1 else 0) <$> range n)) 1 n)
      as (Hs & Hm & Hf & Hl);
      [apply tabulate_length | rewrite length_fmap; apply tabulate_length |].
    split; [exact Hl | | | exact Hf].
    + intros i Hi. rewrite Hs, tsf_src_code_lookup by assumption.
      destruct (contains available i); auto.
    + intros j Hj. rewrite Hm by assumption.
      rewrite list_lookup_fmap, tabulate_lookup by assumption. reflexivity.
Qed.

Lemma files_code_layout n tgt :
  fused_layout n (Translation tgt) (files_tgt_code n tgt)
  ∧ fused_layout n Segmentation (files_seg_code n).
Proof.
  unfold files_tgt_code, files_seg_code. split.
  - destruct (blocks_lookup ((fun i => if negb (Nat.eqb i tgt) then 1 else 0) <$> range n)
                ((fun i => if Nat.eqb i tgt then 1 else 0) <$> range n) 0 n)
      as (Hs & Hm & Hf & Hl); [apply tabulate_length..|].
    split; [exact Hl | | | exact Hf].
    + intros i Hi. rewrite Hs, tabulate_lookup by assumption.
      destruct (negb _); auto.
    + intros j Hj. rewrite Hm by assumption. rewrite tabulate_lookup by assumption. reflexivity.
  - destruct (blocks_lookup ((fun _ => 1) <$> range n) ((fun _ => 0) <$> range n) 1 n)
      as (Hs & Hm & Hf & Hl); [apply tabulate_length..|].
    split; [exact Hl | | | exact Hf].
    + intros i Hi. rewrite Hs, tabulate_lookup by assumption. auto.
    + intros j Hj. rewrite Hm by assumption. rewrite tabulate_lookup by assumption. reflexivity.
Qed.

(** A translation code holds a single 1 in its target block. *)
Lemma translation_block_single_one n tgt code :
  (tgt < n)%nat → fused_layout n (Translation tgt) code →
  ∀ j, (j < n)%nat → (code !! (n + j)%nat = Some 1 ↔ j = tgt).
Proof.
  intros Ht L j Hj. rewrite (fl_target _ _ _ L j Hj).
  destruct (Nat.eqb_spec j tgt); split; intros; try congruence; try lia.
Qed.

(** C5: for a target index below [num_channel], the four fused codes the
    predictor builds (the target and segmentation codes of the tile
    prediction, fed the one-hot code of the per-case sweep, and the target
    and segmentation codes of the contribution table in
    [predict_from_files]) have [2 * num_channel + 1] slots: a binary
    source-availability mask (in the tile prediction: 1 exactly at the
    available channels), then the target block, one-hot at
    [num_channel + tgt] for a translation code and all zero for a
    segmentation code, then the flag, 1 exactly for a segmentation code. *)
Theorem fused_codes_layout (num_channel : nat) (available_channel : list nat) (tgt : nat) :
  (tgt < num_channel)%nat →
  ∃ target_code, one_hot tgt num_channel = Ok target_code
    ∧ fused_layout num_channel (Translation tgt)
        (tsf_tgt_code num_channel available_channel target_code)
    ∧ fused_layout num_channel Segmentation
        (tsf_seg_code num_channel available_channel target_code)
    ∧ fused_layout num_channel (Translation tgt) (files_tgt_code num_channel tgt)
    ∧ fused_layout num_channel Segmentation (files_seg_code num_channel)
    ∧ (∀ i, (i < num_channel)%nat →
         tsf_tgt_code num_channel available_channel target_code !! i
           = Some (if contains available_channel i then 1 else 0)
         ∧ tsf_seg_code num_channel available_channel target_code !! i
           = Some (if contains available_channel i then 1 else 0))
    ∧ (∀ j, (j < num_channel)%nat →
         (tsf_tgt_code num_channel available_channel target_code
            !! (num_channel + j)%nat = Some 1 ↔ j = tgt)
         ∧ (files_tgt_code num_channel tgt !! (num_channel + j)%nat = Some 1 ↔ j = tgt)).
Proof.
  intros Ht.
  destruct (sweep_tgt_code_layout num_channel available_channel tgt Ht)
    as (tc & Htc & Ltgt & Lseg).
  destruct (files_code_layout num_channel tgt) as (Lftgt & Lfseg).
  exists tc. split; [exact Htc|]. split; [exact Ltgt|]. split; [exact Lseg|].
  split; [exact Lftgt|]. split; [exact Lfseg|]. split.
  - intros i Hi. split.
    + unfold tsf_tgt_code. rewrite lookup_app_l
        by (unfold tsf_src_code; rewrite tabulate_length; assumption).
      apply tsf_src_code_lookup; assumption.
    + unfold tsf_seg_code. rewrite lookup_app_l
        by (unfold tsf_src_code; rewrite tabulate_length; assumption).
      apply tsf_src_code_lookup; assumption.
  - intros j Hj. split.
    + apply (translation_block_single_one _ _ _ Ht Ltgt); assumption.
    + apply (translation_block_single_one _ _ _ Ht Lftgt); assumption.
Qed.
End CodeFacts.

(** Four channels, channels 0 and 3 available, target 2: the single 1 of the
    target block sits at position 6, and the segmentation code ends in 1. *)
Lemma fused_codes_layout_witness :
  (2 < 4)%nat
  ∧ ∃ target_code, Codes.one_hot 2 4 = Ok target_code
      ∧ Codes.tsf_tgt_code 4 [0; 3]%nat target_code = [1; 0; 0; 1; 0; 0; 1; 0; 0]
      ∧ Codes.tsf_seg_code 4 [0; 3]%nat target_code = [1; 0; 0; 1; 0; 0; 0; 0; 1]
      ∧ Codes.fused_layout 4 (Codes.Translation 2)
          (Codes.tsf_tgt_code 4 [0; 3]%nat target_code).
Proof.
  split; [lia|].
  destruct (fused_codes_layout 4 [0; 3]%nat 2 ltac:(lia)) as (tc & Htc & L & _).
  exists tc. split; [exact Htc|].
  cbv in Htc. injection Htc as <-.
  split; [reflexivity|]. split; [reflexivity|]. exact L.
Defined.

(** ** Skipping the cases that are already predicted *)

Section ListFacts.
Import Lists.
Variable isfile : string → bool.
Variable create_lists : string → string → list (list string).
Variable file_ending : string.

Lemma comprehension_length {A B} (f : A → res B) l bs :
  comprehension f l = Ok bs → length bs = length l.
Proof.
  revert bs. induction l as [|a l IH]; cbn; intros bs Hbs.
  - injection Hbs as <-. reflexivity.
  - destruct (f a) as [b|]; cbn in Hbs; [|discriminate].
    destruct (comprehension f l) as [bs'|]; cbn in Hbs; [|discriminate].
    injection Hbs as <-. cbn. f_equal. apply IH. reflexivity.
Qed.

(** The two readings of "already there" agree, flag by flag. *)
Lemma exists_flags_spec sp outputs :
  exists_flags isfile file_ending sp outputs
  = already_predicted isfile file_ending sp <$> outputs.
Proof.
  unfold exists_flags, already_predicted. destruct sp.
  - induction outputs as [|o outputs IH]; cbn; [reflexivity|].
    f_equal. exact IH.
  - induction outputs as [|o outputs IH]; cbn; [reflexivity|].
    rewrite andb_true_r. f_equal. exact IH.
Qed.

(** Selecting the positions whose flag is unset, in a list at least as long
    as the flags, keeps the elements paired with an unset flag. The list
    [pre] stands for the elements before the current position. *)
Lemma select_unset_from {A} (pre l : list A) (flags : list bool) :
  (length flags ≤ length l)%nat →
  comprehension (index (pre ++ l))
    (fst <$> List.filter (fun ij => negb (snd ij))
               (imap (fun i j => ((length pre + i)%nat, j)) flags))
  = Ok (fst <$> List.filter (fun xb => negb (snd xb)) (zip l flags)).
Proof.
  revert pre l. induction flags as [|b flags IH]; intros pre l Hlen.
  - destruct l; reflexivity.
  - destruct l as [|x l]; [cbn in Hlen; lia|].
    cbn [imap zip zip_with List.filter snd].
    assert (Hshift : imap ((fun i j => ((length pre + i)%nat, j)) ∘ S) flags
                     = imap (fun i j => ((length (pre ++ [x]) + i)%nat, j)) flags).
    { apply imap_ext. intros i j _. cbn. rewrite length_app. cbn. f_equal. lia. }
    rewrite Hshift.
    specialize (IH (pre ++ [x]) l ltac:(cbn in Hlen; lia)).
    rewrite <- app_assoc in IH. cbn [app] in IH.
    destruct b; cbn [negb fmap list_fmap fst comprehension].
    + exact IH.
    + rewrite IH. unfold index at 1.
      rewrite Nat.add_0_r, list_lookup_middle by reflexivity. reflexivity.
Qed.

Lemma select_unset {A} (l : list A) (flags : list bool) :
  (length flags ≤ length l)%nat →
  select l (not_existing_indices flags)
  = Ok (fst <$> List.filter (fun xb => negb (snd xb)) (zip l flags)).
Proof. intros Hlen. apply (select_unset_from [] l flags Hlen). Qed.

(** Filtering a projection by the flags of the cases is projecting the
    filtered cases. *)
Lemma filter_zip_project {X Y} (cases : list X) (g : X → bool) (proj : X → Y) :
  fst <$> List.filter (fun xb => negb (snd xb)) (zip (proj <$> cases) (g <$> cases))
  = proj <$> List.filter (fun c => negb (g c)) cases.
Proof.
  induction cases as [|c cases IH]; [reflexivity|].
  cbn. destruct (g c); cbn; [exact IH | f_equal; exact IH].
Qed.

(** C8: take a call with [overwrite=True] that returns the source groups
    [cases], the output prefixes [outputs] (one per case) and the
    previous-stage files [segs]. The same call with [overwrite=False]
    returns exactly the cases whose outputs are not all there yet (the
    label file and, with [save_probabilities], its [.npz] archive as
    well), and the three returned lists are the three components of those
    remaining cases, in their order. *)
Theorem overwrite_skip_filters_consistently
    (src : source_spec) (out : output_spec) (prev : option string)
    (part_id num_parts : nat) (save_probabilities : bool)
    (cases : list (list string)) (outputs : list string) (segs : list (option string)) :
  _manage_input_and_output_lists isfile create_lists file_ending
    src out prev true part_id num_parts save_probabilities
    = Ok (cases, Some outputs, segs) →
  length outputs = length cases →
  let todo := remaining isfile file_ending save_probabilities
                (zip (zip cases outputs) segs) in
  _manage_input_and_output_lists isfile create_lists file_ending
    src out prev false part_id num_parts save_probabilities
    = Ok ((fun c => fst (fst c)) <$> todo,
          Some ((fun c => snd (fst c)) <$> todo),
          snd <$> todo)
  ∧ (∀ c, c ∈ todo ↔
          c ∈ zip (zip cases outputs) segs
          ∧ already_predicted isfile file_ending save_probabilities (snd (fst c)) = false).
Proof.
  intros Hrun Hlen todo. split.
  - unfold _manage_input_and_output_lists in *.
    destruct (slice_from_step _ part_id num_parts) as [lol|]; cbn in *; [|discriminate].
    destruct (comprehension (caseid file_ending) lol) as [caseids|] eqn:Hids;
      cbn in *; [|discriminate].
    apply comprehension_length in Hids.
    injection Hrun as Hcases Hout Hsegs0. subst lol. rewrite Hout.
    assert (Hsegs : length segs = length cases)
      by (rewrite <- Hsegs0, length_fmap; exact Hids).
    rewrite Hsegs0. clear Hsegs0 Hout Hids caseids.
    set (T := zip (zip cases outputs) segs) in *.
    assert (Hc : cases = (fun c => fst (fst c)) <$> T).
    { subst T.
      change ((fun c : list string * string * option string => fst (fst c)))
        with (fst ∘ (@fst (list string * string) (option string))).
      rewrite list_fmap_compose, !fst_zip by (rewrite ?length_zip; lia). reflexivity. }
    assert (Ho : outputs = (fun c => snd (fst c)) <$> T).
    { subst T.
      change ((fun c : list string * string * option string => snd (fst c)))
        with (snd ∘ (@fst (list string * string) (option string))).
      rewrite list_fmap_compose, fst_zip, snd_zip by (rewrite ?length_zip; lia).
      reflexivity. }
    assert (Hs : segs = snd <$> T).
    { subst T. rewrite snd_zip by (rewrite ?length_zip; lia). reflexivity. }
    rewrite exists_flags_spec.
    rewrite !select_unset by (rewrite length_fmap; lia).
    cbn.
    assert (Hflags : already_predicted isfile file_ending save_probabilities <$> outputs
                     = (fun c => already_predicted isfile file_ending save_probabilities
                                   (snd (fst c))) <$> T).
    { rewrite Ho at 1. rewrite <- list_fmap_compose. reflexivity. }
    rewrite Hflags.
    rewrite Ho at 1. rewrite Hc at 1. rewrite Hs at 1.
    rewrite !filter_zip_project. reflexivity.
  - intros c. unfold todo, remaining.
    rewrite !list_elem_of_In, filter_In, negb_true_iff. reflexivity.
Qed.
End ListFacts.

(** Three cases under an output folder, the label file of the second already
    written: with [overwrite=False] two cases remain, the first and the
    third. *)
Lemma overwrite_skip_filters_consistently_witness :
  Lists._manage_input_and_output_lists only_b_label (fun _ _ => []) ".nii.gz"
    (Lists.SourceLists three_cases) (Lists.OutputFolder "out") None false 0 1 false
  = Ok ([["in/a_0000.nii.gz"; "in/a_0001.nii.gz"]; ["in/c_0000.nii.gz"; "in/c_0001.nii.gz"]],
        Some ["out/a"; "out/c"], [None; None])%string.
Proof.
  exact (proj1 (overwrite_skip_filters_consistently only_b_label (fun _ _ => []) ".nii.gz"
           (Lists.SourceLists three_cases) (Lists.OutputFolder "out") None 0 1 false
           three_cases ["out/a"; "out/b"; "out/c"]%string [None; None; None]
           eq_refl eq_refl)).
Defined.

(** C8, as stated for every output-prefix list, fails when the prefixes are
    not one per case of the part. With no output written at all, three cases
    and two prefixes, [overwrite=False] removes the third case; with four
    prefixes it raises [IndexError]; and on part 0 of 2 with the three
    prefixes of the whole list, the labels [o/a] and [o/c] written, the case
    [c] is kept, under the prefix of [b]. *)
Lemma overwrite_skip_needs_one_prefix_per_case :
  Lists._manage_input_and_output_lists (fun _ => false) (fun _ _ => []) ".nii.gz"
    (Lists.SourceLists three_cases) (Lists.OutputList ["o/a"; "o/b"]) None false 0 1 false
  = Ok ([["in/a_0000.nii.gz"; "in/a_0001.nii.gz"]; ["in/b_0000.nii.gz"; "in/b_0001.nii.gz"]],
        Some ["o/a"; "o/b"], [None; None])%string
  ∧ Lists._manage_input_and_output_lists (fun _ => false) (fun _ _ => []) ".nii.gz"
      (Lists.SourceLists three_cases) (Lists.OutputList ["o/a"; "o/b"; "o/c"; "o/d"])
      None false 0 1 false
    = Raise IndexError
  ∧ Lists._manage_input_and_output_lists
      (fun f => String.eqb f "o/a.nii.gz" || String.eqb f "o/c.nii.gz")
      (fun _ _ => []) ".nii.gz"
      (Lists.SourceLists three_cases) (Lists.OutputList ["o/a"; "o/b"; "o/c"])
      None false 0 2 false
    = Ok ([["in/c_0000.nii.gz"; "in/c_0001.nii.gz"]], Some ["o/b"], [None])%string.
Proof.
  split; [|split]; vm_compute; reflexivity.
Qed.

(** ** The contribution report *)

Section ReportFacts.
Import Report.
Context `{SC : Scalar}.



Lemma square_lookup {A} n (t : list (list A)) i j :
  square n t → (i < n)%nat → (j < n)%nat →
  ∃ row x, t !! i = Some row ∧ length row = n ∧ row !! j = Some x.
Proof.
  intros [Hlen Hrows] Hi Hj.
  destruct (lookup_lt_is_Some_2 t i ltac:(lia)) as [row Hrow].
  assert (Hr : length row = n).
  { rewrite Forall_forall in Hrows. apply Hrows.
    eapply list_elem_of_lookup_2. exact Hrow. }
  destruct (lookup_lt_is_Some_2 row j ltac:(lia)) as [x Hx].
  exists row, x. auto.
Qed.

Lemma square_insert {A} n (t : list (list A)) i j row x :
  square n t → t !! i = Some row →
  square n (<[i := <[j := x]> row]> t).
Proof.
  intros [Hlen Hrows] Hrow. split; [rewrite length_insert; exact Hlen|].
  rewrite Forall_forall in *. intros r Hr.
  apply list_elem_of_lookup in Hr as [k Hk].
  destruct (decide (k = i)) as [->|Hne].
  - rewrite list_lookup_insert_eq in Hk by (eapply lookup_lt_Some; exact Hrow).
    injection Hk as <-. rewrite length_insert. apply Hrows.
    eapply list_elem_of_lookup_2. exact Hrow.
  - rewrite list_lookup_insert_ne in Hk by congruence.
    apply Hrows. eapply list_elem_of_lookup_2. exact Hk.
Qed.










End ReportFacts.


(** ** Runs in a world where nothing fails *)

Section QuietRuns.
Context `{TL : TensorLib} `{SC : Scalar} `{NW : !Network} `{TK : !Toolkit}.

Lemma after_nil (w : world) : after w [] = w.
Proof. destruct w. unfold after. cbn. rewrite app_nil_r. reflexivity. Qed.

Lemma after_after (w : world) e1 e2 : after (after w e1) e2 = after w (e1 ++ e2).
Proof.
  unfold after. cbn. rewrite length_app, app_assoc. f_equal. lia.
Qed.

Lemma quiet_after (w : world) evs : quiet w → quiet (after w evs).
Proof. intros Hq n Hn. apply Hq. cbn in Hn. lia. Qed.



Lemma returns_ret {A} p (a : A) : returns p (mret a) a [].
Proof. intros w _ _. rewrite after_nil. reflexivity. Qed.

Lemma returns_ext p e : returns p (ext e) tt [e].
Proof.
  intros w Hq _. unfold ext. rewrite (Hq (clock w)) by lia. reflexivity.
Qed.

Lemma returns_get_loaded p : returns p get_loaded p [].
Proof. intros w _ <-. rewrite after_nil. reflexivity. Qed.

Lemma returns_lift {A} p (a : A) : returns p (lift (Ok a)) a [].
Proof. intros w _ _. rewrite after_nil. reflexivity. Qed.

Lemma returns_bind {A B} p (m : M A) (f : A → M B) a b e1 e2 :
  returns p m a e1 → returns p (f a) b e2 → returns p (m ≫= f) b (e1 ++ e2).
Proof.
  intros Hm Hf w Hq Hp. unfold mbind, M_bind. rewrite (Hm w Hq Hp).
  rewrite (Hf (after w e1)) by (try apply quiet_after; assumption).
  rewrite after_after. reflexivity.
Qed.

(** A loop whose body returns in every quiet world returns the left fold
    of the body's values. *)
Lemma returns_for_eachM {A B} p (body : A → B → M A) (f : A → B → A)
    (g : B → list event) (l : list B) (a : A) :
  (∀ a b, returns p (body a b) (f a b) (g b)) →
  returns p (for_eachM l a body) (fold_left f l a) (l ≫= g).
Proof.
  intros Hbody. revert a. induction l as [|b l IH]; intros a.
  - apply returns_ret.
  - cbn [for_eachM fold_left]. apply (returns_bind p _ _ (f a b)); [apply Hbody | apply IH].
Qed.
End QuietRuns.

(** ** Counting the mirror combinations *)

Section Combinations.

Lemma combinations_zero {A} (l : list A) : combinations l 0 = [[]].
Proof. destruct l; reflexivity. Qed.

Lemma combinations_beyond {A} (l : list A) r :
  (length l < r)%nat → combinations l r = [].
Proof.
  revert r. induction l as [|a l IH]; intros [|r] Hr; cbn in *; try lia; [reflexivity|].
  rewrite (IH r), (IH (S r)) by lia. reflexivity.
Qed.



Lemma count_upto_cons {A} (a : A) l n :
  count_upto (a :: l) (S n)
  = (count_upto l n + count_upto l (S n))%nat.
Proof.
  induction n as [|n IH].
  - cbn. rewrite ?length_app, ?length_fmap, !combinations_zero. cbn. lia.
  - change (count_upto (a :: l) (S (S n)))
      with (count_upto (a :: l) (S n) + length (combinations (a :: l) (S (S n))))%nat.
    rewrite IH.
    change (combinations (a :: l) (S (S n)))
      with ((cons a <$> combinations l (S n)) ++ combinations l (S (S n))).
    rewrite length_app, length_fmap. cbn [count_upto]. lia.
Qed.

Lemma count_upto_all {A} (l : list A) : count_upto l (length l) = (2 ^ length l)%nat.
Proof.
  induction l as [|a l IH]; [reflexivity|].
  cbn [length]. rewrite count_upto_cons.
  cbn [count_upto]. rewrite IH, (combinations_beyond l (S (length l))) by lia.
  cbn [length]. rewrite Nat.pow_succ_r'. lia.
Qed.

Lemma bind_range_length {A} (f : nat → list A) n :
  length (range n ≫= f) = fold_right (fun i acc => (length (f i) + acc)%nat) 0%nat (range n).
Proof.
  unfold range.
  enough (Hgen : ∀ s, length (seq s n ≫= f)
                 = fold_right (fun i acc => (length (f i) + acc)%nat) 0%nat (seq s n))
    by apply Hgen.
  induction n as [|n IH]; intros s; [reflexivity|].
  cbn. rewrite length_app, IH. reflexivity.
Qed.

Lemma count_upto_sum {A} (l : list A) n :
  count_upto l n
  = (1 + fold_right (fun i acc => (length (combinations l (i + 1)) + acc)%nat) 0%nat (range n))%nat.
Proof.
  induction n as [|n IH].
  - cbn. rewrite combinations_zero. reflexivity.
  - cbn [count_upto]. rewrite IH. unfold range. rewrite seq_S, foldr_app. cbn.
    replace (n + 1)%nat with (S n) by lia.
    generalize (length (combinations l (S n))). intros c.
    generalize (seq 0 n). intros s. induction s as [|i s IHs]; cbn; lia.
Qed.

(** With [k] mirror axes there are [2^k - 1] combinations. *)
Lemma axes_combinations_length (mirror_axes : list nat) :
  length (axes_combinations mirror_axes) = (2 ^ length mirror_axes - 1)%nat.
Proof.
  unfold axes_combinations. rewrite bind_range_length.
  pose proof (count_upto_sum ((fun m => (m + 2)%nat) <$> mirror_axes) (length mirror_axes)) as Hs.
  pose proof (count_upto_all ((fun m => (m + 2)%nat) <$> mirror_axes)) as Ha.
  rewrite length_fmap in Ha. rewrite Ha in Hs. lia.
Qed.

(** The selections of size [r] are the sublists of length [r]. *)
Lemma combinations_sublist {A} (l c : list A) r :
  c ∈ combinations l r ↔ sublist c l ∧ length c = r.
Proof.
  revert c r. induction l as [|a l IH]; intros c r.
  - destruct r; cbn.
    + rewrite list_elem_of_singleton. split.
      * intros ->. split; [constructor | reflexivity].
      * intros [_ Hlen]. destruct c; [reflexivity | discriminate].
    + split; [intros H; inversion H|].
      intros [Hs Hlen]. apply sublist_nil_r in Hs. subst c. discriminate.
  - destruct r as [|r].
    + cbn. rewrite list_elem_of_singleton. split.
      * intros ->. split; [apply sublist_nil_l | reflexivity].
      * intros [_ Hlen]. destruct c; [reflexivity | discriminate].
    + cbn [combinations]. rewrite elem_of_app, list_elem_of_fmap. split.
      * intros [(c' & -> & Hc')|Hc].
        -- apply IH in Hc' as [Hs Hlen]. split; [constructor; exact Hs | cbn; lia].
        -- apply IH in Hc as [Hs Hlen]. split; [constructor; exact Hs | exact Hlen].
      * intros [Hs Hlen]. inversion Hs as [| x c' l' Hs' | x c' l' Hs']; subst.
        -- left. exists c'. split; [reflexivity|]. apply IH. split; [exact Hs' | cbn in Hlen; lia].
        -- right. apply IH. split; [exact Hs' | exact Hlen].
Qed.

(** The combinations are the non-empty sublists of the shifted axes. *)
Lemma axes_combinations_spec (mirror_axes c : list nat) :
  c ∈ axes_combinations mirror_axes
  ↔ c ≠ [] ∧ sublist c ((fun m => (m + 2)%nat) <$> mirror_axes).
Proof.
  unfold axes_combinations. rewrite list_elem_of_bind. split.
  - intros (i & Hc & Hi). apply combinations_sublist in Hc as [Hs Hlen].
    split; [|exact Hs]. intros ->. cbn in Hlen. lia.
  - intros [Hne Hs]. exists (length c - 1)%nat.
    assert (Hpos : (0 < length c)%nat) by (destruct c; [congruence | cbn; lia]).
    split.
    + apply combinations_sublist. split; [exact Hs | lia].
    + unfold range. apply elem_of_seq.
      apply sublist_length in Hs. rewrite length_fmap in Hs. lia.
Qed.

End Combinations.

(** ** The mirror-augmented tile prediction *)

Section MirrorFacts.
Context `{TL : TensorLib} `{SC : Scalar} `{NW : !Network} `{TK : !Toolkit}.

Lemma returns_eq {A} p (m : M A) v evs evs' :
  returns p m v evs → evs = evs' → returns p m v evs'.
Proof. intros Hm <-. exact Hm. Qed.



Lemma returns_run_pass p target_code with_attn inp :
  returns p (run_pass target_code with_attn inp)
    (pass p target_code with_attn inp) (pass_events p target_code with_attn inp).
Proof.
  destruct inp as [x | b d tc sc]; cbn [run_pass pass pass_events].
  - unfold run_bare_pass. eapply returns_eq.
    + eapply returns_bind; [apply returns_get_loaded | cbv beta].
      eapply returns_bind; [apply returns_ext | cbv beta].
      eapply returns_bind; [apply returns_ext | cbv beta].
      apply returns_ret.
    + reflexivity.
  - unfold run_fused_pass. eapply returns_eq.
    + eapply returns_bind; [apply returns_get_loaded | cbv beta].
      eapply returns_bind; [apply returns_ext | cbv beta].
      eapply returns_bind; [apply returns_ext | cbv beta].
      eapply returns_bind; [apply returns_ext | cbv beta].
      eapply returns_bind; [apply returns_ext | cbv beta].
      eapply returns_bind; [apply returns_ext | cbv beta].
      apply returns_ret.
    + reflexivity.
Qed.



Lemma forward_inputs_pass p target_code with_attn inp :
  forward_inputs (pass_events p target_code with_attn inp) = [input_of inp].
Proof. destruct inp; reflexivity. Qed.

Lemma forward_inputs_passes p target_code with_attn inp (combos : list (list nat)) :
  forward_inputs (combos ≫= fun c => pass_events p target_code with_attn (flipped c inp))
  = (fun c => flip c (input_of inp)) <$> combos.
Proof.
  induction combos as [|c combos IH]; [reflexivity|].
  cbn [mbind list_bind fmap list_fmap]. unfold forward_inputs in *.
  rewrite omap_app, IH.
  change (omap _ (pass_events p target_code with_attn (flipped c inp)))
    with (forward_inputs (pass_events p target_code with_attn (flipped c inp))).
  rewrite forward_inputs_pass. destruct inp; reflexivity.
Qed.



Lemma fold_add3_components {C} (h : C → tensor * tensor * tensor) (l : list C) a :
  fold_left (fun acc c => add3 acc (h c)) l a
  = (fold_left tadd ((fun c => fst (fst (h c))) <$> l) (fst (fst a)),
     fold_left tadd ((fun c => snd (fst (h c))) <$> l) (snd (fst a)),
     fold_left tadd ((fun c => snd (h c)) <$> l) (snd a)).
Proof.
  revert a. induction l as [|c l IH]; intros [[a1 a2] a3]; [reflexivity|].
  cbn [fold_left fmap list_fmap]. rewrite IH. reflexivity.
Qed.

Lemma py_max_bound (l : list nat) (b : nat) :
  l ≠ [] → Forall (fun m => (m ≤ b)%nat) l → ∃ top, py_max l = Ok top ∧ (top ≤ b)%nat.
Proof.
  destruct l as [|a l]; [congruence|]. intros _ Hall.
  exists (foldr Nat.max a l). split; [reflexivity|].
  inversion Hall as [|? ? Ha Hl]; subst. clear Hall.
  induction Hl as [|c l Hc Hl IH]; cbn; [exact Ha | lia].
Qed.

(** C1: with mirroring enabled and [k >= 1] mirror axes that the tensor
    rank admits, there are [2^k - 1] axis combinations, one for every
    non-empty selection of the configured axes (shifted past the batch and
    channel dimensions). Where nothing fails, the tile prediction runs one
    forward pass on the input and one on the input flipped along each
    combination, [2^k - 1] additional passes and no other; flips each
    result back along the same axes; and returns translation, mask and
    latent, each the sum of the [2^k] sub-predictions divided by [2^k]. *)
Theorem mirror_prediction_is_mean (self : predictor) (x : tensor) (target_code : list Z)
    (props : option properties) (with_attn : bool)
    (mirror_axes : list nat) (inp : tile_input) (p : weights) :
  use_mirroring self = true →
  allowed_mirroring_axes self = Some mirror_axes →
  (1 ≤ length mirror_axes)%nat →
  Forall (fun m => (m + 3 ≤ ndim x)%nat) mirror_axes →
  tile_input_of self x target_code props = Ok inp →
  let k := length mirror_axes in
  let combos := axes_combinations mirror_axes in
  let sub := fun c => flip3 c (pass p target_code with_attn (flipped c inp)) in
  let subs := pass p target_code with_attn inp :: (sub <$> combos) in
  length combos = (2 ^ k - 1)%nat
  ∧ length subs = (2 ^ k)%nat
  ∧ (∀ c, c ∈ combos ↔ c ≠ [] ∧ sublist c ((fun m => (m + 2)%nat) <$> mirror_axes))
  ∧ ∀ w, quiet w → loaded w = p →
      ∃ evs,
        _internal_maybe_mirror_and_predict self x target_code props with_attn w
        = (Ok (tdiv_int (total ((fun s => fst (fst s)) <$> subs)) (2 ^ k),
               tdiv_int (total ((fun s => snd (fst s)) <$> subs)) (2 ^ k),
               tdiv_int (total (snd <$> subs)) (2 ^ k)),
           after w evs)
        ∧ forward_inputs evs
          = input_of inp :: ((fun c => flip c (input_of inp)) <$> combos).
Proof.
  intros Hmirror Haxes Hk Hvalid Hinp k combos sub subs.
  assert (Hlen : length combos = (2 ^ k - 1)%nat) by apply axes_combinations_length.
  assert (Hpow : (1 ≤ 2 ^ k)%nat).
  { clear. induction k; cbn; lia. }
  split; [exact Hlen|]. split.
  { subst subs. cbn. rewrite length_fmap, Hlen. lia. }
  split; [apply axes_combinations_spec|].
  intros w Hq Hp.
  destruct (py_max_bound mirror_axes (ndim x - 3)) as (top & Htop & Hbound).
  { destruct mirror_axes; [cbn in Hk; lia | congruence]. }
  { eapply Forall_impl; [exact Hvalid|]. cbn. intros. lia. }
  assert (Hassert : assert (Z.of_nat top <=? Z.of_nat (ndim x) - 3) = Ok tt).
  { assert (Hnd : (3 ≤ ndim x)%nat).
    { destruct mirror_axes as [|m ?]; [cbn in Hk; lia|].
      inversion Hvalid; subst. lia. }
    unfold assert. replace (Z.of_nat top <=? Z.of_nat (ndim x) - 3) with true; [reflexivity|].
    symmetry. apply Z.leb_le. lia. }
  set (prefix := match props with
                 | None => []
                 | Some _ => [MoveTo (self_device self) (input_of inp)]
                 end).
  assert (Hrun : returns p
            (_internal_maybe_mirror_and_predict self x target_code props with_attn)
            (div3 (fold_left (fun acc c => add3 acc (sub c)) combos
                     (pass p target_code with_attn inp)) (length combos + 1))
            (prefix ++ pass_events p target_code with_attn inp
             ++ (combos ≫= fun c => pass_events p target_code with_attn (flipped c inp)))).
  { unfold _internal_maybe_mirror_and_predict. rewrite Hmirror, Haxes, Htop.
    eapply returns_eq.
    - eapply (returns_bind p _ _ inp _ prefix).
      + subst prefix. destruct props as [props|]; cbn in Hinp.
        * destruct (scatter_channels props x) as [d|] eqn:Hd; cbn in Hinp; [|discriminate].
          injection Hinp as <-.
          eapply returns_eq.
          -- eapply returns_bind; [apply returns_lift | cbv beta].
             eapply returns_bind; [apply returns_ext | cbv beta].
             apply returns_ret.
          -- reflexivity.
        * injection Hinp as <-. apply returns_ret.
      + cbv beta.
        eapply returns_bind; [apply returns_run_pass | cbv beta].
        eapply returns_bind; [apply returns_lift | cbv beta].
        eapply returns_bind; [rewrite Hassert; apply returns_lift | cbv beta].
        eapply returns_bind.
        * apply (returns_for_eachM p _ (fun acc c => add3 acc (sub c))
                   (fun c => pass_events p target_code with_attn (flipped c inp))).
          intros acc c.
          eapply returns_eq.
          -- eapply returns_bind; [apply returns_run_pass | cbv beta].
             apply returns_ret.
          -- apply app_nil_r.
        * cbv beta. apply returns_ret.
    - cbn. rewrite !app_nil_r. reflexivity. }
  eexists. split.
  - rewrite (Hrun w Hq Hp). f_equal. f_equal.
    rewrite fold_add3_components. unfold div3. cbn [fst snd].
    replace (length combos + 1)%nat with (2 ^ k)%nat by lia.
    subst subs. cbn [fmap list_fmap total].
    rewrite <- !list_fmap_compose. reflexivity.
  - unfold forward_inputs. rewrite !omap_app.
    change (omap _ (pass_events p target_code with_attn inp))
      with (forward_inputs (pass_events p target_code with_attn inp)).
    rewrite forward_inputs_pass.
    match goal with
    | |- context [omap ?f (combos ≫= ?g)] =>
        change (omap f (combos ≫= g)) with (forward_inputs (combos ≫= g))
    end.
    rewrite forward_inputs_passes.
    subst prefix. destruct props; reflexivity.
Qed.
End MirrorFacts.

(** Two mirror axes on a tile of four voxels: three flip combinations, four
    forward passes, and the mean of the four sub-predictions. *)
Lemma mirror_prediction_is_mean_witness :
  let x := Toy.tile [1; 2; 4; 3] in
  let w := Toy.world_with Toy.no_fault None in
  (1 ≤ length [1; 2]%nat)%nat
  ∧ quiet w
  ∧ length (axes_combinations [1; 2]%nat) = 3%nat
  ∧ ∃ evs,
      _internal_maybe_mirror_and_predict Toy.on_device x [1] None true w
      = (Ok (Toy.tile [4; 5; 7; 6], Toy.tile [2; 4; 8; 6], Toy.tile [1; 2; 4; 3]), after w evs)
      ∧ forward_inputs evs = [x; x; Toy.tile [3; 4; 2; 1]; Toy.tile [3; 4; 2; 1]].
Proof.
  intros x w.
  assert (Hq : quiet w) by (intros n _; reflexivity).
  destruct (mirror_prediction_is_mean (TL := Toy.tensors) (SC := Toy.scalars)
              (NW := Toy.network) (TK := Toy.toolkit) Toy.on_device x [1] None true [1; 2]%nat (Bare (TL := Toy.tensors) x) 1
              eq_refl eq_refl ltac:(cbn; lia)
              ltac:(repeat constructor; cbn; lia) eq_refl)
    as (Hlen & _ & _ & Hrun).
  destruct (Hrun w Hq eq_refl) as (evs & Hr & Hf).
  split; [cbn; lia|]. split; [exact Hq|]. split; [exact Hlen|].
  exists evs. split; [rewrite Hr; reflexivity | exact Hf].
Defined.

(** ** Computations that cannot return *)

Section Failing.
Context `{TL : TensorLib} `{SC : Scalar} `{NW : !Network} `{TK : !Toolkit}.



Lemma fails_raise {A} e : fails (raise (A := A) e).
Proof. intros w. reflexivity. Qed.

Lemma fails_lift {A} e : fails (lift (A := A) (Raise e)).
Proof. intros w. reflexivity. Qed.

Lemma fails_bind_l {A B} (m : M A) (f : A → M B) : fails m → fails (m ≫= f).
Proof.
  intros Hm w. specialize (Hm w). unfold mbind, M_bind.
  destruct (m w) as [[a|e] w']; [discriminate | reflexivity].
Qed.

Lemma fails_bind_r {A B} (m : M A) (f : A → M B) : (∀ a, fails (f a)) → fails (m ≫= f).
Proof.
  intros Hf w. unfold mbind, M_bind.
  destruct (m w) as [[a|e] w']; [apply Hf | reflexivity].
Qed.

(** A loop fails when the body fails on one of its elements. *)
Lemma fails_for_eachM {A B} (pre post : list B) (b : B) (a : A) (body : A → B → M A) :
  (∀ a, fails (body a b)) → fails (for_eachM (pre ++ b :: post) a body).
Proof.
  intros Hb. revert a. induction pre as [|c pre IH]; intros a; cbn [app for_eachM].
  - apply fails_bind_l, Hb.
  - apply fails_bind_r. intros a'. apply IH.
Qed.

(** *** The single-array path *)

(** C2, what the code does instead: [predict_single_npy_array] passes
    [predict_logits_from_preprocessed_data] the data alone, and the
    parameter [target_code] has no default. Whatever the image, the
    properties, the output path and the flag, the call raises: the
    [TypeError] of the missing argument once the case is preprocessed (or
    the failure of the preprocessing), before any prediction, export or
    conversion is made. *)
Theorem single_array_path_raises (self : predictor)
    (input_image : raw_image) (image_properties : raw_properties)
    (segmentation_previous_stage : option raw_image)
    (output_file_truncated : option string) (save_or_return_probabilities : bool)
    (w : world) :
  let run := predict_single_npy_array self input_image image_properties
               segmentation_previous_stage output_file_truncated
               save_or_return_probabilities w in
  fst run = Raise (default TypeError (faults w (clock w)))
  ∧ trace (snd run) = trace w ++ [Preprocess].
Proof.
  unfold predict_single_npy_array, mbind, M_bind, ext. cbn.
  destruct (faults w (clock w)); cbn; split; reflexivity.
Qed.

(** *** Records without an output path *)

(** Line 399 joins [ofile] with a folder name for every target sequence,
    before the branch on [ofile is not None] of line 438 is reached. *)
Lemma sweep_target_without_ofile_fails self save_probabilities data props r tgt_seq :
  fails (sweep_target self save_probabilities data None props r tgt_seq).
Proof.
  unfold sweep_target.
  apply fails_bind_r; intros tgt_code.
  apply fails_bind_r; intros plain.
  apply fails_bind_r; intros finetune.
  apply fails_bind_l. apply fails_lift.
Qed.

Lemma sweep_case_without_ofile_fails self save_probabilities st (rec : preprocessed) :
  ofile rec = None → (1 ≤ num_channel (data_properties rec))%nat →
  fails (sweep_case self save_probabilities st rec).
Proof.
  intros Hofile Hchannels. unfold sweep_case. rewrite Hofile.
  apply fails_bind_r; intros data.
  apply fails_bind_r; intros _.
  apply fails_bind_l.
  destruct (num_channel (data_properties rec)) as [|n]; [lia|].
  apply (fails_for_eachM [] (seq 1 n) 0%nat)
    with (body := sweep_target self save_probabilities data None (data_properties rec)).
  intros r. apply sweep_target_without_ofile_fails.
Qed.

(** C3, what the code does instead: when the iterator yields a record whose
    [ofile] is [None] (and whose case has at least one channel),
    [predict_from_data_iterator] raises in every world, whether the attribute
    of the PSNR table exists or not: no result is returned in memory. *)
Theorem record_without_ofile_fails (self : predictor)
    (before after_it : list preprocessed) (rec : preprocessed)
    (multithreaded save_probabilities : bool) (num_processes_segmentation_export : nat)
    (w : world) :
  ofile rec = None →
  (1 ≤ num_channel (data_properties rec))%nat →
  is_ok (fst (predict_from_data_iterator self (before ++ rec :: after_it) multithreaded
                save_probabilities num_processes_segmentation_export w)) = false.
Proof.
  intros Hofile Hchannels. revert w.
  change (fails (predict_from_data_iterator self (before ++ rec :: after_it) multithreaded
                   save_probabilities num_processes_segmentation_export)).
  unfold predict_from_data_iterator.
  apply fails_bind_r; intros _.
  apply fails_bind_l.
  apply fails_for_eachM. intros st.
  apply sweep_case_without_ofile_fails; assumption.
Qed.
End Failing.

(** ** The attribute of the PSNR table *)

Section Attribute.
Context `{TL : TensorLib} `{SC : Scalar} `{NW : !Network} `{TK : !Toolkit}.



Lemma with_psnr_same (w : world) : with_psnr (psnr w) w = w.
Proof. destruct w. reflexivity. Qed.



Lemma blind_ret {A} (a : A) : blind (mret a).
Proof. intros w t. reflexivity. Qed.

Lemma blind_raise {A} e : blind (raise (A := A) e).
Proof. intros w t. reflexivity. Qed.

Lemma blind_lift {A} (r : res A) : blind (lift r).
Proof. intros w t. reflexivity. Qed.

Lemma blind_ext e : blind (ext e).
Proof. intros w t. unfold ext. cbn. destruct (faults w (clock w)); reflexivity. Qed.

Lemma blind_get_loaded : blind get_loaded.
Proof. intros w t. reflexivity. Qed.

Lemma blind_set_loaded p : blind (set_loaded p).
Proof. intros w t. reflexivity. Qed.

Lemma blind_get_bound : blind get_tile_outputs_bound.
Proof. intros w t. reflexivity. Qed.

Lemma blind_set_bound b : blind (set_tile_outputs_bound b).
Proof. intros w t. reflexivity. Qed.

Lemma blind_bind {A B} (m : M A) (f : A → M B) :
  blind m → (∀ a, blind (f a)) → blind (m ≫= f).
Proof.
  intros Hm Hf w t. unfold mbind, M_bind. rewrite Hm.
  destruct (m w) as [[a|e] w']; cbn; [apply Hf | reflexivity].
Qed.

Lemma blind_try_except {A} (body : M A) (handler : exn → M A) :
  blind body → (∀ e, blind (handler e)) → blind (try_except body handler).
Proof.
  intros Hb Hh w t. unfold try_except. rewrite Hb.
  destruct (body w) as [[a|e] w']; cbn; [reflexivity | apply Hh].
Qed.

Lemma blind_for_eachM {A B} (l : list B) (a : A) (body : A → B → M A) :
  (∀ a b, blind (body a b)) → blind (for_eachM l a body).
Proof.
  intros Hbody. revert a. induction l as [|b l IH]; intros a; cbn [for_eachM].
  - apply blind_ret.
  - apply blind_bind; [apply Hbody | intros a'; apply IH].
Qed.

(** One step of a proof that a computation is blind: the rule of its head
    construct, after a case analysis on what it branches on. *)
Ltac blind_step :=
  match goal with
  | |- blind (mret _) => apply blind_ret
  | |- blind (raise _) => apply blind_raise
  | |- blind (lift _) => apply blind_lift
  | |- blind (ext _) => apply blind_ext
  | |- blind get_loaded => apply blind_get_loaded
  | |- blind (set_loaded _) => apply blind_set_loaded
  | |- blind get_tile_outputs_bound => apply blind_get_bound
  | |- blind (set_tile_outputs_bound _) => apply blind_set_bound
  | |- blind (_ ≫= _) => apply blind_bind; [|intros ?]
  | |- blind (try_except _ _) => apply blind_try_except; [|intros ?]
  | |- blind (for_eachM _ _ _) => apply blind_for_eachM; intros ? ?
  | |- blind (match ?x with _ => _ end) => destruct x
  end.

Lemma blind_run_pass target_code with_attn inp : blind (run_pass target_code with_attn inp).
Proof.
  destruct inp; cbn [run_pass]; unfold run_bare_pass, run_fused_pass; repeat blind_step.
Qed.

Lemma blind_mirror self x target_code props with_attn :
  blind (_internal_maybe_mirror_and_predict self x target_code props with_attn).
Proof.
  unfold _internal_maybe_mirror_and_predict.
  repeat first [apply blind_run_pass | blind_step].
Qed.

Lemma blind_internal self data slicers target_code do_on_device props with_attn :
  blind (_internal_predict_sliding_window_return_logits self data slicers target_code
           do_on_device props with_attn).
Proof.
  unfold _internal_predict_sliding_window_return_logits, sliding_window_body,
    sliding_window_tiles, sliding_window_handler, check_for_infs.
  repeat first [apply blind_mirror | blind_step].
Qed.

Lemma blind_sliding_window self input_image target_code props with_attn :
  blind (predict_sliding_window_return_logits self input_image target_code props with_attn).
Proof.
  unfold predict_sliding_window_return_logits, sliding_window_with_fallback,
    except_RuntimeError.
  repeat first [apply blind_internal | blind_step].
Qed.

Lemma blind_move3 d out : blind (move3 d out).
Proof. unfold move3. repeat blind_step. Qed.

Lemma blind_predict_logits self data target_code props with_attn :
  blind (predict_logits_from_preprocessed_data self data target_code props with_attn).
Proof.
  unfold predict_logits_from_preprocessed_data.
  repeat first [apply blind_sliding_window | apply blind_move3 | blind_step].
Qed.

Lemma blind_call_predict_logits self data target_code props with_attn :
  blind (call_predict_logits_from_preprocessed_data self data target_code props with_attn).
Proof.
  unfold call_predict_logits_from_preprocessed_data.
  repeat first [apply blind_predict_logits | blind_step].
Qed.

Lemma blind_submit r j : blind (submit r j).
Proof. unfold submit. repeat blind_step. Qed.

Lemma blind_collect r : blind (collect r).
Proof. unfold collect. repeat blind_step. Qed.



Lemma lockstep_blind {A} (m : M A) : blind m → lockstep m.
Proof.
  intros Hm w t. right. exists (fst (m w)), (snd (m w)), t.
  rewrite !Hm. split; reflexivity.
Qed.

Lemma lockstep_bind {A B} (m : M A) (f : A → M B) :
  lockstep m → (∀ a, lockstep (f a)) → lockstep (m ≫= f).
Proof.
  intros Hm Hf w t. unfold mbind, M_bind.
  destruct (Hm w t) as [[Hattr Hkeep] | (r & w' & t' & Hsome & Hnone)].
  - left. destruct (m (with_psnr None w)) as [[a|e] w1]; cbn in *; [discriminate|].
    injection Hattr as ->. split; [reflexivity | exact Hkeep].
  - rewrite Hsome, Hnone. destruct r as [a|e].
    + apply Hf.
    + right. exists (Raise e), w', t'. split; reflexivity.
Qed.

Lemma lockstep_ret_bind {A B} (a : A) (f : A → M B) :
  lockstep (f a) → lockstep (mret a ≫= f).
Proof. intros Hf w t. exact (Hf w t). Qed.

(** Reading the attribute ends the run that has none. *)
Lemma lockstep_get_psnr {B} (f : Report.table → M B) : lockstep (get_psnr ≫= f).
Proof. intros w t. left. split; reflexivity. Qed.

Lemma lockstep_for_eachM {A B} (l : list B) (a : A) (body : A → B → M A) :
  (∀ a b, lockstep (body a b)) → lockstep (for_eachM l a body).
Proof.
  intros Hbody. revert a. induction l as [|b l IH]; intros a; cbn [for_eachM].
  - apply lockstep_blind, blind_ret.
  - apply lockstep_bind; [apply Hbody | intros a'; apply IH].
Qed.

Ltac lockstep_step :=
  match goal with
  | |- lockstep (get_psnr ≫= _) => apply lockstep_get_psnr
  | |- lockstep (call_predict_logits_from_preprocessed_data _ _ _ _ _) =>
      apply lockstep_blind, blind_call_predict_logits
  | |- lockstep (submit _ _) => apply lockstep_blind, blind_submit
  | |- lockstep (collect _) => apply lockstep_blind, blind_collect
  | |- lockstep (mret _) => apply lockstep_blind, blind_ret
  | |- lockstep (raise _) => apply lockstep_blind, blind_raise
  | |- lockstep (lift _) => apply lockstep_blind, blind_lift
  | |- lockstep (ext _) => apply lockstep_blind, blind_ext
  | |- lockstep (_ ≫= _) => apply lockstep_bind; [|intros ?]
  | |- lockstep (for_eachM _ _ _) => apply lockstep_for_eachM; intros ? ?
  | |- lockstep (match ?x with _ => _ end) => destruct x
  end.

Lemma lockstep_sweep_source self save_probabilities data ofile props tgt_seq tgt_code st src :
  lockstep (sweep_source self save_probabilities data ofile props tgt_seq tgt_code st src).
Proof. unfold sweep_source. repeat lockstep_step. Qed.

Lemma lockstep_sweep_target self save_probabilities data ofile props r tgt_seq :
  lockstep (sweep_target self save_probabilities data ofile props r tgt_seq).
Proof.
  unfold sweep_target. repeat first [apply lockstep_sweep_source | lockstep_step].
Qed.

Lemma lockstep_sweep_case self save_probabilities st rec :
  lockstep (sweep_case self save_probabilities st rec).
Proof.
  unfold sweep_case. repeat first [apply lockstep_sweep_target | lockstep_step].
Qed.



Lemma blocked_get_psnr {B} (f : Report.table → M B) : blocked (get_psnr ≫= f).
Proof. intros w t. left. reflexivity. Qed.

Lemma blocked_bind_l {A B} (m : M A) (f : A → M B) : blocked m → blocked (m ≫= f).
Proof.
  intros Hm w t. unfold mbind, M_bind.
  destruct (Hm w t) as [Hattr | (e & Hnone & Hsome)].
  - left. destruct (m (with_psnr None w)) as [[a|e] w1]; cbn in *; [discriminate|].
    injection Hattr as ->. reflexivity.
  - right. exists e.
    destruct (m (with_psnr None w)) as [[a|e1] w1]; cbn in *; [discriminate|].
    destruct (m (with_psnr (Some t) w)) as [[a|e2] w2]; cbn in *; [discriminate|].
    injection Hnone as ->. injection Hsome as ->. split; reflexivity.
Qed.

Lemma blocked_bind_r {A B} (m : M A) (f : A → M B) :
  lockstep m → (∀ a, blocked (f a)) → blocked (m ≫= f).
Proof.
  intros Hm Hf w t. unfold mbind, M_bind.
  destruct (Hm w t) as [[Hattr _] | (r & w' & t' & Hsome & Hnone)].
  - left. destruct (m (with_psnr None w)) as [[a|e] w1]; cbn in *; [discriminate|].
    injection Hattr as ->. reflexivity.
  - rewrite Hsome, Hnone. destruct r as [a|e].
    + apply Hf.
    + right. exists e. split; reflexivity.
Qed.

Lemma blocked_predict_from_data_iterator self data_iterator multithreaded
    save_probabilities num_processes_segmentation_export :
  blocked (predict_from_data_iterator self data_iterator multithreaded
             save_probabilities num_processes_segmentation_export).
Proof.
  unfold predict_from_data_iterator.
  apply blocked_bind_r; [lockstep_step | intros _].
  apply blocked_bind_r; [apply lockstep_for_eachM; intros; apply lockstep_sweep_case | intros st].
  apply blocked_bind_r; [lockstep_step | intros ret].
  apply blocked_bind_r; [destruct multithreaded; lockstep_step | intros _].
  apply blocked_bind_l. unfold write_contribution_report. apply blocked_get_psnr.
Qed.

(** C10, as amended: on a predictor object without the attribute
    [one2one_translate_psnr], [predict_from_data_iterator] never returns a
    result; it raises [AttributeError] in every run that would have returned
    one had the attribute existed; and in every run it raises either
    [AttributeError] or the very exception that the same run raises on an
    object that has the attribute, whatever table the attribute holds. *)
Theorem missing_attribute_blocks_results (self : predictor)
    (data_iterator : list preprocessed) (multithreaded save_probabilities : bool)
    (num_processes_segmentation_export : nat) (w : world) :
  psnr w = None →
  let run := predict_from_data_iterator self data_iterator multithreaded
               save_probabilities num_processes_segmentation_export in
  is_ok (fst (run w)) = false
  ∧ (∀ t, is_ok (fst (run (with_psnr (Some t) w))) = true →
          fst (run w) = Raise AttributeError)
  ∧ (∀ t, fst (run w) = Raise AttributeError
          ∨ ∃ e, fst (run w) = Raise e
                 ∧ fst (run (with_psnr (Some t) w)) = Raise e).
Proof.
  intros Hnone run.
  assert (Hw : with_psnr None w = w) by (rewrite <- Hnone; apply with_psnr_same).
  pose proof (blocked_predict_from_data_iterator self data_iterator multithreaded
                save_probabilities num_processes_segmentation_export w) as Hb.
  fold run in Hb. rewrite Hw in Hb. split; [|split].
  - destruct (Hb (Report.empty_table 0)) as [-> | (e & -> & _)]; reflexivity.
  - intros t Hok. destruct (Hb t) as [Hattr | (e & _ & Hsome)]; [exact Hattr|].
    rewrite Hsome in Hok. discriminate.
  - exact Hb.
Qed.

(** A computation in lock-step leaves a missing attribute missing. *)
Lemma lockstep_keeps_absent {A} (m : M A) (w : world) :
  lockstep m → psnr w = None → psnr (snd (m w)) = None.
Proof.
  intros Hm Hnone.
  assert (Hw : with_psnr None w = w) by (rewrite <- Hnone; apply with_psnr_same).
  destruct (Hm w (Report.empty_table 0)) as [[_ Hkeep] | (r & w' & t' & _ & Hrun)];
    rewrite Hw in *; [exact Hkeep | rewrite Hrun; reflexivity].
Qed.

Lemma lockstep_predict_from_data_iterator self data_iterator multithreaded
    save_probabilities num_processes_segmentation_export :
  lockstep (predict_from_data_iterator self data_iterator multithreaded
              save_probabilities num_processes_segmentation_export).
Proof.
  unfold predict_from_data_iterator, write_contribution_report.
  repeat first [apply lockstep_sweep_case | lockstep_step].
Qed.

(** The attribute comes from [record_run] alone: without it before the call,
    it is still missing after [predict_from_data_iterator], after
    [predict_from_list_of_npy_arrays], after [predict_single_npy_array] and
    after a [predict_from_files] that is given no output folder or list. *)
Lemma attribute_stays_absent (self : predictor) (w : world) :
  psnr w = None →
  (∀ it mt sp n, psnr (snd (predict_from_data_iterator self it mt sp n w)) = None)
  ∧ (∀ images segs props names sp n,
       psnr (snd (predict_from_list_of_npy_arrays self images segs props names sp n w)) = None)
  ∧ (∀ image props seg out sp,
       psnr (snd (predict_single_npy_array self image props seg out sp w)) = None)
  ∧ (∀ isfile create_lists src sp overwrite n prev parts part,
       psnr (snd (predict_from_files self isfile create_lists src Lists.OutputNone
                    sp overwrite n prev parts part w)) = None).
Proof.
  intros Hnone. repeat split; intros.
  - apply lockstep_keeps_absent; [apply lockstep_predict_from_data_iterator | exact Hnone].
  - apply lockstep_keeps_absent; [apply lockstep_predict_from_data_iterator | exact Hnone].
  - apply lockstep_keeps_absent; [|exact Hnone].
    unfold predict_single_npy_array.
    repeat first [apply lockstep_blind, blind_move3 | lockstep_step].
  - apply lockstep_keeps_absent; [|exact Hnone].
    unfold predict_from_files. apply lockstep_ret_bind.
    repeat first [apply lockstep_predict_from_data_iterator | lockstep_step].
Qed.

End Attribute.

(** One case with an output path, on a predictor object without the
    attribute: with the attribute the run returns, without it the run raises
    [AttributeError]; against an object whose table is empty, where the run
    fails too, it raises [AttributeError] or the same exception. *)
Lemma missing_attribute_blocks_results_witness :
  let w := Toy.world_with Toy.no_fault None in
  let run := predict_from_data_iterator Toy.on_device [Toy.record_for (Some "out/case")]
               false false 1 in
  psnr w = None
  ∧ is_ok (fst (run (with_psnr (Some (Report.empty_table 1)) w))) = true
  ∧ is_ok (fst (run w)) = false
  ∧ fst (run w) = Raise AttributeError
  ∧ (fst (run w) = Raise AttributeError
     ∨ ∃ e, fst (run w) = Raise e
            ∧ fst (run (with_psnr (Some (Report.empty_table 0)) w)) = Raise e).
Proof.
  intros w run.
  destruct (missing_attribute_blocks_results (TL := Toy.tensors) (SC := Toy.scalars)
              (NW := Toy.network) (TK := Toy.toolkit)
              Toy.on_device [Toy.record_for (Some "out/case")] false false 1 w eq_refl)
    as (Hfail & Hattr & Hsame).
  assert (Hok : is_ok (fst (run (with_psnr (Some (Report.empty_table 1)) w))) = true)
    by (vm_compute; reflexivity).
  split; [reflexivity|]. split; [exact Hok|]. split; [exact Hfail|].
  split; [exact (Hattr (Report.empty_table 1) Hok)|].
  exact (Hsame (Report.empty_table 0)).
Defined.

(** C10, as stated, fails: a record without output path makes line 399
    raise [TypeError] before the attribute is ever read. *)
Lemma attribute_error_is_not_the_only_failure :
  ¬ (∀ (data_iterator : list preprocessed) (w : world),
       psnr w = None →
       fst (predict_from_data_iterator Toy.on_device data_iterator false false 1 w)
       = Raise AttributeError).
Proof.
  intros Hclaim.
  specialize (Hclaim [Toy.record_for None] (Toy.world_with Toy.no_fault None) eq_refl).
  vm_compute in Hclaim. discriminate.
Qed.

(** One case without output path, on a predictor whose attribute exists: the
    run raises the [TypeError] of [os.path.join(None, ...)]. *)
Lemma record_without_ofile_fails_witness :
  let w := Toy.world_with Toy.no_fault (Some (Report.empty_table 1)) in
  let run := predict_from_data_iterator Toy.on_device ([] ++ Toy.record_for None :: [])
               false false 1 w in
  ofile (Toy.record_for None) = None
  ∧ (1 ≤ num_channel (data_properties (Toy.record_for None)))%nat
  ∧ is_ok (fst run) = false
  ∧ fst run = Raise TypeError.
Proof.
  intros w run.
  split; [reflexivity|]. split; [cbn; lia|]. split.
  - exact (record_without_ofile_fails (TL := Toy.tensors) (SC := Toy.scalars)
             (NW := Toy.network) (TK := Toy.toolkit)
             Toy.on_device [] [] (Toy.record_for None) false false 1 w
             eq_refl ltac:(cbn; lia)).
  - vm_compute. reflexivity.
Defined.

(** ** The fallback to host memory and the guard against infinite values *)

Section Fallback.
Context `{TL : TensorLib} `{SC : Scalar} `{NW : !Network} `{TK : !Toolkit}.

Lemma ext_ok e (w : world) : faults w (clock w) = None → ext e w = (Ok tt, after w [e]).
Proof. intros Hf. unfold ext. rewrite Hf. reflexivity. Qed.

Lemma ext_raise e (w : world) x :
  faults w (clock w) = Some x → ext e w = (Raise x, after w [e]).
Proof. intros Hf. unfold ext. rewrite Hf. reflexivity. Qed.

Lemma bind_ok {A B} (m : M A) (f : A → M B) w a w' :
  m w = (Ok a, w') → (m ≫= f) w = f a w'.
Proof. intros Hm. unfold mbind, M_bind. rewrite Hm. reflexivity. Qed.

Lemma bind_raise {A B} (m : M A) (f : A → M B) w e w' :
  m w = (Raise e, w') → (m ≫= f) w = (Raise e, w').
Proof. intros Hm. unfold mbind, M_bind. rewrite Hm. reflexivity. Qed.

Lemma bind_ok_inv {A B} (m : M A) (f : A → M B) w b w' :
  (m ≫= f) w = (Ok b, w') → ∃ a w1, m w = (Ok a, w1) ∧ f a w1 = (Ok b, w').
Proof.
  unfold mbind, M_bind. destruct (m w) as [[a|e] w1]; [|discriminate].
  intros Hf. exists a, w1. split; [reflexivity | exact Hf].
Qed.

Lemma ext_ok_inv e (w w' : world) a : ext e w = (Ok a, w') → w' = after w [e].
Proof.
  unfold ext. destruct (faults w (clock w)); [discriminate|]. intros [= _ <-]. reflexivity.
Qed.





(** C6, what the code does instead: the predictor keeps its results on the
    device, and the first allocation of the accumulators (line 756) runs out
    of memory. The handler's [del] meets the unbound [prediction_mask],
    so the execution ends in [UnboundLocalError], which [except RuntimeError]
    does not catch: the call raises it without a second execution on host
    memory. *)
Theorem oom_before_first_tile_skips_fallback (self : predictor)
    (input_image data : tensor) (slicer_revert_padding : slicer) (slicers : list slicer)
    (target_code : list Z) (props : option properties) (with_attn : bool) (w : world) :
  perform_everything_on_device self = true →
  ndim input_image = 4%nat →
  pad_nd_image input_image (patch_size self) = (data, slicer_revert_padding) →
  _internal_get_sliding_window_slicers self (drop 1 (shape data)) = Ok slicers →
  (∀ i, (i < 4)%nat → faults w (i + clock w)%nat = None) →
  faults w (4 + clock w)%nat = Some RuntimeError →
  let run := predict_sliding_window_return_logits self input_image target_code props
               with_attn w in
  fst run = Raise UnboundLocalError
  ∧ trace (snd run)
    = trace w ++ [NetworkTo (self_device self); EmptyCache (self_device self);
                  EmptyCache (self_device self); MoveImage (self_device self) data;
                  Allocate (self_device self) (1%nat :: drop 1 (shape data))]
  ∧ executions (trace (snd run)) = executions (trace w) ++ [self_device self].
Proof.
  intros Hdev Hndim Hpad Hslicers Hcalm Hoom run.
  assert (Hrun : run = (Raise UnboundLocalError,
            with_bound false (after w [NetworkTo (self_device self); EmptyCache (self_device self);
                  EmptyCache (self_device self); MoveImage (self_device self) data;
                  Allocate (self_device self) (1%nat :: drop 1 (shape data))]))).
  { subst run. unfold predict_sliding_window_return_logits.
    erewrite bind_ok by (apply ext_ok, (Hcalm 0%nat); lia).
    erewrite bind_ok by (apply ext_ok, (Hcalm 1%nat); lia).
    rewrite Hndim. cbn [Nat.eqb assert].
    erewrite bind_ok by reflexivity.
    rewrite Hpad, Hslicers.
    erewrite bind_ok by reflexivity.
    erewrite bind_raise; [reflexivity|].
    unfold sliding_window_with_fallback. rewrite Hdev. cbn [andb device_differs_from_str].
    unfold except_RuntimeError, try_except,
      _internal_predict_sliding_window_return_logits.
    erewrite bind_ok by reflexivity.
    unfold try_except, sliding_window_body, sliding_window_tiles.
    erewrite bind_raise.
    2:{ erewrite bind_ok by (apply ext_ok, (Hcalm 2%nat); lia).
        erewrite bind_ok by (apply ext_ok, (Hcalm 3%nat); lia).
        erewrite bind_raise by (apply ext_raise, Hoom). reflexivity. }
    unfold sliding_window_handler, get_tile_outputs_bound, raise, mbind, M_bind.
    cbn. unfold with_bound, after. cbn. rewrite <- !app_assoc. reflexivity. }
  rewrite Hrun. cbn [fst snd with_bound after trace].
  split; [reflexivity|]. split; [reflexivity|].
  unfold executions. rewrite omap_app. reflexivity.
Qed.

(** *** What the wrapper does with a failed execution *)

Lemma fallback_after_runtime_error (self : predictor) data slicers target_code props with_attn
    (w w1 : world) :
  perform_everything_on_device self = true →
  _internal_predict_sliding_window_return_logits self data slicers target_code true
    props with_attn w = (Raise RuntimeError, w1) →
  sliding_window_with_fallback self data slicers target_code props with_attn w
  = (ext (EmptyCache (self_device self));;
     _internal_predict_sliding_window_return_logits self data slicers target_code false
       props with_attn) w1.
Proof.
  intros Hdev Hfirst. unfold sliding_window_with_fallback, except_RuntimeError, try_except.
  rewrite Hdev. cbn [andb device_differs_from_str]. rewrite Hfirst.
  rewrite decide_True by reflexivity. reflexivity.
Qed.

Lemma no_fallback_for_other_errors (self : predictor) data slicers target_code props with_attn
    (w w1 : world) (e : exn) :
  e ≠ RuntimeError →
  _internal_predict_sliding_window_return_logits self data slicers target_code
    (perform_everything_on_device self) props with_attn w = (Raise e, w1) →
  sliding_window_with_fallback self data slicers target_code props with_attn w
  = (Raise e, w1).
Proof.
  intros Hne Hfirst. unfold sliding_window_with_fallback, except_RuntimeError, try_except.
  destruct (perform_everything_on_device self); cbn [andb device_differs_from_str];
    rewrite Hfirst; [|reflexivity].
  rewrite decide_False by exact Hne. reflexivity.
Qed.

Lemma no_fallback_on_host (self : predictor) data slicers target_code props with_attn :
  perform_everything_on_device self = false →
  sliding_window_with_fallback self data slicers target_code props with_attn
  = _internal_predict_sliding_window_return_logits self data slicers target_code false
      props with_attn.
Proof. intros Hdev. unfold sliding_window_with_fallback. rewrite Hdev. reflexivity. Qed.

(** *** The guard *)

Lemma for_eachM_app {A B} (l1 l2 : list B) (a : A) (body : A → B → M A) (w : world) :
  for_eachM (l1 ++ l2) a body w = (for_eachM l1 a body ≫= fun a' => for_eachM l2 a' body) w.
Proof.
  revert a w. induction l1 as [|b l1 IH]; intros a w; cbn [app for_eachM].
  - reflexivity.
  - unfold mbind, M_bind. destruct (body a b w) as [[a'|e] w']; [apply IH | reflexivity].
Qed.

(** After a tile loop that went through at least one tile, the locals
    [prediction_mask] and [latent_space] are bound. *)
Lemma tiles_bind_outputs (self : predictor) data slicers target_code results_device
    props with_attn (w w1 : world) (acc : buffers) :
  slicers ≠ [] →
  sliding_window_tiles self data slicers target_code results_device props with_attn w
  = (Ok acc, w1) →
  tile_outputs_bound w1 = true.
Proof.
  intros Hne. destruct (exists_last Hne) as (front & sl & ->).
  unfold sliding_window_tiles. intros Hrun.
  do 7 (apply bind_ok_inv in Hrun as (? & ? & _ & Hrun)).
  rewrite for_eachM_app in Hrun.
  apply bind_ok_inv in Hrun as (acc' & w' & _ & Hlast).
  cbn [for_eachM] in Hlast.
  apply bind_ok_inv in Hlast as (a & w'' & Hbody & Hret).
  injection Hret as _ <-.
  apply bind_ok_inv in Hbody as (? & ? & _ & Hbody).
  apply bind_ok_inv in Hbody as (out & ? & _ & Hbody).
  apply bind_ok_inv in Hbody as (? & wb & Hset & Hbody).
  injection Hset as _ <-.
  apply bind_ok_inv in Hbody as (? & ? & ->%ext_ok_inv & Hbody).
  apply bind_ok_inv in Hbody as (? & ? & ->%ext_ok_inv & Hbody).
  apply bind_ok_inv in Hbody as (? & ? & ->%ext_ok_inv & Hbody).
  injection Hbody as _ <-. reflexivity.
Qed.

(** The execution never hands back translation logits with an infinite
    value. *)
Lemma internal_returns_finite (self : predictor) data slicers target_code do_on_device
    props with_attn (w : world) out :
  fst (_internal_predict_sliding_window_return_logits self data slicers target_code
         do_on_device props with_attn w) = Ok out →
  any_isinf (fst (fst out)) = false.
Proof.
  unfold _internal_predict_sliding_window_return_logits, mbind, M_bind,
    set_tile_outputs_bound, try_except, sliding_window_body.
  cbn. unfold mbind, M_bind.
  destruct (sliding_window_tiles _ _ _ _ _ _ _ _) as [[acc|e] w1].
  - unfold check_for_infs.
    destruct (any_isinf (fst (fst (normalize acc)))) eqn:Hinf; cbn.
    + unfold sliding_window_handler, mbind, M_bind, get_tile_outputs_bound.
      destruct (tile_outputs_bound w1); cbn; [|discriminate].
      unfold ext. cbn. destruct (faults w1 (clock w1)); cbn; [discriminate|].
      destruct (faults w1 (S (clock w1))); cbn; discriminate.
    + intros [= <-]. exact Hinf.
  - unfold sliding_window_handler, mbind, M_bind, get_tile_outputs_bound.
    destruct (tile_outputs_bound w1); cbn; [|discriminate].
    unfold ext. cbn. destruct (faults w1 (clock w1)); cbn; [discriminate|].
    destruct (faults w1 (S (clock w1))); cbn; discriminate.
Qed.

(** C7, as amended: the execution of the sliding window never returns
    translation logits with an infinite value. When the normalized logits of
    an execution over at least one tile hold one (and the cleanup goes
    through), the execution raises [RuntimeError]; nothing replaces the
    value. The wrapper treats this error as any [RuntimeError]: with the
    results kept on the device it runs the execution once more on host
    memory and gives whatever that second execution gives; with the results
    on the host it propagates the error. *)
Theorem infinite_logits_raise_and_are_retried_once (self : predictor)
    (data : tensor) (slicers : list slicer) (target_code : list Z)
    (props : option properties) (with_attn : bool) (w w1 : world) (acc : buffers) :
  let results_device := if perform_everything_on_device self then self_device self else Cpu in
  slicers ≠ [] →
  sliding_window_tiles self data slicers target_code results_device props with_attn
    (with_bound false w) = (Ok acc, w1) →
  any_isinf (fst (fst (normalize acc))) = true →
  faults w1 (clock w1) = None →
  faults w1 (S (clock w1)) = None →
  let w2 := after w1 [EmptyCache (self_device self); EmptyCache results_device] in
  _internal_predict_sliding_window_return_logits self data slicers target_code
    (perform_everything_on_device self) props with_attn w = (Raise RuntimeError, w2)
  ∧ sliding_window_with_fallback self data slicers target_code props with_attn w
    = (if perform_everything_on_device self
       then (ext (EmptyCache (self_device self));;
             _internal_predict_sliding_window_return_logits self data slicers target_code
               false props with_attn) w2
       else (Raise RuntimeError, w2))
  ∧ (∀ out, fst (sliding_window_with_fallback self data slicers target_code props
                   with_attn w) = Ok out →
            any_isinf (fst (fst out)) = false).
Proof.
  intros results_device Hne Htiles Hinf Hc0 Hc1 w2.
  assert (Hbound : tile_outputs_bound w1 = true)
    by (eapply tiles_bind_outputs; eassumption).
  assert (Hfirst : _internal_predict_sliding_window_return_logits self data slicers
                     target_code (perform_everything_on_device self) props with_attn w
                   = (Raise RuntimeError, w2)).
  { unfold _internal_predict_sliding_window_return_logits.
    erewrite bind_ok by reflexivity.
    unfold try_except, sliding_window_body.
    erewrite bind_ok by exact Htiles.
    unfold check_for_infs. rewrite Hinf. cbn [raise].
    unfold sliding_window_handler.
    erewrite bind_ok by (unfold get_tile_outputs_bound; rewrite Hbound; reflexivity).
    cbn iota.
    erewrite bind_ok by (apply ext_ok, Hc0).
    erewrite bind_ok by (apply ext_ok, Hc1).
    unfold raise. rewrite after_after. reflexivity. }
  split; [exact Hfirst|]. split.
  - destruct (perform_everything_on_device self) eqn:Hdev.
    + apply fallback_after_runtime_error; assumption.
    + rewrite no_fallback_on_host by exact Hdev. exact Hfirst.
  - intros out. unfold sliding_window_with_fallback, except_RuntimeError, try_except.
    destruct (perform_everything_on_device self) eqn:Hdev;
      cbn [andb device_differs_from_str]; rewrite Hfirst.
    + rewrite decide_True by reflexivity. unfold mbind, M_bind.
      destruct (ext _ w2) as [[[]|e] w3]; [|discriminate].
      apply internal_returns_finite.
    + discriminate.
Qed.
End Fallback.

(** The first allocation fails with an out-of-memory [RuntimeError] on a
    predictor that keeps its results on the device: the call ends in
    [UnboundLocalError] after a single execution. *)
Lemma oom_before_first_tile_skips_fallback_witness :
  let w := Toy.world_with (Toy.fault_at 4 RuntimeError) None in
  let run := predict_sliding_window_return_logits Toy.on_device
               (Toy.volume [1; 2; 3; 4; 5; 6]) [1] None true w in
  perform_everything_on_device Toy.on_device = true
  ∧ faults w 4%nat = Some RuntimeError
  ∧ fst run = Raise UnboundLocalError
  ∧ executions (trace (snd run)) = [Cuda].
Proof.
  intros w run.
  assert (Hcalm : ∀ i, (i < 4)%nat → faults w (i + clock w)%nat = None).
  { intros i Hi. cbn. unfold Toy.fault_at.
    destruct (Nat.eqb_spec (i + 0) 4); [lia | reflexivity]. }
  destruct (oom_before_first_tile_skips_fallback (TL := Toy.tensors) (SC := Toy.scalars)
              (NW := Toy.network) (TK := Toy.toolkit)
              Toy.on_device (Toy.volume [1; 2; 3; 4; 5; 6]) _ _ _ [1] None true w
              eq_refl eq_refl eq_refl eq_refl Hcalm eq_refl)
    as (Hraise & _ & Hexec).
  split; [reflexivity|]. split; [reflexivity|]. split; [exact Hraise | exact Hexec].
Defined.



Lemma infinite_logits_raise_and_are_retried_once_witness :
  let w := Toy.world_with Toy.no_fault None in
  hot_slicers ≠ []
  ∧ ∃ acc w1,
      sliding_window_tiles Toy.on_device hot_volume hot_slicers [1] Cuda None true
        (with_bound false w) = (Ok acc, w1)
      ∧ any_isinf (fst (fst (normalize acc))) = true
      ∧ fst (_internal_predict_sliding_window_return_logits Toy.on_device hot_volume
               hot_slicers [1] true None true w) = Raise RuntimeError
      ∧ sliding_window_with_fallback Toy.on_device hot_volume hot_slicers [1] None true w
        = (ext (EmptyCache Cuda);;
           _internal_predict_sliding_window_return_logits Toy.on_device hot_volume
             hot_slicers [1] false None true)
            (after w1 [EmptyCache Cuda; EmptyCache Cuda]).
Proof.
  intros w.
  assert (Hne : hot_slicers ≠ []) by discriminate.
  split; [exact Hne|].
  assert (Hok : is_ok (fst (sliding_window_tiles Toy.on_device hot_volume
                               hot_slicers [1] Cuda None true (with_bound false w))) = true)
    by (vm_compute; reflexivity).
  assert (Hinf : match fst (sliding_window_tiles Toy.on_device hot_volume
                              hot_slicers [1] Cuda None true (with_bound false w)) with
                 | Ok acc => any_isinf (fst (fst (normalize acc)))
                 | Raise _ => false
                 end = true)
    by (vm_compute; reflexivity).
  assert (Hcalm : ∀ n, faults (snd (sliding_window_tiles Toy.on_device hot_volume
                                      hot_slicers [1] Cuda None true
                                      (with_bound false w))) n = None)
    by (intros n; vm_compute; reflexivity).
  destruct (sliding_window_tiles Toy.on_device hot_volume hot_slicers [1] Cuda None true
              (with_bound false w)) as [[acc|e] w1] eqn:Htiles; [|discriminate].
  cbn [fst snd] in Hinf, Hcalm.
  destruct (infinite_logits_raise_and_are_retried_once (TL := Toy.tensors)
              (SC := Toy.scalars) (NW := Toy.network) (TK := Toy.toolkit)
              Toy.on_device hot_volume hot_slicers [1] None true w w1 acc
              Hne Htiles Hinf (Hcalm _) (Hcalm _)) as (Hfirst & Hfallback & _).
  exists acc, w1. split; [reflexivity|]. split; [exact Hinf|].
  split; [exact (f_equal fst Hfirst) | exact Hfallback].
Defined.

(** C7, as stated, fails in its last part: on a predictor that keeps its
    results on the device, the execution whose logits overflow is run a
    second time, on host memory, before the error reaches the caller. *)
Lemma infinite_logits_are_retried_on_device :
  let w := Toy.world_with Toy.no_fault None in
  let run := predict_sliding_window_return_logits Toy.on_device hot_volume [1] None true w in
  fst (_internal_predict_sliding_window_return_logits Toy.on_device hot_volume
         hot_slicers [1] true None true w) = Raise RuntimeError
  ∧ fst run = Raise RuntimeError
  ∧ executions (trace (snd run)) = [Cuda; Cpu]
  ∧ ¬ (length (executions (trace (snd run))) ≤ 1)%nat.
Proof.
  intros w run.
  assert (Hexec : executions (trace (snd run)) = [Cuda; Cpu]) by (vm_compute; reflexivity).
  split; [vm_compute; reflexivity|]. split; [vm_compute; reflexivity|].
  split; [exact Hexec|]. rewrite Hexec. cbn. lia.
Qed.

(** * Further properties of the code *)

(** ** Sharding and naming of the cases *)

Section Shards.
Variable isfile : string → bool.
Variable create_lists : string → string → list (list string).
Variable file_ending : string.

(** The element at position [j] of a strided slice is the element at
    position [k + j * step] of the list. *)
Lemma stride_lookup {A} (step k j : nat) (l : list A) :
  (0 < step)%nat → stride step k l !! j = l !! (k + j * step)%nat.
Proof.
  intros Hstep. revert k j. induction l as [|a l IH]; intros k j; cbn [stride].
  - rewrite !lookup_nil. reflexivity.
  - destruct k as [|k].
    + destruct j as [|j]; [reflexivity|].
      cbn [lookup list_lookup]. rewrite IH.
      replace (0 + S j * step)%nat with (S (step - 1 + j * step)) by lia. reflexivity.
    + rewrite IH. reflexivity.
Qed.

Lemma slice_lookup {A} (l part : list A) (start step j : nat) :
  slice_from_step l start step = Ok part → part !! j = l !! (start + j * step)%nat.
Proof.
  unfold slice_from_step. destruct step as [|step]; [discriminate|].
  intros [= <-]. rewrite stride_lookup by lia. rewrite lookup_drop. f_equal.
Qed.

Lemma comprehension_ok {A B} (f : A → res B) (g : A → B) (l : list A) :
  Forall (fun a => f a = Ok (g a)) l → comprehension f l = Ok (g <$> l).
Proof.
  induction 1 as [|a l Ha _ IH]; [reflexivity|].
  cbn. rewrite Ha. cbn. rewrite IH. reflexivity.
Qed.

Lemma comprehension_raises {A B} (f : A → res B) (pre post : list A) (a : A) (e : exn) bs :
  comprehension f pre = Ok bs → f a = Raise e →
  comprehension f (pre ++ a :: post) = Raise e.
Proof.
  revert bs. induction pre as [|b pre IH]; intros bs Hpre Ha; cbn.
  - rewrite Ha. reflexivity.
  - cbn in Hpre. destruct (f b); [|discriminate]. cbn in *.
    destruct (comprehension f pre) eqn:Hc; [|discriminate].
    rewrite (IH _ eq_refl Ha). reflexivity.
Qed.

Lemma caseid_nonempty (case : list string) :
  case ≠ [] → Lists.caseid file_ending case = Ok (caseid_of file_ending case).
Proof. destruct case; [congruence|]. reflexivity. Qed.

(** For a part identifier that is not negative and a positive number of
    parts, the slice over the integers is the slice over the naturals. *)
Lemma int_slice_natural {A} (l : list A) (start step : Z) :
  (0 ≤ start)%Z → (0 < step)%Z →
  IntLists.slice_from_step l start step
  = slice_from_step l (Z.to_nat start) (Z.to_nat step).
Proof.
  intros Hstart Hstep. unfold IntLists.slice_from_step, slice_from_step.
  destruct (Z.eqb_spec step 0) as [|_]; [lia|].
  destruct (Z.ltb_spec 0 step) as [_|]; [|lia].
  destruct (Z.ltb_spec start 0) as [|_]; [lia|].
  destruct (Z.to_nat step) as [|k] eqn:Hk; [lia|]. f_equal. f_equal.
  destruct (Z.le_gt_cases start (Z.of_nat (length l))) as [Hle|Hgt].
  - rewrite Z.min_l by exact Hle. reflexivity.
  - rewrite Z.min_r by lia. rewrite Nat2Z.id.
    rewrite !drop_ge by lia. reflexivity.
Qed.

Lemma int_manage_natural (src : Lists.source_spec) (out : Lists.output_spec)
    (prev : option string) (overwrite : bool) (part_id num_parts : Z)
    (save_probabilities : bool) :
  (0 ≤ part_id)%Z → (0 < num_parts)%Z →
  IntLists._manage_input_and_output_lists isfile create_lists file_ending
    src out prev overwrite part_id num_parts save_probabilities
  = Lists._manage_input_and_output_lists isfile create_lists file_ending
      src out prev overwrite (Z.to_nat part_id) (Z.to_nat num_parts) save_probabilities.
Proof.
  intros Hid Hparts.
  unfold IntLists._manage_input_and_output_lists, Lists._manage_input_and_output_lists.
  rewrite int_slice_natural by assumption. reflexivity.
Qed.

Lemma drop_to_last {A} (l : list A) (a : A) :
  last l = Some a → drop (length l - 1) l = [a].
Proof.
  induction l as [|b l IH]; [discriminate|].
  destruct l as [|c l].
  - intros [= ->]. reflexivity.
  - intros Hlast. cbn [length]. replace (S (S (length l)) - 1)%nat with (S (length l)) by lia.
    cbn [drop]. rewrite <- (IH Hlast). cbn [length]. f_equal. lia.
Qed.

(** X1: [part_id] and [num_parts] are integers. With
    [0 <= part_id < num_parts] and file groups that are not empty, the call
    for part [part_id] keeps the cases at the positions [part_id],
    [part_id + num_parts], [part_id + 2 * num_parts], ... of the list, in
    order: case [i] is in the part exactly when
    [i mod num_parts = part_id], so every case belongs to one part and to no
    other. A negative [part_id] is not rejected: the part [-1] is the last
    case alone. *)
Theorem shards_partition_the_cases (cases : list (list string)) (prev : option string)
    (part_id num_parts : Z) (save_probabilities : bool) :
  ((0 ≤ part_id < num_parts)%Z →
   Forall (fun case => case ≠ []) cases →
   ∃ part segs,
     IntLists._manage_input_and_output_lists isfile create_lists file_ending
       (Lists.SourceLists cases) Lists.OutputNone prev true part_id num_parts
       save_probabilities = Ok (part, None, segs)
     ∧ length segs = length part
     ∧ (∀ j : nat, part !! j = cases !! Z.to_nat (part_id + Z.of_nat j * num_parts))
     ∧ (∀ i : nat, (i < length cases)%nat →
          (∃ j : nat, (j < length part)%nat
                      ∧ (part_id + Z.of_nat j * num_parts)%Z = Z.of_nat i)
          ↔ (Z.of_nat i mod num_parts)%Z = part_id))
  ∧ (part_id = (-1)%Z → (0 < num_parts)%Z →
     ∀ case, last cases = Some case → case ≠ [] →
       ∃ segs,
         IntLists._manage_input_and_output_lists isfile create_lists file_ending
           (Lists.SourceLists cases) Lists.OutputNone prev true part_id num_parts
           save_probabilities = Ok ([case], None, segs)
         ∧ length segs = 1%nat).
Proof.
  split.
  - intros [Hid0 Hid] Hne.
    rewrite int_manage_natural by lia.
    set (p := Z.to_nat part_id). set (k := Z.to_nat num_parts).
    assert (Hk : (0 < k)%nat) by (subst k; lia).
    assert (Hp : (p < k)%nat) by (subst p k; lia).
    destruct (slice_from_step cases p k) as [part|] eqn:Hslice;
      [|destruct k; [lia | discriminate]].
    assert (Hlookup : ∀ j, part !! j = cases !! (p + j * k)%nat)
      by (intros j; eapply slice_lookup; exact Hslice).
    assert (Hpart : Forall (fun case => case ≠ []) part).
    { rewrite Forall_forall in *. intros c Hc.
      apply list_elem_of_lookup in Hc as [j Hj]. rewrite Hlookup in Hj.
      apply Hne. eapply list_elem_of_lookup_2. exact Hj. }
    assert (Hids : comprehension (Lists.caseid file_ending) part
                   = Ok (caseid_of file_ending <$> part)).
    { apply comprehension_ok. eapply Forall_impl; [exact Hpart|].
      intros c Hc. apply caseid_nonempty, Hc. }
    assert (Hpos : ∀ j : nat, Z.to_nat (part_id + Z.of_nat j * num_parts) = (p + j * k)%nat)
      by (intros j; subst p k; nia).
    eexists part, _. split.
    { unfold Lists._manage_input_and_output_lists. rewrite Hslice. cbn.
      rewrite Hids. cbn. reflexivity. }
    split; [rewrite !length_fmap; reflexivity|].
    split; [intros j; rewrite Hpos; apply Hlookup|].
    intros i Hi. split.
    + intros (j & _ & Hj). rewrite <- Hj, Z.mod_add by lia. apply Z.mod_small. lia.
    + intros Hmod. exists (Z.to_nat (Z.of_nat i / num_parts)).
      pose proof (Z.div_mod (Z.of_nat i) num_parts ltac:(lia)) as Hdiv.
      pose proof (Z.div_pos (Z.of_nat i) num_parts ltac:(lia) ltac:(lia)) as Hq.
      assert (Hi' : (part_id + Z.of_nat (Z.to_nat (Z.of_nat i / num_parts)) * num_parts)%Z
                    = Z.of_nat i) by (rewrite Z2Nat.id by exact Hq; lia).
      split; [|exact Hi'].
      apply lookup_lt_is_Some. rewrite Hlookup, <- Hpos, Hi', Nat2Z.id.
      apply lookup_lt_is_Some, Hi.
  - intros -> Hparts case Hlast Hne.
    assert (Hlen : (0 < length cases)%nat) by (destruct cases; [discriminate | cbn; lia]).
    assert (Hslice : IntLists.slice_from_step cases (-1) num_parts = Ok [case]).
    { unfold IntLists.slice_from_step.
      destruct (Z.eqb_spec num_parts 0) as [|_]; [lia|].
      destruct (Z.ltb_spec 0 num_parts) as [_|]; [|lia].
      change (-1 <? 0)%Z with true. cbv iota.
      rewrite Z.max_l by lia.
      replace (Z.to_nat (-1 + Z.of_nat (length cases))) with (length cases - 1)%nat by lia.
      rewrite (drop_to_last cases case Hlast). reflexivity. }
    unfold IntLists._manage_input_and_output_lists. rewrite Hslice. cbn.
    destruct case as [|f case]; [congruence|]. cbn.
    eexists. split; reflexivity.
Qed.

(** X2: the two ways the list management raises before it filters anything:
    [num_parts = 0] is the [ValueError] of a zero slice step, whatever the
    other arguments; and a file group without files in the selected part is
    an [IndexError], whatever the output specification. *)
Theorem list_management_rejects (src : Lists.source_spec) (out : Lists.output_spec)
    (prev : option string) (overwrite : bool) (part_id num_parts : nat)
    (save_probabilities : bool) :
  (num_parts = 0%nat →
   Lists._manage_input_and_output_lists isfile create_lists file_ending
     src out prev overwrite part_id num_parts save_probabilities = Raise ValueError)
  ∧ (∀ cases part,
       src = Lists.SourceLists cases →
       slice_from_step cases part_id num_parts = Ok part →
       [] ∈ part →
       Lists._manage_input_and_output_lists isfile create_lists file_ending
         src out prev overwrite part_id num_parts save_probabilities = Raise IndexError).
Proof.
  split.
  - intros ->. unfold Lists._manage_input_and_output_lists, slice_from_step. reflexivity.
  - intros cases part -> Hslice Hempty.
    unfold Lists._manage_input_and_output_lists. rewrite Hslice. cbn.
    assert (Hids : comprehension (Lists.caseid file_ending) part = Raise IndexError).
    { clear Hslice. induction part as [|c part IH]; [inversion Hempty|].
      cbn. destruct c as [|f c].
      - reflexivity.
      - cbn. rewrite IH; [reflexivity|].
        apply elem_of_cons in Hempty as [Habs|Hin]; [discriminate | exact Hin]. }
    rewrite Hids. reflexivity.
Qed.

(** X3: an explicit list of output names is returned whole, whatever the
    part: only the source groups and the previous-stage files are strided.
    With at least two parts and two cases, the call with [overwrite=True]
    returns fewer source groups than output names. *)
Theorem output_list_is_not_sharded (cases : list (list string)) (outputs : list string)
    (prev : option string) (part_id num_parts : nat) (save_probabilities : bool) :
  (2 ≤ num_parts)%nat → (2 ≤ length cases)%nat → length outputs = length cases →
  Forall (fun case => case ≠ []) cases →
  ∃ part segs,
    Lists._manage_input_and_output_lists isfile create_lists file_ending
      (Lists.SourceLists cases) (Lists.OutputList outputs) prev true part_id num_parts
      save_probabilities = Ok (part, Some outputs, segs)
    ∧ length segs = length part
    ∧ (length part < length outputs)%nat.
Proof.
  intros Hparts Hcases Hlen Hne.
  destruct (slice_from_step cases part_id num_parts) as [part|] eqn:Hslice;
    [|destruct num_parts; [lia | discriminate]].
  assert (Hlookup : ∀ j, part !! j = cases !! (part_id + j * num_parts)%nat)
    by (intros j; eapply slice_lookup; exact Hslice).
  assert (Hpart : Forall (fun case => case ≠ []) part).
  { rewrite Forall_forall in *. intros c Hc.
    apply list_elem_of_lookup in Hc as [j Hj]. rewrite Hlookup in Hj.
    apply Hne. eapply list_elem_of_lookup_2. exact Hj. }
  assert (Hids : comprehension (Lists.caseid file_ending) part = Ok (caseid_of file_ending <$> part)).
  { apply comprehension_ok. eapply Forall_impl; [exact Hpart|].
    intros c Hc. apply caseid_nonempty, Hc. }
  eexists part, _. split.
  { unfold Lists._manage_input_and_output_lists. rewrite Hslice. cbn.
    rewrite Hids. cbn. reflexivity. }
  split; [rewrite !length_fmap; reflexivity|].
  rewrite Hlen.
  destruct (decide (length part < length cases)%nat) as [Hlt|Hge]; [exact Hlt|].
  assert (Hsome : is_Some (part !! (length cases - 1)%nat))
    by (apply lookup_lt_is_Some; lia).
  rewrite Hlookup in Hsome. apply lookup_lt_is_Some in Hsome. nia.
Qed.
End Shards.

Lemma shards_partition_the_cases_witness :
  (∃ part segs,
     IntLists._manage_input_and_output_lists (fun _ => false) (fun _ _ => [])
       ".nii.gz" (Lists.SourceLists two_shards) Lists.OutputNone None true 1 2 false
       = Ok (part, None, segs)
     ∧ length segs = length part
     ∧ (∀ j : nat, part !! j = two_shards !! Z.to_nat (1 + Z.of_nat j * 2))
     ∧ (∀ i : nat, (i < length two_shards)%nat →
          (∃ j : nat, (j < length part)%nat ∧ (1 + Z.of_nat j * 2)%Z = Z.of_nat i)
          ↔ (Z.of_nat i mod 2)%Z = 1%Z))
  ∧ (∃ segs,
       IntLists._manage_input_and_output_lists (fun _ => false) (fun _ _ => [])
         ".nii.gz" (Lists.SourceLists two_shards) Lists.OutputNone None true (-1) 2 false
         = Ok ([["in/e_0000.nii.gz"%string]], None, segs)
       ∧ length segs = 1%nat).
Proof.
  split.
  - apply (proj1 (shards_partition_the_cases (fun _ => false) (fun _ _ => []) ".nii.gz"
                    two_shards None 1 2 false)); [lia|].
    unfold two_shards. repeat constructor; discriminate.
  - apply (proj2 (shards_partition_the_cases (fun _ => false) (fun _ _ => []) ".nii.gz"
                    two_shards None (-1) 2 false) eq_refl);
      [lia | reflexivity | discriminate].
Defined.

Lemma list_management_rejects_witness :
  Lists._manage_input_and_output_lists (fun _ => false) (fun _ _ => [])
    ".nii.gz" (Lists.SourceLists two_shards) (Lists.OutputFolder "out") None false 0 0 false
    = Raise ValueError
  ∧ Lists._manage_input_and_output_lists (fun _ => false) (fun _ _ => [])
      ".nii.gz" (Lists.SourceLists [["in/a_0000.nii.gz"]; []; ["in/c_0000.nii.gz"]]%string)
      (Lists.OutputFolder "out") None false 1 2 false
    = Raise IndexError.
Proof.
  split.
  - apply (list_management_rejects (fun _ => false) (fun _ _ => []) ".nii.gz"
             (Lists.SourceLists two_shards) (Lists.OutputFolder "out") None false 0 0 false).
    reflexivity.
  - apply (proj2 (list_management_rejects (fun _ => false) (fun _ _ => []) ".nii.gz"
             (Lists.SourceLists [["in/a_0000.nii.gz"]; []; ["in/c_0000.nii.gz"]]%string)
             (Lists.OutputFolder "out") None false 1 2 false)
             [["in/a_0000.nii.gz"]; []; ["in/c_0000.nii.gz"]]%string [[]]).
    + reflexivity.
    + reflexivity.
    + apply list_elem_of_here.
Defined.

Lemma output_list_is_not_sharded_witness :
  ∃ part segs,
    Lists._manage_input_and_output_lists (fun _ => false) (fun _ _ => [])
      ".nii.gz" (Lists.SourceLists two_shards)
      (Lists.OutputList ["o/a"; "o/b"; "o/c"; "o/d"; "o/e"]%string) None true 0 2 false
      = Ok (part, Some ["o/a"; "o/b"; "o/c"; "o/d"; "o/e"]%string, segs)
    ∧ length segs = length part
    ∧ (length part < 5)%nat.
Proof.
  apply (output_list_is_not_sharded (fun _ => false) (fun _ _ => []) ".nii.gz"
           two_shards ["o/a"; "o/b"; "o/c"; "o/d"; "o/e"]%string None 0 2 false).
  - lia.
  - cbn. lia.
  - reflexivity.
  - unfold two_shards. repeat constructor; discriminate.
Defined.

(** ** Case identifiers and output names *)

Lemma string_app_cons (c : ascii) (a b : string) :
  (String c a ++ b)%string = String c (a ++ b)%string.
Proof. reflexivity. Qed.

Lemma string_app_nil_r (s : string) : (s ++ EmptyString)%string = s.
Proof.
  induction s as [|c s IH]; [reflexivity|]. rewrite string_app_cons, IH. reflexivity.
Qed.

Lemma string_app_assoc (a b c : string) : ((a ++ b) ++ c)%string = (a ++ (b ++ c))%string.
Proof.
  induction a as [|x a IH]; [reflexivity|]. rewrite !string_app_cons, IH. reflexivity.
Qed.

Lemma after_last_sep_no_sep (acc s : string) :
  no_sep s = true → OsPath.after_last_sep acc s = (acc ++ s)%string.
Proof.
  revert acc. induction s as [|c s IH]; intros acc Hs; simpl in *.
  - rewrite string_app_nil_r. reflexivity.
  - apply andb_prop in Hs as [Hc Hs]. apply negb_true_iff in Hc. rewrite Hc.
    rewrite IH by exact Hs. rewrite string_app_assoc. reflexivity.
Qed.

Lemma after_last_sep_skips (acc dir name : string) :
  OsPath.after_last_sep acc (dir ++ String OsPath.sep name)
  = OsPath.after_last_sep EmptyString name.
Proof.
  revert acc. induction dir as [|c dir IH]; intros acc.
  - reflexivity.
  - rewrite string_app_cons. simpl. destruct (Ascii.eqb c OsPath.sep); apply IH.
Qed.

Lemma basename_case_file (dir name : string) :
  no_sep name = true → OsPath.basename (dir ++ String OsPath.sep name) = name.
Proof.
  intros Hname. unfold OsPath.basename.
  rewrite after_last_sep_skips, after_last_sep_no_sep by exact Hname. reflexivity.
Qed.

Lemma string_length_app (a b : string) :
  String.length (a ++ b) = (String.length a + String.length b)%nat.
Proof.
  induction a as [|c a IH]; [reflexivity|]. rewrite string_app_cons. simpl.
  rewrite IH. reflexivity.
Qed.

Lemma substring_prefix (a b : string) :
  String.substring 0 (String.length a) (a ++ b) = a.
Proof.
  induction a as [|c a IH]; [destruct b; reflexivity|].
  rewrite string_app_cons. simpl. rewrite IH. reflexivity.
Qed.

Lemma no_sep_app (a b : string) :
  no_sep (a ++ b) = no_sep a && no_sep b.
Proof.
  induction a as [|c a IH]; [reflexivity|]. rewrite string_app_cons. simpl.
  rewrite IH, andb_assoc. reflexivity.
Qed.

Lemma caseid_case_file (dir id suffix file_ending : string) (others : list string) :
  String.length suffix = 5%nat →
  no_sep id = true → no_sep suffix = true → no_sep file_ending = true →
  Lists.caseid file_ending (case_file dir id suffix file_ending :: others) = Ok id.
Proof.
  intros Hlen Hid Hsuffix Hend. unfold Lists.caseid, case_file. cbn [index].
  cbn. rewrite basename_case_file
    by (rewrite !no_sep_app, Hid, Hsuffix, Hend; reflexivity).
  unfold Lists.drop_last. rewrite !string_length_app, Hlen.
  replace (String.length id + (5 + String.length file_ending)
           - (String.length file_ending + 5))%nat with (String.length id) by lia.
  rewrite substring_prefix. reflexivity.
Qed.

Lemma stride_one {A} (l : list A) : stride 1 0 l = l.
Proof. induction l as [|a l IH]; cbn; [reflexivity | rewrite IH; reflexivity]. Qed.

(** X4: the identifier of a case is recovered from its first file: for a
    file [dir/<id><suffix><ending>] with a suffix of five characters
    ([_0000]) and no separator after [dir/], the identifier is [<id>],
    whatever the folder and the other files of the group. A single-part call
    with an output folder and a previous-stage folder therefore names the
    output of each case [join(folder, id)] and its previous-stage file
    [join(prev, id + ending)], in the order of the cases. *)
Theorem case_names_follow_first_file
    (isfile : string → bool) (create_lists : string → string → list (list string))
    (file_ending out prev : string) (cases : list (list string)) (ids : list string)
    (save_probabilities : bool) :
  no_sep file_ending = true →
  Forall2 (fun case id =>
    ∃ dir suffix others,
      case = case_file dir id suffix file_ending :: others
      ∧ String.length suffix = 5%nat ∧ no_sep id = true ∧ no_sep suffix = true)
    cases ids →
  Lists._manage_input_and_output_lists isfile create_lists file_ending
    (Lists.SourceLists cases) (Lists.OutputFolder out) (Some prev) true 0 1
    save_probabilities
  = Ok (cases, Some (OsPath.join out <$> ids),
        (fun id => Some (OsPath.join prev (id ++ file_ending)%string)) <$> ids).
Proof.
  intros Hend Hcases.
  assert (Hids : comprehension (Lists.caseid file_ending) cases = Ok ids).
  { induction Hcases as [|case id cases ids (dir & suffix & others & -> & Hlen & Hid & Hsuffix) _ IH];
      [reflexivity|].
    cbn [comprehension]. rewrite caseid_case_file by assumption.
    cbn. rewrite IH. reflexivity. }
  unfold Lists._manage_input_and_output_lists, slice_from_step.
  rewrite drop_0, stride_one. cbn. rewrite Hids. reflexivity.
Qed.

Lemma case_names_follow_first_file_witness :
  Lists._manage_input_and_output_lists (fun _ => false) (fun _ _ => []) ".nii.gz"
    (Lists.SourceLists [["data/in/a_0000.nii.gz"; "data/in/a_0001.nii.gz"];
                        ["/b_x_0000.nii.gz"]]%string)
    (Lists.OutputFolder "out") (Some "prev") true 0 1 false
  = Ok ([["data/in/a_0000.nii.gz"; "data/in/a_0001.nii.gz"]; ["/b_x_0000.nii.gz"]]%string,
        Some ["out/a"; "out/b_x"]%string,
        [Some "prev/a.nii.gz"; Some "prev/b_x.nii.gz"]%string).
Proof.
  apply (case_names_follow_first_file (fun _ => false) (fun _ _ => []) ".nii.gz"
           "out" "prev"
           [["data/in/a_0000.nii.gz"; "data/in/a_0001.nii.gz"]; ["/b_x_0000.nii.gz"]]%string
           ["a"; "b_x"]%string false).
  - reflexivity.
  - constructor.
    + exists "data/in"%string, "_0000"%string, ["data/in/a_0001.nii.gz"]%string.
      repeat split; reflexivity.
    + constructor; [|constructor].
      exists ""%string, "_0000"%string, []. repeat split; reflexivity.
Defined.

(** ** The PSNR table *)

Section TableFacts.
Import Report.
Open Scope R_scope.

(** X7: the table starts with [N] rows of [N] empty cells; recording a
    value for a pair inside the table keeps that shape, puts the value at
    the end of the pair's cell and leaves every other cell as it was; a
    source or a target outside the table is an [IndexError]. *)
Theorem table_append_records (N : nat) (t : list (list (list R))) (src tgt : nat) (x : R) :
  square N t →
  square N (empty_table (H := real_scalar) N)
  ∧ all_psnr (H := real_scalar) (empty_table (H := real_scalar) N) = []
  ∧ (((src < N)%nat ∧ (tgt < N)%nat) →
       ∃ t', table_append (H := real_scalar) t src tgt x = Ok t'
             ∧ square N t'
             ∧ ∀ i j, observations t' i j
                      = if decide (i = src ∧ j = tgt) then observations t i j ++ [x]
                        else observations t i j)
  ∧ (((N ≤ src)%nat ∨ (N ≤ tgt)%nat) →
       table_append (H := real_scalar) t src tgt x = Raise IndexError).
Proof.
  intros Ht. split; [|split; [|split]].
  - split; [apply tabulate_length|].
    rewrite Forall_forall. intros row Hrow.
    apply list_elem_of_fmap in Hrow as (k & -> & _). apply tabulate_length.
  - unfold all_psnr, empty_table. apply concat_nil_Forall, Forall_forall.
    intros cell Hcell. apply list_elem_of_In, in_concat in Hcell as (row & Hrow & Hin).
    apply list_elem_of_In, list_elem_of_fmap in Hrow as (k & -> & _).
    apply list_elem_of_In, list_elem_of_fmap in Hin as (k' & -> & _). reflexivity.
  - intros [Hsrc Htgt].
    destruct (square_lookup N t src tgt Ht Hsrc Htgt) as (row & cell & Hrow & Hlen & Hcell).
    exists (<[src := <[tgt := cell ++ [x]]> row]> t). split.
    { unfold table_append, index, table. cbn [num real_scalar].
      rewrite Hrow. cbn. rewrite Hcell. reflexivity. }
    split; [apply square_insert; assumption|].
    intros i j. unfold observations.
    destruct (decide (i = src)) as [->|Hi].
    + rewrite list_lookup_insert_eq by (eapply lookup_lt_Some; exact Hrow).
      rewrite Hrow. cbn.
      destruct (decide (j = tgt)) as [->|Hj].
      * rewrite list_lookup_insert_eq by lia. rewrite Hcell.
        rewrite decide_True by auto. reflexivity.
      * rewrite list_lookup_insert_ne by congruence.
        rewrite decide_False by tauto. reflexivity.
    + rewrite list_lookup_insert_ne by congruence.
      rewrite decide_False by tauto. reflexivity.
  - destruct Ht as [Hlen Hrows].
    intros [Hsrc|Htgt]; unfold table_append, index, table; cbn [num real_scalar].
    + rewrite lookup_ge_None_2 by lia. reflexivity.
    + destruct (t !! src) as [row|] eqn:Hrow; [|reflexivity]. cbn.
      rewrite lookup_ge_None_2; [reflexivity|].
      rewrite Forall_forall in Hrows. rewrite (Hrows row); [lia|].
      eapply list_elem_of_lookup_2. exact Hrow.
Qed.

End TableFacts.

Lemma table_append_records_witness :
  ∃ t', Report.table_append (H := Report.real_scalar) psnr_fixture 1 0 28%R = Ok t'
        ∧ Report.square 2 t'
        ∧ observations t' 1 0 = [28%R]
        ∧ observations t' 0 1 = [30%R].
Proof.
  assert (Hsq : Report.square 2 psnr_fixture).
  { split; [reflexivity|]. repeat constructor. }
  destruct (proj1 (proj2 (proj2 (table_append_records 2 psnr_fixture 1 0 28%R Hsq))))
    as (t' & Happend & Hsquare & Hobs); [lia|].
  exists t'. split; [exact Happend|]. split; [exact Hsquare|]. split.
  - rewrite Hobs. reflexivity.
  - rewrite Hobs. reflexivity.
Defined.

(** ** The stages of the image encoder *)

Section EncoderStages.
Variable float : Type.

(** The stages after the first: what they append to the loop state. *)
Lemma later_stages (lsv : float) (ts : list (Z * Z * Z * Z * Z * Z)) :
  ∀ (st : Encoder.loop_state float) (i : nat), i ≠ 0%nat →
  ∃ d u,
    Encoder.ls_down _ (Encoder.stages _ lsv st i ts) = Encoder.ls_down _ st ++ d
    ∧ Encoder.ls_up _ (Encoder.stages _ lsv st i ts) = Encoder.ls_up _ st ++ u
    ∧ Encoder.up_channel _ (Encoder.stages _ lsv st i ts) = Encoder.up_channel _ st
    ∧ length d = length ts ∧ length u = length ts
    ∧ ∀ k t, ts !! k = Some t →
        d !! k = Some (Encoder.Sequential
                   [Encoder.LayerNorm (channels_before (Encoder.c_pre _ st) ts k);
                    Encoder.Conv3d (channels_before (Encoder.c_pre _ st) ts k)
                      (t_ce t) (t_se t) 0 (t_se t);
                    Encoder.AttnResBlock _ (t_ce t) (t_nr t) (t_kr t) (t_pr t) lsv true])
        ∧ u !! k = Some (up_layer (t_ce t) (default 0 (Encoder.up_channel _ st))
                           (Encoder.up_scale _ st * stride_product (t_se <$> take (S k) ts))).
Proof.
  induction ts as [|t ts IH]; intros st i Hi.
  - exists [], []. cbn. rewrite !app_nil_r.
    split; [reflexivity|]. split; [reflexivity|]. split; [reflexivity|].
    split; [reflexivity|]. split; [reflexivity|].
    intros k t Hk. rewrite lookup_nil in Hk. discriminate.
  - cbn [Encoder.stages].
    destruct t as [[[[[ce ke] se] nr] kr] pr].
    assert (Hfirst : Nat.eqb i 0 = false) by (apply Nat.eqb_neq; exact Hi).
    assert (Hstage : Encoder.stage _ lsv st i (ce, ke, se, nr, kr, pr)
      = {| Encoder.ls_down := Encoder.ls_down _ st ++
             [Encoder.Sequential
                [Encoder.LayerNorm (Encoder.c_pre _ st);
                 Encoder.Conv3d (Encoder.c_pre _ st) ce se 0 se;
                 Encoder.AttnResBlock _ ce nr kr pr lsv true]];
           Encoder.ls_up := Encoder.ls_up _ st ++
             [up_layer ce (default 0 (Encoder.up_channel _ st)) (Encoder.up_scale _ st * se)];
           Encoder.c_pre := ce;
           Encoder.up_scale := Encoder.up_scale _ st * se;
           Encoder.up_channel := Encoder.up_channel _ st |}).
    { unfold Encoder.stage. rewrite Hfirst. reflexivity. }
    remember (Encoder.stage _ lsv st i (ce, ke, se, nr, kr, pr)) as st1 eqn:Hst1.
    rewrite Hstage in Hst1.
    destruct (IH st1 (S i) ltac:(lia)) as (d & u & Hd & Hu & Huc & Hld & Hlu & Hlook).
    subst st1.
    cbn [Encoder.ls_down Encoder.ls_up Encoder.up_channel Encoder.c_pre Encoder.up_scale]
      in Hd, Hu, Huc, Hlook.
    eexists (_ :: d), (_ :: u).
    split; [rewrite Hd, <- app_assoc; reflexivity|].
    split; [rewrite Hu, <- app_assoc; reflexivity|].
    split; [exact Huc|].
    split; [cbn; rewrite Hld; reflexivity|].
    split; [cbn; rewrite Hlu; reflexivity|].
    intros k t Hk. destruct k as [|k].
    + injection Hk as <-. cbn [t_ce t_se t_nr t_kr t_pr channels_before].
      split; [reflexivity|]. change ((?y :: u) !! 0%nat) with (Some y). f_equal.
      f_equal. unfold stride_product. simpl. lia.
    + change (ts !! k = Some t) in Hk.
      change ((?x :: d) !! S k) with (d !! k). change ((?y :: u) !! S k) with (u !! k).
      destruct (Hlook k t Hk) as [Hdk Huk]. split.
      * rewrite Hdk. do 3 f_equal.
        all: destruct k as [|k]; reflexivity.
      * rewrite Huk. f_equal. f_equal.
        change (take (S (S k)) ((ce, ke, se, nr, kr, pr) :: ts))
          with ((ce, ke, se, nr, kr, pr) :: take (S k) ts).
        rewrite fmap_cons. unfold stride_product. cbn [foldr fold_right t_se]. lia.
Qed.

(** The constructor's result, stage by stage. *)
Lemma init_structure (a : Encoder.args float) (t0 : Z * Z * Z * Z * Z * Z)
    (rest : list (Z * Z * Z * Z * Z * Z)) :
  stage_tuples a = t0 :: rest →
  ∃ enc,
    Encoder.init a = Ok enc
    ∧ length (Encoder.down_layers _ enc) = S (length rest)
    ∧ length (Encoder.up_layers _ enc) = S (length rest)
    ∧ Encoder.conv_latent _ enc
      = Encoder.Conv3d (t_ce t0 * Z.of_nat (length (Encoder.conv_channels _ a)))
          (Encoder.latent_space_dim _ a) 1 0 1
    ∧ ∀ i t, (t0 :: rest) !! i = Some t →
        Encoder.down_layers _ enc !! i
        = Some (Encoder.Sequential
                  (down_block (Encoder.layer_scale_init_value _ a)
                     (channels_before (Encoder.in_channels _ a) (t0 :: rest) i) i t))
        ∧ Encoder.up_layers _ enc !! i
          = Some (up_layer (t_ce t) (t_ce t0) (scale_after_first (t0 :: rest) i)).
Proof.
  intros Hts. unfold Encoder.init. fold (stage_tuples a). rewrite Hts.
  cbn [Encoder.stages].
  destruct t0 as [[[[[ce ke] se] nr] kr] pr].
  set (lsv := Encoder.layer_scale_init_value _ a).
  remember (Encoder.stage _ lsv _ 0 _) as st1 eqn:Hst1.
  assert (Hc : Encoder.up_channel _ st1 = Some ce) by (subst st1; reflexivity).
  assert (Hs : Encoder.up_scale _ st1 = 1) by (subst st1; reflexivity).
  assert (Hp : Encoder.c_pre _ st1 = ce) by (subst st1; reflexivity).
  assert (Hdn : Encoder.ls_down _ st1
                = [Encoder.Sequential
                     (down_block lsv (Encoder.in_channels _ a) 0 (ce, ke, se, nr, kr, pr))])
    by (subst st1; reflexivity).
  assert (Hupl : Encoder.ls_up _ st1 = [up_layer ce ce 1]) by (subst st1; reflexivity).
  clear Hst1.
  destruct (later_stages lsv rest st1 1 ltac:(lia))
    as (d & u & Hd & Hu & Huc & Hld & Hlu & Hlook).
  rewrite Huc, Hc.
  eexists. split; [reflexivity|].
  cbn [Encoder.down_layers Encoder.up_layers Encoder.conv_latent].
  rewrite Hd, Hu, Hdn, Hupl.
  split; [cbn; rewrite Hld; reflexivity|].
  split; [cbn; rewrite Hlu; reflexivity|].
  split; [reflexivity|].
  intros i t Ht. destruct i as [|i].
  - injection Ht as <-. split; reflexivity.
  - change (rest !! i = Some t) in Ht.
    change (([?x] ++ d) !! S i) with (d !! i). change (([?y] ++ u) !! S i) with (u !! i).
    destruct (Hlook i t Ht) as [Hdi Hui]. split.
    + rewrite Hdi, Hp. unfold down_block.
      do 3 f_equal. all: destruct i; reflexivity.
    + rewrite Hui, Hc, Hs.
      f_equal. f_equal. unfold scale_after_first.
      change (drop 1 ((ce, ke, se, nr, kr, pr) :: rest)) with rest. lia.
Qed.

(** X8: the constructor chains its stages. Without a stage (one of the six
    lists is empty) it raises [TypeError]. Otherwise it returns an encoder
    with one down layer and one up layer per stage; the convolution of stage
    [i] takes the channels the stage before produced (the input channels for
    the first), with the stride as its kernel size; and the up layer of
    stage [i] projects to the channels of the first stage and up-samples by
    the product of the strides of the stages [1 .. i], unless that product
    is 1. *)
Theorem encoder_stages_chain (a : Encoder.args float) :
  (stage_tuples a = [] → Encoder.init a = Raise TypeError)
  ∧ (stage_tuples a ≠ [] →
     ∃ enc,
       Encoder.init a = Ok enc
       ∧ length (Encoder.down_layers _ enc) = length (stage_tuples a)
       ∧ length (Encoder.up_layers _ enc) = length (stage_tuples a)
       ∧ ∀ i t, stage_tuples a !! i = Some t →
           Encoder.down_layers _ enc !! i
           = Some (Encoder.Sequential
                     (down_block (Encoder.layer_scale_init_value _ a)
                        (channels_before (Encoder.in_channels _ a) (stage_tuples a) i) i t))
           ∧ Encoder.up_layers _ enc !! i
             = Some (up_layer (t_ce t) (default 0 (t_ce <$> head (stage_tuples a)))
                       (scale_after_first (stage_tuples a) i))).
Proof.
  split.
  - intros Hts. unfold Encoder.init. fold (stage_tuples a). rewrite Hts. reflexivity.
  - intros Hts. destruct (stage_tuples a) as [|t0 rest] eqn:Htuples; [congruence|].
    destruct (init_structure a t0 rest Htuples) as (enc & Hinit & Hdown & Hup & _ & Hlook).
    exists enc. split; [exact Hinit|]. split; [exact Hdown|]. split; [exact Hup|].
    exact Hlook.
Qed.

Lemma concatenation_of_equal_features (ups : list (Encoder.module float)) (c : Z) :
  Forall (fun up => feature_channels up = Some c) ups →
  foldr (fun up acc => c ← feature_channels up; n ← acc; Some (c + n)) (Some 0) ups
  = Some (c * Z.of_nat (length ups)).
Proof.
  induction 1 as [|up ups Hup _ IH].
  - cbn. f_equal. lia.
  - cbn [foldr length]. rewrite Hup, IH. cbn. f_equal. lia.
Qed.

Lemma latent_channels (a : Encoder.args float) (enc : Encoder.ImageEncoder float) :
  Encoder.init a = Ok enc →
  ∃ c0,
    head (Encoder.conv_channels _ a) = Some c0
    ∧ concatenated_channels enc = Some (c0 * Z.of_nat (length (stage_tuples a)))
    ∧ Encoder.conv_in (Encoder.conv_latent _ enc)
      = Some (c0 * Z.of_nat (length (Encoder.conv_channels _ a)))
    ∧ (length (stage_tuples a) ≤ length (Encoder.conv_channels _ a))%nat.
Proof.
  intros Hinit.
  destruct (stage_tuples a) as [|t0 rest] eqn:Htuples.
  { unfold Encoder.init in Hinit. fold (stage_tuples a) in Hinit.
    rewrite Htuples in Hinit. discriminate. }
  destruct (init_structure a t0 rest Htuples) as (enc' & Hinit' & _ & Hup & Hlatent & Hlook).
  rewrite Hinit in Hinit'. injection Hinit' as <-.
  exists (t_ce t0). split; [|split; [|split]].
  - unfold stage_tuples in Htuples.
    destruct (Encoder.conv_channels _ a), (Encoder.conv_kernel _ a),
      (Encoder.conv_stride _ a), (Encoder.resblock_n _ a),
      (Encoder.resblock_kernel _ a), (Encoder.resblock_padding _ a);
      try discriminate.
    cbn in Htuples. injection Htuples as <- _. reflexivity.
  - unfold concatenated_channels.
    rewrite (concatenation_of_equal_features _ (t_ce t0)).
    + rewrite Hup. reflexivity.
    + apply Forall_lookup. intros i up Hi.
      assert (Hlt : (i < S (length rest))%nat)
        by (rewrite <- Hup; eapply lookup_lt_Some; exact Hi).
      destruct (lookup_lt_is_Some_2 (t0 :: rest) i Hlt) as [t Ht].
      destruct (Hlook i t Ht) as [_ Hui]. rewrite Hui in Hi. injection Hi as <-.
      unfold up_layer. destruct (_ =? 1); reflexivity.
  - rewrite Hlatent. reflexivity.
  - rewrite <- Htuples. unfold stage_tuples.
    generalize (Encoder.conv_channels _ a) (Encoder.conv_kernel _ a)
      (Encoder.conv_stride _ a) (Encoder.resblock_n _ a)
      (Encoder.resblock_kernel _ a) (Encoder.resblock_padding _ a).
    clear. intros ce. induction ce as [|c ce IH]; intros ke se nr kr pr; [cbn; lia|].
    destruct ke, se, nr, kr, pr; cbn; try lia.
    specialize (IH ke se nr kr pr). lia.
Qed.

(** X9: the convolution to the latent space and the features it is applied
    to. In an encoder the constructor returned, every feature has the
    channels [c0] of the first stage, so the concatenated features of
    [forward] have [c0] times the number of stages channels, while
    [conv_latent] expects [c0 * len(conv_channels)]. The number of stages
    is at most [len(conv_channels)], and the two channel counts agree
    exactly when it equals [len(conv_channels)] or [c0] is 0. *)
Theorem latent_convolution_channels (a : Encoder.args float) (enc : Encoder.ImageEncoder float) :
  Encoder.init a = Ok enc →
  ∃ c0,
    head (Encoder.conv_channels _ a) = Some c0
    ∧ concatenated_channels enc = Some (c0 * Z.of_nat (length (stage_tuples a)))
    ∧ Encoder.conv_in (Encoder.conv_latent _ enc)
      = Some (c0 * Z.of_nat (length (Encoder.conv_channels _ a)))
    ∧ (length (stage_tuples a) ≤ length (Encoder.conv_channels _ a))%nat
    ∧ (concatenated_channels enc = Encoder.conv_in (Encoder.conv_latent _ enc)
       ↔ c0 = 0 ∨ length (stage_tuples a) = length (Encoder.conv_channels _ a)).
Proof.
  intros Hinit. destruct (latent_channels a enc Hinit) as (c0 & Hhead & Hcat & Hin & Hle).
  exists c0. split; [exact Hhead|]. split; [exact Hcat|]. split; [exact Hin|].
  split; [exact Hle|]. rewrite Hcat, Hin. split.
  - intros [= Heq]. destruct (decide (c0 = 0)) as [Hz|Hnz]; [left; exact Hz|].
    right. apply Z.mul_cancel_l in Heq; [lia | exact Hnz].
  - intros [-> | ->]; [f_equal; lia | reflexivity].
Qed.

Lemma stages_ignore_kernel (lsv : float) (ce ke ke' se nr kr pr : list Z) :
  length ke' = length ke →
  ∀ st i,
    Encoder.stages _ lsv st i (Encoder.zip6 ce ke' se nr kr pr)
    = Encoder.stages _ lsv st i (Encoder.zip6 ce ke se nr kr pr).
Proof.
  revert ke ke' se nr kr pr. induction ce as [|c ce IH]; intros ke ke' se nr kr pr Hlen st i.
  - reflexivity.
  - destruct ke as [|k ke], ke' as [|k' ke']; try discriminate; [reflexivity|].
    destruct se, nr, kr, pr; try reflexivity.
    cbn [Encoder.zip6 Encoder.stages].
    change (Encoder.stage _ lsv st i (c, k', z, z0, z1, z2))
      with (Encoder.stage _ lsv st i (c, k, z, z0, z1, z2)).
    apply IH. cbn in Hlen. lia.
Qed.

(** X10: the values of [conv_kernel] reach the encoder as the attribute
    [k_enc] and nowhere else: the convolutions take the stride as their
    kernel size, and the list only takes part in the [zip] through its
    length. With any other [conv_kernel] list of the same length the
    constructor raises the same exception, or it returns an object with the
    same modules, whose attributes differ in [k_enc] alone. *)
Theorem conv_kernel_values_are_ignored (a : Encoder.args float) (ke : list Z) :
  length ke = length (Encoder.conv_kernel _ a) →
  match construct a with
  | Ok o =>
      attributes o = a
      ∧ construct (with_conv_kernel a ke)
        = Ok {| attributes := with_conv_kernel a ke; modules := modules o |}
  | Raise e => construct (with_conv_kernel a ke) = Raise e
  end.
Proof.
  intros Hlen.
  assert (Hinit : Encoder.init (with_conv_kernel a ke) = Encoder.init a).
  { unfold Encoder.init, with_conv_kernel.
    cbn [Encoder.conv_channels Encoder.conv_kernel Encoder.conv_stride Encoder.resblock_n
         Encoder.resblock_kernel Encoder.resblock_padding Encoder.layer_scale_init_value
         Encoder.in_channels Encoder.latent_space_dim Encoder.vq_beta Encoder.vq_n_embed].
    rewrite (stages_ignore_kernel _ _ (Encoder.conv_kernel _ a) ke) by exact Hlen.
    reflexivity. }
  unfold construct. rewrite Hinit.
  destruct (Encoder.init a) as [built|e]; cbn; [split|]; reflexivity.
Qed.

End EncoderStages.

Lemma encoder_stages_chain_witness :
  ∃ enc,
    Encoder.init three_stage_args = Ok enc
    ∧ Encoder.down_layers _ enc !! 2%nat
      = Some (Encoder.Sequential
                [Encoder.LayerNorm 32; Encoder.Conv3d 32 64 1 0 1;
                 Encoder.AttnResBlock _ 64 2 3 1 tt true])
    ∧ Encoder.up_layers _ enc !! 1%nat
      = Some (Encoder.Sequential
                [Encoder.Conv3d 32 16 1 0 1; Encoder.LayerNorm 16; Encoder.Upsample 2]).
Proof.
  destruct (proj2 (encoder_stages_chain unit three_stage_args) ltac:(discriminate))
    as (enc & Hinit & _ & _ & Hlook).
  exists enc. split; [exact Hinit|]. split.
  - exact (proj1 (Hlook 2%nat (64, 3, 1, 2, 3, 1) eq_refl)).
  - exact (proj2 (Hlook 1%nat (32, 3, 2, 2, 3, 1) eq_refl)).
Defined.

Lemma latent_convolution_channels_witness :
  ∃ enc c0,
    Encoder.init three_stage_args = Ok enc
    ∧ head (Encoder.conv_channels _ three_stage_args) = Some c0
    ∧ concatenated_channels enc = Some (c0 * 3)
    ∧ Encoder.conv_in (Encoder.conv_latent _ enc) = Some (c0 * 3).
Proof.
  destruct (Encoder.init three_stage_args) as [enc|] eqn:Hinit; [|discriminate].
  destruct (latent_convolution_channels unit three_stage_args enc Hinit)
    as (c0 & Hhead & Hcat & Hin & _ & _).
  exists enc, c0. split; [reflexivity|]. split; [exact Hhead|]. split; [exact Hcat | exact Hin].
Defined.

Lemma conv_kernel_values_are_ignored_witness :
  ∃ o o',
    construct three_stage_args = Ok o
    ∧ construct (with_conv_kernel three_stage_args [1; 1; 1]) = Ok o'
    ∧ modules o' = modules o
    ∧ Encoder.conv_kernel _ (attributes o) = [7; 3; 3]
    ∧ Encoder.conv_kernel _ (attributes o') = [1; 1; 1].
Proof.
  pose proof (conv_kernel_values_are_ignored unit three_stage_args [1; 1; 1] eq_refl)
    as Hsame.
  destruct (construct three_stage_args) as [o|] eqn:Hrun; [|discriminate].
  destruct Hsame as [Hattr Hsame].
  eexists o, _. split; [reflexivity|]. split; [exact Hsame|].
  split; [reflexivity|]. split; [rewrite Hattr|]; reflexivity.
Defined.

(** ** The tiles of the sliding window *)

Section Slicers.
Context `{TL : TensorLib} `{SC : Scalar} `{NW : !Network} `{TK : !Toolkit}.

(** A loop that appends to its accumulator collects what it appends. *)
Lemma for_each_collect {A B} (l : list B) (F : B → list A) (body : list A → B → res (list A)) :
  (∀ acc x, x ∈ l → body acc x = Ok (acc ++ F x)) →
  ∀ acc, for_each l acc body = Ok (acc ++ (l ≫= F)).
Proof.
  induction l as [|b l IH]; intros Hbody acc.
  - cbn. rewrite app_nil_r. reflexivity.
  - cbn [for_each]. rewrite Hbody by apply list_elem_of_here. cbn.
    rewrite IH by (intros acc' x Hx; apply Hbody, list_elem_of_further, Hx).
    rewrite <- app_assoc. reflexivity.
Qed.

Lemma bind_length_uniform {A B} (l : list A) (f : A → list B) (n : nat) :
  (∀ x, length (f x) = n) → length (l ≫= f) = (length l * n)%nat.
Proof.
  intros Hf. induction l as [|a l IH]; [reflexivity|].
  cbn. rewrite length_app, Hf. cbn in IH. rewrite IH. reflexivity.
Qed.

(** X11: the tiles of a volume. A patch size with two or more entries fewer
    than the image size is an [AssertionError]. With as many entries as the
    image has and step lists [s0], [s1], [s2] from the step computation, the
    slicers are, for [sx] in [s0], [sy] in [s1], [sz] in [s2] in this
    nesting order, the full first dimension followed by the ranges
    [sx : sx + p0], [sy : sy + p1], [sz : sz + p2]: one tile of the patch
    extent per combination of steps, [len(s0) * len(s1) * len(s2)] in
    all. *)
Theorem volume_slicers (self : predictor) (image_size : list nat) :
  ((length (patch_size self) + 1 < length image_size)%nat →
   _internal_get_sliding_window_slicers self image_size = Raise AssertionError)
  ∧ (∀ p0 p1 p2 s0 s1 s2 more,
       patch_size self = [p0; p1; p2] →
       (length image_size ≤ 3)%nat →
       compute_steps_for_sliding_window image_size (patch_size self) (tile_step_size self)
         = Ok (s0 :: s1 :: s2 :: more) →
       ∃ slicers,
         _internal_get_sliding_window_slicers self image_size = Ok slicers
         ∧ slicers = (sx ← s0; sy ← s1; sz ← s2;
                      [[All; Range sx (sx + p0); Range sy (sy + p1); Range sz (sz + p2)]])
         ∧ length slicers = (length s0 * (length s1 * length s2))%nat).
Proof.
  split.
  - intros Hshort. unfold _internal_get_sliding_window_slicers.
    destruct (length (patch_size self) <? length image_size)%nat eqn:Hlt;
      [|apply Nat.ltb_ge in Hlt; lia].
    destruct (Nat.eqb (length (patch_size self)) (length image_size - 1)) eqn:Heq;
      [apply Nat.eqb_eq in Heq; lia|].
    reflexivity.
  - intros p0 p1 p2 s0 s1 s2 more Hpatch Hsize Hsteps.
    eexists. split; [|split; [reflexivity|]].
    + unfold _internal_get_sliding_window_slicers.
      rewrite Hsteps. rewrite Hpatch at 1. cbn [length].
      destruct (3 <? length image_size)%nat eqn:Hlt; [apply Nat.ltb_lt in Hlt; lia|].
      cbn. rewrite Hpatch.
      rewrite (for_each_collect s0
        (fun sx => sy ← s1; sz ← s2;
           [[All; Range sx (sx + p0); Range sy (sy + p1); Range sz (sz + p2)]])).
      * reflexivity.
      * intros acc sx _.
        rewrite (for_each_collect s1
          (fun sy => sz ← s2;
             [[All; Range sx (sx + p0); Range sy (sy + p1); Range sz (sz + p2)]])).
        -- reflexivity.
        -- intros acc' sy _. cbn. do 2 f_equal.
           all: try (clear; induction s2 as [|sz s2 IH];
                     [reflexivity | cbn; cbn in IH; rewrite IH; reflexivity]).
    + rewrite (bind_length_uniform s0 _ (length s1 * length s2)); [reflexivity|].
      intros sx. rewrite (bind_length_uniform s1 _ (length s2)); [reflexivity|].
      intros sy. rewrite (bind_length_uniform s2 _ 1); [lia|]. reflexivity.
Qed.

(** X12: the tiles of a stack of slices. With a patch size of two entries
    for an image size of three, every position [d] of the first image
    dimension is tiled on its own: the slicers are, for [d] below
    [image_size[0]], [sx] in [s0], [sy] in [s1], the full first dimension,
    the index [d] and the ranges [sx : sx + p0], [sy : sy + p1]. *)
Theorem slice_stack_slicers (self : predictor) (depth h w p0 p1 : nat)
    (s0 s1 : list nat) (more : list (list nat)) :
  patch_size self = [p0; p1] →
  compute_steps_for_sliding_window [h; w] (patch_size self) (tile_step_size self)
    = Ok (s0 :: s1 :: more) →
  ∃ slicers,
    _internal_get_sliding_window_slicers self [depth; h; w] = Ok slicers
    ∧ slicers = (d ← range depth; sx ← s0; sy ← s1;
                 [[All; At d; Range sx (sx + p0); Range sy (sy + p1)]])
    ∧ length slicers = (depth * (length s0 * length s1))%nat.
Proof.
  intros Hpatch Hsteps.
  eexists. split; [|split; [reflexivity|]].
  - unfold _internal_get_sliding_window_slicers.
    change (drop 1 [depth; h; w]) with [h; w]. rewrite Hsteps, Hpatch. cbn.
    rewrite (for_each_collect (range depth)
      (fun d => sx ← s0; sy ← s1;
         [[All; At d; Range sx (sx + p0); Range sy (sy + p1)]])).
    + reflexivity.
    + intros acc d _.
      rewrite (for_each_collect s0
        (fun sx => sy ← s1; [[All; At d; Range sx (sx + p0); Range sy (sy + p1)]])).
      * reflexivity.
      * intros acc' sx _. cbn. do 2 f_equal.
        all: try (clear; induction s1 as [|sy s1 IH];
                  [reflexivity | cbn; cbn in IH; rewrite IH; reflexivity]).
  - rewrite (bind_length_uniform (range depth) _ (length s0 * length s1)).
    + unfold range. rewrite length_seq. reflexivity.
    + intros d. rewrite (bind_length_uniform s0 _ (length s1)); [reflexivity|].
      intros sx. rewrite (bind_length_uniform s1 _ 1); [lia|]. reflexivity.
Qed.

End Slicers.

Lemma volume_slicers_witness :
  ∃ slicers,
    _internal_get_sliding_window_slicers (toy_predictor true true Cuda toy_bundle)
      [1; 1; 6]%nat = Ok slicers
    ∧ slicers = [[All; Range 0 1; Range 0 1; Range 0 4];
                 [All; Range 0 1; Range 0 1; Range 2 6]]
    ∧ length slicers = 2%nat.
Proof.
  destruct (proj2 (volume_slicers (TL := Toy.tensors) (SC := Toy.scalars)
              (NW := Toy.network) (TK := Toy.toolkit)
              (toy_predictor true true Cuda toy_bundle) [1; 1; 6]%nat)
              1%nat 1%nat 4%nat [0%nat] [0%nat] [0%nat; 2%nat] []
              eq_refl ltac:(cbn; lia) eq_refl)
    as (slicers & Hrun & Hform & Hlen).
  exists slicers. split; [exact Hrun|]. split; [exact Hform | exact Hlen].
Defined.

Lemma slice_stack_slicers_witness :
  ∃ slicers,
    _internal_get_sliding_window_slicers (toy_predictor true true Cuda toy_slice_bundle)
      [2; 1; 6]%nat = Ok slicers
    ∧ slicers = [[All; At 0; Range 0 1; Range 0 4]; [All; At 0; Range 0 1; Range 2 6];
                 [All; At 1; Range 0 1; Range 0 4]; [All; At 1; Range 0 1; Range 2 6]]
    ∧ length slicers = 4%nat.
Proof.
  exact (slice_stack_slicers (TL := Toy.tensors) (SC := Toy.scalars)
           (NW := Toy.network) (TK := Toy.toolkit)
           (toy_predictor true true Cuda toy_slice_bundle)
           2 1 6 1 4 [0%nat] [0%nat; 2%nat] [] eq_refl eq_refl).
Defined.

(** ** Edge cases of the mirrored tile prediction *)

Section MirrorEdges.
Context `{TL : TensorLib} `{SC : Scalar} `{NW : !Network} `{TK : !Toolkit}.

Lemma throws_lift {A} p e : throws p (lift (A := A) (Raise e)) e [].
Proof. intros w _ _. unfold lift. rewrite after_nil. reflexivity. Qed.

Lemma throws_bind_l {A B} p (m : M A) (f : A → M B) e evs :
  throws p m e evs → throws p (m ≫= f) e evs.
Proof. intros Hm w Hq Hp. apply bind_raise, Hm; assumption. Qed.

Lemma throws_bind_r {A B} p (m : M A) (f : A → M B) a e e1 e2 :
  returns p m a e1 → throws p (f a) e e2 → throws p (m ≫= f) e (e1 ++ e2).
Proof.
  intros Hm Hf w Hq Hp. rewrite (bind_ok m f w a _ (Hm w Hq Hp)).
  rewrite (Hf (after w e1)); [rewrite after_after; reflexivity | apply quiet_after, Hq | exact Hp].
Qed.

Lemma throws_eq {A} p (m : M A) e evs evs' :
  throws p m e evs → evs = evs' → throws p m e evs'.
Proof. intros H <-. exact H. Qed.

(** The staging of a tile and its first pass. *)
Lemma returns_staging (self : predictor) x target_code props inp p :
  tile_input_of self x target_code props = Ok inp →
  returns p
    (match props with
     | None => mret (Bare x)
     | Some props =>
         tsf_data ← lift (scatter_channels props x);
         ext (MoveTo (self_device self) tsf_data);;
         mret (Fused (default 0%nat (shape x !! 0%nat)) tsf_data
                 (Codes.tsf_tgt_code (num_channel props) (available_channel props) target_code)
                 (Codes.tsf_seg_code (num_channel props) (available_channel props) target_code))
     end)
    inp (staging_events self props inp).
Proof.
  intros Hinp. destruct props as [props|]; cbn in Hinp.
  - destruct (scatter_channels props x) as [d|] eqn:Hd; cbn in Hinp; [|discriminate].
    injection Hinp as <-.
    eapply returns_eq.
    + eapply returns_bind; [apply returns_lift | cbv beta].
      eapply returns_bind; [apply returns_ext | cbv beta].
      apply returns_ret.
    + reflexivity.
  - injection Hinp as <-. apply returns_ret.
Qed.

Lemma forward_inputs_staging (self : predictor) props inp evs :
  forward_inputs (staging_events self props inp ++ evs) = forward_inputs evs.
Proof. destruct props; reflexivity. Qed.

(** X13: without mirroring (switched off in the predictor, or no axes in
    the model) a tile is predicted by a single pass: in a world where
    nothing fails the result is that of the pass on the tile as it is, no
    division takes place, and the network sees one input, the tile. *)
Theorem unmirrored_prediction_is_single_pass (self : predictor) (x : tensor)
    (target_code : list Z) (props : option properties) (with_attn : bool)
    (inp : tile_input) (p : weights) (w : world) :
  use_mirroring self = false ∨ allowed_mirroring_axes self = None →
  tile_input_of self x target_code props = Ok inp →
  quiet w → loaded w = p →
  ∃ evs,
    _internal_maybe_mirror_and_predict self x target_code props with_attn w
    = (Ok (pass p target_code with_attn inp), after w evs)
    ∧ forward_inputs evs = [input_of inp].
Proof.
  intros Hoff Hinp Hq Hp.
  assert (Haxes : (if use_mirroring self then allowed_mirroring_axes self else None) = None).
  { destruct Hoff as [-> | ->]; [reflexivity | destruct (use_mirroring self); reflexivity]. }
  assert (Hrun : returns p
            (_internal_maybe_mirror_and_predict self x target_code props with_attn)
            (pass p target_code with_attn inp)
            (staging_events self props inp ++ pass_events p target_code with_attn inp ++ [])).
  { unfold _internal_maybe_mirror_and_predict. rewrite Haxes.
    eapply returns_bind; [apply returns_staging, Hinp | cbv beta].
    eapply returns_bind; [apply returns_run_pass | cbv beta].
    apply returns_ret. }
  eexists. split; [apply (Hrun w Hq Hp)|].
  rewrite forward_inputs_staging, app_nil_r. apply forward_inputs_pass.
Qed.

Lemma py_max_upper (l : list nat) (top m : nat) :
  py_max l = Ok top → m ∈ l → (m ≤ top)%nat.
Proof.
  destruct l as [|a l]; [discriminate|]. cbn. intros [= <-] Hm.
  apply elem_of_cons in Hm as [->|Hm].
  - clear. induction l as [|b l IH]; cbn; lia.
  - induction l as [|b l IH]; [inversion Hm|].
    cbn. apply elem_of_cons in Hm as [->|Hm]; [lia|]. specialize (IH Hm). lia.
Qed.

(** X14: the mirror axes are checked after the first pass only. With
    mirroring on, an empty tuple of axes makes [max] raise [ValueError],
    and an axis above [x.ndim - 3] fails the assertion; in both cases the
    network has already been run on the tile when the exception is
    raised. *)
Theorem mirror_axes_are_checked_after_the_first_pass (self : predictor) (x : tensor)
    (target_code : list Z) (props : option properties) (with_attn : bool)
    (mirror_axes : list nat) (inp : tile_input) (p : weights) (w : world) :
  use_mirroring self = true →
  allowed_mirroring_axes self = Some mirror_axes →
  tile_input_of self x target_code props = Ok inp →
  mirror_axes = [] ∨ (∃ m, m ∈ mirror_axes ∧ (ndim x < m + 3)%nat) →
  quiet w → loaded w = p →
  ∃ evs,
    _internal_maybe_mirror_and_predict self x target_code props with_attn w
    = (Raise (if decide (mirror_axes = []) then ValueError else AssertionError), after w evs)
    ∧ forward_inputs evs = [input_of inp].
Proof.
  intros Hmirror Haxes Hinp Hbad Hq Hp.
  assert (Hrun : throws p
            (_internal_maybe_mirror_and_predict self x target_code props with_attn)
            (if decide (mirror_axes = []) then ValueError else AssertionError)
            (staging_events self props inp ++ pass_events p target_code with_attn inp ++ [])).
  { unfold _internal_maybe_mirror_and_predict. rewrite Hmirror, Haxes.
    eapply throws_bind_r; [apply returns_staging, Hinp | cbv beta].
    eapply throws_bind_r; [apply returns_run_pass | cbv beta].
    destruct (decide (mirror_axes = [])) as [->|Hne].
    - apply throws_bind_l. cbn. apply throws_lift.
    - destruct Hbad as [Hnil | (m & Hm & Hlt)]; [congruence|].
      destruct (py_max mirror_axes) as [top|] eqn:Htop;
        [|destruct mirror_axes; [congruence | discriminate]].
      pose proof (py_max_upper mirror_axes top m Htop Hm) as Hle.
      eapply (throws_bind_r p _ _ top _ [] []); [apply returns_lift | cbv beta].
      apply throws_bind_l.
      replace (Z.of_nat top <=? Z.of_nat (ndim x) - 3) with false
        by (symmetry; apply Z.leb_gt; lia).
      apply throws_lift. }
  eexists. split; [apply (Hrun w Hq Hp)|].
  rewrite forward_inputs_staging, app_nil_r. apply forward_inputs_pass.
Qed.

End MirrorEdges.

Lemma unmirrored_prediction_is_single_pass_witness :
  let x := Toy.tile [1; 2; 4; 3] in
  let w := Toy.world_with Toy.no_fault None in
  ∃ evs,
    _internal_maybe_mirror_and_predict (toy_predictor false true Cuda toy_bundle)
      x [1] None true w
    = (Ok (Toy.tile [1; 4; 8; 9], Toy.tile [2; 4; 8; 6], x), after w evs)
    ∧ forward_inputs evs = [x].
Proof.
  apply (unmirrored_prediction_is_single_pass (TL := Toy.tensors) (SC := Toy.scalars)
           (NW := Toy.network) (TK := Toy.toolkit)
           (toy_predictor false true Cuda toy_bundle) (Toy.tile [1; 2; 4; 3]) [1] None true
           (Bare (TL := Toy.tensors) (Toy.tile [1; 2; 4; 3])) 1
           (Toy.world_with Toy.no_fault None)).
  - left. reflexivity.
  - reflexivity.
  - intros n _. reflexivity.
  - reflexivity.
Defined.

Lemma mirror_axes_are_checked_after_the_first_pass_witness :
  let x := Toy.tile [1; 2; 4; 3] in
  let w := Toy.world_with Toy.no_fault None in
  (∃ evs,
     _internal_maybe_mirror_and_predict
       (toy_predictor true true Cuda (toy_bundle_with [3] (Some []))) x [1] None true w
     = (Raise ValueError, after w evs)
     ∧ forward_inputs evs = [x])
  ∧ (∃ evs,
       _internal_maybe_mirror_and_predict
         (toy_predictor true true Cuda (toy_bundle_with [3] (Some [0%nat; 3%nat])))
         x [1] None true w
       = (Raise AssertionError, after w evs)
       ∧ forward_inputs evs = [x]).
Proof.
  split.
  - apply (mirror_axes_are_checked_after_the_first_pass (TL := Toy.tensors)
             (SC := Toy.scalars) (NW := Toy.network) (TK := Toy.toolkit)
             (toy_predictor true true Cuda (toy_bundle_with [3] (Some [])))
             (Toy.tile [1; 2; 4; 3]) [1] None true []
             (Bare (TL := Toy.tensors) (Toy.tile [1; 2; 4; 3])) 1
             (Toy.world_with Toy.no_fault None)).
    + reflexivity.
    + reflexivity.
    + reflexivity.
    + left. reflexivity.
    + intros n _. reflexivity.
    + reflexivity.
  - apply (mirror_axes_are_checked_after_the_first_pass (TL := Toy.tensors)
             (SC := Toy.scalars) (NW := Toy.network) (TK := Toy.toolkit)
             (toy_predictor true true Cuda (toy_bundle_with [3] (Some [0%nat; 3%nat])))
             (Toy.tile [1; 2; 4; 3]) [1] None true [0%nat; 3%nat]
             (Bare (TL := Toy.tensors) (Toy.tile [1; 2; 4; 3])) 1
             (Toy.world_with Toy.no_fault None)).
    + reflexivity.
    + reflexivity.
    + reflexivity.
    + right. exists 3%nat. split; [apply list_elem_of_further, list_elem_of_here | cbn; lia].
    + intros n _. reflexivity.
    + reflexivity.
Defined.

(** ** How often the sliding window is executed *)

Section Executions.
Context `{TL : TensorLib} `{SC : Scalar} `{NW : !Network} `{TK : !Toolkit}.

Lemma silent_ret {A} (a : A) : silent (mret a).
Proof. intros w. reflexivity. Qed.

Lemma silent_raise {A} e : silent (raise (A := A) e).
Proof. intros w. reflexivity. Qed.

Lemma silent_lift {A} (r : res A) : silent (lift r).
Proof. intros w. reflexivity. Qed.

Lemma silent_get_loaded : silent get_loaded.
Proof. intros w. reflexivity. Qed.

Lemma silent_set_loaded p : silent (set_loaded p).
Proof. intros w. reflexivity. Qed.

Lemma silent_get_bound : silent get_tile_outputs_bound.
Proof. intros w. reflexivity. Qed.

Lemma silent_set_bound b : silent (set_tile_outputs_bound b).
Proof. intros w. reflexivity. Qed.

Lemma silent_ext e :
  match e with MoveImage _ _ => False | _ => True end → silent (ext e).
Proof.
  intros He w. unfold ext.
  destruct (faults w (clock w)); cbn [snd trace]; unfold executions;
    rewrite omap_app; destruct e; try contradiction; cbn; apply app_nil_r.
Qed.

Lemma silent_bind {A B} (m : M A) (f : A → M B) :
  silent m → (∀ a, silent (f a)) → silent (m ≫= f).
Proof.
  intros Hm Hf w. unfold mbind, M_bind. specialize (Hm w).
  destruct (m w) as [[a|e] w1]; cbn [snd] in *.
  - rewrite Hf. exact Hm.
  - exact Hm.
Qed.

Lemma silent_try_except {A} (body : M A) (handler : exn → M A) :
  silent body → (∀ e, silent (handler e)) → silent (try_except body handler).
Proof.
  intros Hb Hh w. unfold try_except. specialize (Hb w).
  destruct (body w) as [[a|e] w1]; cbn [snd] in *.
  - exact Hb.
  - rewrite Hh. exact Hb.
Qed.

Lemma silent_for_eachM {A B} (l : list B) (a : A) (body : A → B → M A) :
  (∀ a b, silent (body a b)) → silent (for_eachM l a body).
Proof.
  intros Hbody. revert a. induction l as [|b l IH]; intros a.
  - apply silent_ret.
  - cbn [for_eachM]. apply silent_bind; [apply Hbody | intros a'; apply IH].
Qed.

Ltac silent_step :=
  match goal with
  | |- silent (mret _) => apply silent_ret
  | |- silent (raise _) => apply silent_raise
  | |- silent (lift _) => apply silent_lift
  | |- silent (ext _) => apply silent_ext; exact I
  | |- silent get_loaded => apply silent_get_loaded
  | |- silent (set_loaded _) => apply silent_set_loaded
  | |- silent get_tile_outputs_bound => apply silent_get_bound
  | |- silent (set_tile_outputs_bound _) => apply silent_set_bound
  | |- silent (_ ≫= _) => apply silent_bind; [|intros ?]
  | |- silent (try_except _ _) => apply silent_try_except; [|intros ?]
  | |- silent (for_eachM _ _ _) => apply silent_for_eachM; intros ? ?
  | |- silent (match ?x with _ => _ end) => destruct x
  end.

Lemma silent_run_pass target_code with_attn inp : silent (run_pass target_code with_attn inp).
Proof.
  destruct inp; cbn [run_pass]; unfold run_bare_pass, run_fused_pass; repeat silent_step.
Qed.

Lemma silent_mirror self x target_code props with_attn :
  silent (_internal_maybe_mirror_and_predict self x target_code props with_attn).
Proof.
  unfold _internal_maybe_mirror_and_predict.
  repeat first [apply silent_run_pass | silent_step].
Qed.

Lemma silent_handler self results_device e :
  silent (sliding_window_handler self results_device e).
Proof. unfold sliding_window_handler. repeat silent_step. Qed.

Lemma moves_once_silent {A} d (m : M A) : silent m → moves_once d m.
Proof. intros Hm w. exists []. rewrite app_nil_r. split; [apply Hm | left; reflexivity]. Qed.

Lemma moves_once_then_silent {A B} d (m : M A) (f : A → M B) :
  moves_once d m → (∀ a, silent (f a)) → moves_once d (m ≫= f).
Proof.
  intros Hm Hf w. unfold mbind, M_bind. destruct (Hm w) as (l & Hl & Hcase).
  destruct (m w) as [[a|e] w1]; cbn [snd] in *.
  - exists l. rewrite Hf. auto.
  - exists l. auto.
Qed.

Lemma silent_then_moves_once {A B} d (m : M A) (f : A → M B) :
  silent m → (∀ a, moves_once d (f a)) → moves_once d (m ≫= f).
Proof.
  intros Hm Hf w. unfold mbind, M_bind. specialize (Hm w).
  destruct (m w) as [[a|e] w1]; cbn [snd] in *.
  - destruct (Hf a w1) as (l & Hl & Hcase). exists l. rewrite Hl, Hm. auto.
  - exists []. rewrite app_nil_r. auto.
Qed.

Lemma moves_once_ext d data : moves_once d (ext (MoveImage d data)).
Proof.
  intros w. exists [d]. split; [|right; reflexivity].
  unfold ext. destruct (faults w (clock w)); cbn [snd trace]; unfold executions;
    rewrite omap_app; reflexivity.
Qed.

(** One execution of the sliding window moves the image once, to its
    results device. *)
Lemma moves_once_internal (self : predictor) data slicers target_code
    (do_on_device : bool) props with_attn :
  moves_once (if do_on_device then self_device self else Cpu)
    (_internal_predict_sliding_window_return_logits self data slicers target_code
       do_on_device props with_attn).
Proof.
  unfold _internal_predict_sliding_window_return_logits.
  set (d := if do_on_device then self_device self else Cpu).
  apply silent_then_moves_once; [apply silent_set_bound|]. intros _.
  intros w. unfold try_except.
  assert (Hbody : moves_once d
            (sliding_window_body self data slicers target_code d props with_attn)).
  { unfold sliding_window_body, sliding_window_tiles.
    apply moves_once_then_silent.
    - apply silent_then_moves_once; [silent_step|]. intros _.
      apply moves_once_then_silent; [apply moves_once_ext|]. intros _.
      repeat first [apply silent_mirror | silent_step].
    - intros acc. unfold check_for_infs. repeat silent_step. }
  destruct (Hbody w) as (l & Hl & Hcase).
  destruct (sliding_window_body self data slicers target_code d props with_attn w)
    as [[a|e] w1]; cbn [snd] in *.
  - exists l. auto.
  - exists l. rewrite silent_handler. auto.
Qed.

Lemma sliding_window_executions (self : predictor) (input_image : tensor)
    (target_code : list Z) (props : option properties) (with_attn : bool) (w : world) :
  let d := if perform_everything_on_device self then self_device self else Cpu in
  ∃ first second,
    executions (trace (snd (predict_sliding_window_return_logits self input_image
                              target_code props with_attn w)))
    = executions (trace w) ++ first ++ second
    ∧ (first = [] ∨ first = [d])
    ∧ (second = [] ∨ (second = [Cpu] ∧ perform_everything_on_device self = true)).
Proof.
  intros d.
  assert (Hfallback : ∀ data slicers w0, ∃ first second,
    executions (trace (snd (sliding_window_with_fallback self data slicers target_code
                              props with_attn w0)))
    = executions (trace w0) ++ first ++ second
    ∧ (first = [] ∨ first = [d])
    ∧ (second = [] ∨ (second = [Cpu] ∧ perform_everything_on_device self = true))).
  { intros data slicers w0. unfold sliding_window_with_fallback, device_differs_from_str.
    rewrite andb_true_r.
    destruct (perform_everything_on_device self) eqn:Hperform.
    - unfold except_RuntimeError, try_except.
      destruct (moves_once_internal self data slicers target_code true props with_attn w0)
        as (l1 & Hl1 & Hcase1).
      destruct (_internal_predict_sliding_window_return_logits self data slicers
                  target_code true props with_attn w0) as [[a|e] w1]; cbn [snd] in *.
      + exists l1, []. rewrite app_nil_r. auto.
      + destruct (decide (e = RuntimeError)) as [->|Hne].
        * assert (Hretry : moves_once Cpu
                    (ext (EmptyCache (self_device self));;
                     _internal_predict_sliding_window_return_logits self data slicers
                       target_code false props with_attn)).
          { apply silent_then_moves_once; [silent_step|]. intros _.
            apply (moves_once_internal self data slicers target_code false). }
          destruct (Hretry w1) as (l2 & Hl2 & Hcase2).
          exists l1, l2. rewrite Hl2, Hl1, <- app_assoc. split; [reflexivity|].
          split; [exact Hcase1|]. destruct Hcase2 as [->| ->]; auto.
        * exists l1, []. rewrite app_nil_r. auto.
    - destruct (moves_once_internal self data slicers target_code false props with_attn w0)
        as (l1 & Hl1 & Hcase1).
      exists l1, []. rewrite app_nil_r. auto. }
  unfold predict_sliding_window_return_logits.
  assert (Hgen : ∀ (pre : M unit) (post : tensor * tensor * tensor → M (tensor * tensor * tensor))
                   data slicers_r,
            silent pre → (∀ out, silent (post out)) →
            ∃ first second,
              executions (trace (snd ((pre;;
                 slicers ← lift slicers_r;
                 out ← sliding_window_with_fallback self data slicers target_code props with_attn;
                 post out) w)))
              = executions (trace w) ++ first ++ second
              ∧ (first = [] ∨ first = [d])
              ∧ (second = [] ∨ (second = [Cpu] ∧ perform_everything_on_device self = true))).
  { intros pre post data slicers_r Hpre Hpost.
    unfold mbind, M_bind. specialize (Hpre w).
    destruct (pre w) as [[[]|e] w1]; cbn [snd] in *;
      [|exists [], []; rewrite !app_nil_r; auto].
    unfold lift. destruct slicers_r as [slicers|e]; cbn [snd];
      [|exists [], []; rewrite !app_nil_r; auto].
    destruct (Hfallback data slicers w1) as (first & second & Hl & Hf & Hs).
    destruct (sliding_window_with_fallback self data slicers target_code props with_attn w1)
      as [[out|e] w2]; cbn [snd] in *.
    - exists first, second. rewrite Hpost, Hl, Hpre. auto.
    - exists first, second. rewrite Hl, Hpre. auto. }
  destruct (pad_nd_image input_image (patch_size self)) as [data revert] eqn:Hpad.
  pose proof (Hgen
    (ext (NetworkTo (self_device self));; ext (EmptyCache (self_device self));;
     lift (assert (Nat.eqb (ndim input_image) 4)))
    (fun out => ext (EmptyCache (self_device self));;
                mret (crop revert (fst (fst out)), crop revert (snd (fst out)),
                      crop revert (snd out)))
    data (_internal_get_sliding_window_slicers self (drop 1 (shape data)))) as Hrun.
  destruct Hrun as (first & second & Hl & Hf & Hs).
  { repeat silent_step. }
  { intros out. repeat silent_step. }
  exists first, second. split; [|auto].
  rewrite <- Hl. f_equal. f_equal. f_equal.
  unfold mbind, M_bind.
  destruct (ext (NetworkTo (self_device self)) w) as [[[]|e] w1]; [|reflexivity].
  destruct (ext (EmptyCache (self_device self)) w1) as [[[]|e] w2]; [|reflexivity].
  destruct (lift (assert (Nat.eqb (ndim input_image) 4)) w2) as [[[]|e] w3]; reflexivity.
Qed.

(** X15: the sliding window is executed at most twice. Whatever fails and
    whenever, a call of [predict_sliding_window_return_logits] moves the
    image at most twice: to the configured results device [d] at most once
    and, only for a predictor that keeps its results on the device, at most
    once more to the host. There is never a third execution, and none on
    another device. *)
Theorem at_most_two_executions (self : predictor) (input_image : tensor)
    (target_code : list Z) (props : option properties) (with_attn : bool) (w : world) :
  let d := if perform_everything_on_device self then self_device self else Cpu in
  ∃ l,
    executions (trace (snd (predict_sliding_window_return_logits self input_image
                              target_code props with_attn w)))
    = executions (trace w) ++ l
    ∧ (length l ≤ 2)%nat
    ∧ (l = [] ∨ l = [d]
       ∨ (perform_everything_on_device self = true ∧ (l = [Cpu] ∨ l = [d; Cpu]))).
Proof.
  intros d.
  destruct (sliding_window_executions self input_image target_code props with_attn w)
    as (first & second & Hl & Hfirst & Hsecond).
  exists (first ++ second). split; [exact Hl|].
  destruct Hfirst as [-> | ->], Hsecond as [-> | [-> Hperform]]; cbn.
  - split; [lia | left; reflexivity].
  - split; [lia | right; right; split; [exact Hperform | left; reflexivity]].
  - split; [lia | right; left; reflexivity].
  - split; [lia | right; right; split; [exact Hperform | right; reflexivity]].
Qed.

(** X16: a predictor constructed for a device other than cuda never keeps
    its results on the device, whatever the caller asked for: every call of
    [predict_sliding_window_return_logits] executes the sliding window at
    most once, with the host as results device, and an exception of that
    execution is never followed by a second attempt. *)
Theorem host_predictor_never_retries (step : tile_step)
    (gaussian mirroring on_device : bool) (dev : device)
    (b : bundle) (input_image : tensor) (target_code : list Z)
    (props : option properties) (with_attn : bool) (w : world) :
  dev ≠ Cuda →
  let self := install (nnSeq2SeqPredictor__init__ step gaussian mirroring on_device dev) b in
  (∀ data slicers,
     sliding_window_with_fallback self data slicers target_code props with_attn
     = _internal_predict_sliding_window_return_logits self data slicers target_code false
         props with_attn)
  ∧ ∃ l,
      executions (trace (snd (predict_sliding_window_return_logits self input_image
                                target_code props with_attn w)))
      = executions (trace w) ++ l
      ∧ (l = [] ∨ l = [Cpu]).
Proof.
  intros Hdev self.
  assert (Hperform : perform_everything_on_device self = false)
    by (subst self; destruct dev; [congruence | reflexivity | reflexivity]).
  split.
  - intros data slicers. apply no_fallback_on_host, Hperform.
  - destruct (sliding_window_executions self input_image target_code props with_attn w)
      as (first & second & Hl & Hfirst & Hsecond).
    rewrite Hperform in Hfirst, Hsecond.
    destruct Hsecond as [-> | [_ Habs]]; [|discriminate].
    exists first. rewrite app_nil_r in Hl. auto.
Qed.

(** X17: what the sliding window rejects before it executes anything. In a
    world where nothing fails, an input that is not four-dimensional raises
    [AssertionError], and a failure of the slicer computation is raised as
    it is; in both cases the network has been moved to the device and the
    cache emptied, and no image has been moved. *)
Theorem sliding_window_rejects_before_executing (self : predictor) (input_image : tensor)
    (target_code : list Z) (props : option properties) (with_attn : bool)
    (e : exn) (w : world) :
  quiet w →
  (ndim input_image ≠ 4%nat ∧ e = AssertionError)
  ∨ (ndim input_image = 4%nat
     ∧ _internal_get_sliding_window_slicers self
         (drop 1 (shape (fst (pad_nd_image input_image (patch_size self))))) = Raise e) →
  predict_sliding_window_return_logits self input_image target_code props with_attn w
  = (Raise e, after w [NetworkTo (self_device self); EmptyCache (self_device self)]).
Proof.
  intros Hq Hcase. unfold predict_sliding_window_return_logits.
  assert (H0 : faults w (clock w) = None) by (apply Hq; lia).
  rewrite (bind_ok _ _ w tt _ (ext_ok _ w H0)).
  assert (H1 : faults (after w [NetworkTo (self_device self)])
                 (clock (after w [NetworkTo (self_device self)])) = None).
  { cbn. apply Hq. lia. }
  rewrite (bind_ok _ _ _ tt _ (ext_ok _ _ H1)). rewrite after_after. cbn [app].
  destruct Hcase as [[Hnd ->] | [Hnd Hsl]].
  - apply bind_raise. unfold lift, assert.
    replace (Nat.eqb (ndim input_image) 4) with false
      by (symmetry; apply Nat.eqb_neq, Hnd).
    reflexivity.
  - rewrite Hnd. cbn [Nat.eqb assert].
    match goal with
    | |- (lift (Ok tt) ≫= ?f) ?w0 = _ => change ((lift (Ok tt) ≫= f) w0) with (f tt w0)
    end.
    destruct (pad_nd_image input_image (patch_size self)) as [data revert].
    cbn [fst] in Hsl. cbv beta iota. rewrite Hsl. reflexivity.
Qed.

End Executions.

Lemma host_predictor_never_retries_witness :
  let self := toy_predictor true true Mps toy_bundle in
  let w := Toy.world_with (Toy.fault_at 9 RuntimeError) None in
  (∀ data slicers,
     sliding_window_with_fallback self data slicers [1] None true
     = _internal_predict_sliding_window_return_logits self data slicers [1] false None true)
  ∧ ∃ l,
      executions (trace (snd (predict_sliding_window_return_logits self
                                (Toy.volume [1; 2; 3; 4; 5; 6]) [1] None true w)))
      = executions (trace w) ++ l
      ∧ (l = [] ∨ l = [Cpu]).
Proof.
  apply (host_predictor_never_retries (TL := Toy.tensors) (SC := Toy.scalars)
           (NW := Toy.network) (TK := Toy.toolkit)
           tt true true true Mps toy_bundle (Toy.volume [1; 2; 3; 4; 5; 6]) [1] None true
           (Toy.world_with (Toy.fault_at 9 RuntimeError) None)).
  discriminate.
Defined.

Lemma sliding_window_rejects_before_executing_witness :
  let w := Toy.world_with Toy.no_fault None in
  predict_sliding_window_return_logits Toy.on_device (Toy.tile [1; 2; 3; 4]) [1] None true w
  = (Raise AssertionError, after w [NetworkTo Cuda; EmptyCache Cuda]).
Proof.
  apply (sliding_window_rejects_before_executing (TL := Toy.tensors) (SC := Toy.scalars)
           (NW := Toy.network) (TK := Toy.toolkit)
           Toy.on_device (Toy.tile [1; 2; 3; 4]) [1] None true AssertionError
           (Toy.world_with Toy.no_fault None)).
  - intros n _. reflexivity.
  - left. split; [cbn; lia | reflexivity].
Defined.

(** ** The ensemble over the folds *)

Section Ensemble.
Context `{TL : TensorLib} `{SC : Scalar} `{NW : !Network} `{TK : !Toolkit}.




End Ensemble.


(** ** What [predict_from_files] does before it predicts *)

Section Bookkeeping.
Context `{TL : TensorLib} `{SC : Scalar} `{NW : !Network} `{TK : !Toolkit}.

Lemma fold_left_snoc_fmap {A B} (h : B → A) (l : list B) (acc : list A) :
  fold_left (fun acc b => acc ++ [h b]) l acc = acc ++ (h <$> l).
Proof.
  revert acc. induction l as [|b l IH]; intros acc; cbn.
  - rewrite app_nil_r. reflexivity.
  - rewrite IH, <- app_assoc. reflexivity.
Qed.

Lemma bind_singleton_fmap {A B} (h : B → A) (l : list B) :
  (l ≫= fun b => [h b]) = h <$> l.
Proof. induction l as [|b l IH]; cbn; [reflexivity | cbn in IH; rewrite IH; reflexivity]. Qed.

Lemma with_psnr_after (t : option Report.table) (w : world) evs :
  after (with_psnr t w) evs = with_psnr t (after w evs).
Proof. reflexivity. Qed.

(** The bookkeeping in a world where nothing fails: the folder and the
    three descriptions are written, the attribute is set to the empty
    table, and the contribution table is inferred and written. *)
Lemma record_run_quiet (self : predictor) (folder : string) (w : world) :
  quiet w →
  record_run self folder w
  = (Ok tt, with_psnr (Some (Report.empty_table (tsf_num_channel self)))
              (after w (record_events self folder (loaded w)))).
Proof.
  intros Hq. unfold record_run.
  set (N := tsf_num_channel self).
  set (p := loaded w).
  set (evs1 := [Makedirs folder;
                SaveJson (OsPath.join folder "predict_from_raw_data_args.json");
                SaveJson (OsPath.join folder "dataset.json");
                SaveJson (OsPath.join folder "plans.json")]).
  assert (H1 : returns p
            (ext (Makedirs folder);;
             ext (SaveJson (OsPath.join folder "predict_from_raw_data_args.json"));;
             ext (SaveJson (OsPath.join folder "dataset.json"));;
             ext (SaveJson (OsPath.join folder "plans.json"))) tt evs1).
  { eapply returns_eq.
    - eapply returns_bind; [apply returns_ext | cbv beta].
      eapply returns_bind; [apply returns_ext | cbv beta].
      eapply returns_bind; [apply returns_ext | cbv beta].
      apply returns_ext.
    - reflexivity. }
  set (evs2 := ((fun tgt => InferContribution (Codes.files_tgt_code N tgt)) <$> range N)
               ++ [InferContribution (Codes.files_seg_code N);
                   WriteContributionCsv
                     (OsPath.join folder "task-specific_sequence_contribution.csv")
                     (task_specific_rows self p)]).
  assert (H2 : returns p
            (ts_w ← for_eachM (range N) [] (fun ts_w tgt_id =>
               let tgt_code := Codes.files_tgt_code N tgt_id in
               p ← get_loaded;
               ext (InferContribution tgt_code);;
               mret (ts_w ++ [(Some tgt_id, infer_contribution p tgt_code)]));
             let seg_code := Codes.files_seg_code N in
             p ← get_loaded;
             ext (InferContribution seg_code);;
             let ts_w := ts_w ++ [(None, infer_contribution p seg_code)] in
             ext (WriteContributionCsv
                    (OsPath.join folder "task-specific_sequence_contribution.csv") ts_w))
            tt evs2).
  { eapply returns_eq.
    - eapply returns_bind.
      + apply (returns_for_eachM p _
                 (fun ts_w tgt =>
                    ts_w ++ [(Some tgt, infer_contribution p (Codes.files_tgt_code N tgt))])
                 (fun tgt => [InferContribution (Codes.files_tgt_code N tgt)])).
        intros ts_w tgt. cbv zeta.
        eapply returns_eq.
        * eapply returns_bind; [apply returns_get_loaded | cbv beta].
          eapply returns_bind; [apply returns_ext | cbv beta].
          apply returns_ret.
        * reflexivity.
      + cbv beta zeta.
        eapply returns_bind; [apply returns_get_loaded | cbv beta].
        eapply returns_bind; [apply returns_ext | cbv beta].
        apply returns_ext.
    - subst evs2. rewrite bind_singleton_fmap, fold_left_snoc_fmap. reflexivity. }
  assert (Hsplit : ∀ (m1 : M unit) (m2 : M unit) t,
            returns p m1 tt evs1 → returns p m2 tt evs2 →
            (m1;; set_psnr t;; m2) w = (Ok tt, with_psnr t (after w (evs1 ++ evs2)))).
  { intros m1 m2 t Hm1 Hm2.
    rewrite (bind_ok m1 _ w tt _ (Hm1 w Hq eq_refl)).
    rewrite (bind_ok (set_psnr t) _ _ tt (with_psnr t (after w evs1)) eq_refl).
    rewrite (Hm2 (with_psnr t (after w evs1))).
    - rewrite with_psnr_after, after_after. reflexivity.
    - apply (quiet_after w evs1 Hq).
    - reflexivity. }
  pose proof (Hsplit _ _ (Some (Report.empty_table N)) H1 H2) as Hrun.
  unfold record_events. fold N. fold p.
  change ([Makedirs folder;
           SaveJson (OsPath.join folder "predict_from_raw_data_args.json");
           SaveJson (OsPath.join folder "dataset.json");
           SaveJson (OsPath.join folder "plans.json")]) with evs1.
  fold evs2. rewrite <- Hrun.
  unfold mbind, M_bind.
  destruct (ext (Makedirs folder) w) as [[[]|e] w1]; [|reflexivity].
  destruct (ext (SaveJson (OsPath.join folder "predict_from_raw_data_args.json")) w1)
    as [[[]|e] w2]; [|reflexivity].
  destruct (ext (SaveJson (OsPath.join folder "dataset.json")) w2)
    as [[[]|e] w3]; [|reflexivity].
  destruct (ext (SaveJson (OsPath.join folder "plans.json")) w3)
    as [[[]|e] w4]; reflexivity.
Qed.

(** X19: the check of a cascaded model comes after the bookkeeping. For a
    model with a previous stage and no folder of previous-stage
    predictions, [predict_from_files] raises [AssertionError]; with an
    output folder and nothing failing, it has by then created the folder,
    written the three descriptions and the task-specific contribution table,
    and replaced the PSNR table of the predictor by an empty one. No case
    list is built and no pool opened. *)
Theorem cascade_check_follows_bookkeeping (self : predictor)
    (isfile : string → bool) (create_lists : string → string → list (list string))
    (src : Lists.source_spec) (folder : string) (save_probabilities overwrite : bool)
    (num_processes_segmentation_export num_parts part_id : nat) (w : world) :
  is_Some (previous_stage_name self) →
  quiet w →
  predict_from_files self isfile create_lists src (Lists.OutputFolder folder)
    save_probabilities overwrite num_processes_segmentation_export None num_parts part_id w
  = (Raise AssertionError,
     with_psnr (Some (Report.empty_table (tsf_num_channel self)))
       (after w (record_events self folder (loaded w)))).
Proof.
  intros [name Hname] Hq. unfold predict_from_files.
  rewrite (bind_ok (mret (Some folder)) _ w (Some folder) w eq_refl).
  rewrite (bind_ok _ _ w tt _ (record_run_quiet self folder w Hq)).
  rewrite Hname. reflexivity.
Qed.

(** X20: a call that finds nothing to predict. When the list management
    leaves no case (all outputs exist and [overwrite] is off, or the part is
    empty), [predict_from_files] with an output folder returns [None]; in a
    world where nothing fails it has done the bookkeeping, including the
    replacement of the PSNR table by an empty one, and nothing else: no pool
    is opened and no report is written. *)
Theorem nothing_to_predict_returns_none (self : predictor)
    (isfile : string → bool) (create_lists : string → string → list (list string))
    (src : Lists.source_spec) (folder : string) (save_probabilities overwrite : bool)
    (num_processes_segmentation_export : nat) (prev : option string)
    (num_parts part_id : nat) (outputs : option (list string)) (segs : list (option string))
    (w : world) :
  previous_stage_name self = None ∨ is_Some prev →
  Lists._manage_input_and_output_lists isfile create_lists (file_ending self) src
    (Lists.OutputFolder folder) prev overwrite part_id num_parts save_probabilities
  = Ok ([], outputs, segs) →
  quiet w →
  predict_from_files self isfile create_lists src (Lists.OutputFolder folder)
    save_probabilities overwrite num_processes_segmentation_export prev num_parts part_id w
  = (Ok None,
     with_psnr (Some (Report.empty_table (tsf_num_channel self)))
       (after w (record_events self folder (loaded w)))).
Proof.
  intros Hstage Hlists Hq. unfold predict_from_files.
  rewrite (bind_ok (mret (Some folder)) _ w (Some folder) w eq_refl).
  rewrite (bind_ok _ _ w tt _ (record_run_quiet self folder w Hq)).
  rewrite Hlists.
  destruct Hstage as [-> | [p ->]].
  - reflexivity.
  - destruct (previous_stage_name self); reflexivity.
Qed.

End Bookkeeping.

Lemma cascade_check_follows_bookkeeping_witness :
  let self := toy_predictor false true Cuda toy_cascade_bundle in
  let w := Toy.world_with Toy.no_fault None in
  predict_from_files self (fun _ => false) (fun _ _ => []) (Lists.SourceLists three_cases)
    (Lists.OutputFolder "out") false true 1 None 1 0 w
  = (Raise AssertionError,
     with_psnr (Some (Report.empty_table 1)) (after w (record_events self "out" 1))).
Proof.
  apply (cascade_check_follows_bookkeeping (TL := Toy.tensors) (SC := Toy.scalars)
           (NW := Toy.network) (TK := Toy.toolkit)
           (toy_predictor false true Cuda toy_cascade_bundle)
           (fun _ => false) (fun _ _ => []) (Lists.SourceLists three_cases) "out"
           false true 1 1 0 (Toy.world_with Toy.no_fault None)).
  - eexists. reflexivity.
  - intros n _. reflexivity.
Defined.

Lemma nothing_to_predict_returns_none_witness :
  let self := toy_predictor false true Cuda toy_bundle in
  let w := Toy.world_with Toy.no_fault (Some [[[7]]]) in
  predict_from_files self (fun _ => true) (fun _ _ => []) (Lists.SourceLists three_cases)
    (Lists.OutputFolder "out") false false 1 None 1 0 w
  = (Ok None,
     with_psnr (Some (Report.empty_table 1)) (after w (record_events self "out" 1))).
Proof.
  apply (nothing_to_predict_returns_none (TL := Toy.tensors) (SC := Toy.scalars)
           (NW := Toy.network) (TK := Toy.toolkit)
           (toy_predictor false true Cuda toy_bundle)
           (fun _ => true) (fun _ _ => []) (Lists.SourceLists three_cases) "out"
           false false 1 None 1 0 (Some []) [] (Toy.world_with Toy.no_fault (Some [[[7]]]))).
  - left. reflexivity.
  - reflexivity.
  - intros n _. reflexivity.
Defined.

(** ** The PSNR table only grows *)

Section TableGrowth.
Context `{TL : TensorLib} `{SC : Scalar} `{NW : !Network} `{TK : !Toolkit}.

Lemma extends_refl (t : Report.table) : extends t t.
Proof. split; [reflexivity | intros i j; reflexivity]. Qed.

Lemma extends_trans (t1 t2 t3 : Report.table) :
  extends t1 t2 → extends t2 t3 → extends t1 t3.
Proof.
  intros [Hl1 Hc1] [Hl2 Hc2]. split; [congruence|].
  intros i j. etransitivity; [apply Hc1 | apply Hc2].
Qed.

Lemma table_append_extends (t t' : list (list (list num))) src tgt x :
  Report.table_append t src tgt x = Ok t' → extends t t'.
Proof.
  unfold Report.table_append, index, Report.table.
  destruct (t !! src) as [row|] eqn:Hrow; cbn; [|intros; discriminate].
  destruct (row !! tgt) as [c|] eqn:Hcell; cbn; [|intros; discriminate].
  intros [= <-]. split; [rewrite length_insert; reflexivity|].
  intros i j. unfold cell.
  destruct (decide (i = src)) as [->|Hi].
  - rewrite list_lookup_insert_eq by (eapply lookup_lt_Some; exact Hrow).
    rewrite Hrow. cbn.
    destruct (decide (j = tgt)) as [->|Hj].
    + rewrite list_lookup_insert_eq by (eapply lookup_lt_Some; exact Hcell).
      rewrite Hcell. cbn. apply prefix_app_r. reflexivity.
    + rewrite list_lookup_insert_ne by congruence. reflexivity.
  - rewrite list_lookup_insert_ne by congruence. reflexivity.
Qed.

Lemma keeps_blind {A} (m : M A) : blind m → keeps m.
Proof.
  intros Hm w t Ht. exists t. split; [|apply extends_refl].
  pose proof (Hm w (psnr w)) as Hrun. rewrite with_psnr_same in Hrun.
  rewrite Hrun. cbn. exact Ht.
Qed.

Lemma keeps_bind {A B} (m : M A) (f : A → M B) :
  keeps m → (∀ a, keeps (f a)) → keeps (m ≫= f).
Proof.
  intros Hm Hf w t Ht. unfold mbind, M_bind.
  destruct (Hm w t Ht) as (t1 & Ht1 & Hext1).
  destruct (m w) as [[a|e] w1]; cbn [snd] in *.
  - destruct (Hf a w1 t1 Ht1) as (t2 & Ht2 & Hext2).
    exists t2. split; [exact Ht2 | eapply extends_trans; eassumption].
  - exists t1. auto.
Qed.

Lemma keeps_for_eachM {A B} (l : list B) (a : A) (body : A → B → M A) :
  (∀ a b, keeps (body a b)) → keeps (for_eachM l a body).
Proof.
  intros Hbody. revert a. induction l as [|b l IH]; intros a.
  - apply keeps_blind, blind_ret.
  - cbn [for_eachM]. apply keeps_bind; [apply Hbody | intros a'; apply IH].
Qed.

(** Reading the table loses nothing. *)
Lemma keeps_read {B} (f : Report.table → M B) :
  (∀ t, keeps (f t)) → keeps (get_psnr ≫= f).
Proof.
  intros Hf w t Ht. unfold mbind, M_bind, get_psnr. rewrite Ht. apply Hf, Ht.
Qed.

(** The one place that writes the table: it is read, a value is appended
    to one cell, and the result is stored. *)
Lemma keeps_append {C} src tgt x (k : M C) :
  keeps k →
  keeps (t ← get_psnr; t' ← lift (Report.table_append t src tgt x);
         set_psnr (Some t');; k).
Proof.
  intros Hk w t Ht. unfold mbind, M_bind, get_psnr, lift, set_psnr. rewrite Ht.
  destruct (Report.table_append t src tgt x) as [ta|e] eqn:Happend; cbn [snd].
  - match goal with
    | |- context [k ?w1] =>
        destruct (Hk w1 ta eq_refl) as (t2 & Ht2 & Hext)
    end.
    exists t2. split; [exact Ht2|].
    eapply extends_trans; [eapply table_append_extends; exact Happend | exact Hext].
  - exists t. split; [exact Ht | apply extends_refl].
Qed.

Ltac keeps_step :=
  match goal with
  | |- keeps (get_psnr ≫= _) => first [apply keeps_append | apply keeps_read; intros ?]
  | |- keeps (call_predict_logits_from_preprocessed_data _ _ _ _ _) =>
      apply keeps_blind, blind_call_predict_logits
  | |- keeps (submit _ _) => apply keeps_blind, blind_submit
  | |- keeps (collect _) => apply keeps_blind, blind_collect
  | |- keeps (mret _) => apply keeps_blind, blind_ret
  | |- keeps (raise _) => apply keeps_blind, blind_raise
  | |- keeps (lift _) => apply keeps_blind, blind_lift
  | |- keeps (ext _) => apply keeps_blind, blind_ext
  | |- keeps (_ ≫= _) => apply keeps_bind; [|intros ?]
  | |- keeps (for_eachM _ _ _) => apply keeps_for_eachM; intros ? ?
  | |- keeps (match ?x with _ => _ end) => destruct x
  | |- keeps (let _ := _ in _) => cbv zeta
  end.

Lemma keeps_sweep_source self save_probabilities data ofile props tgt_seq tgt_code st src :
  keeps (sweep_source self save_probabilities data ofile props tgt_seq tgt_code st src).
Proof. unfold sweep_source. repeat keeps_step. Qed.

Lemma keeps_sweep_target self save_probabilities data ofile props r tgt_seq :
  keeps (sweep_target self save_probabilities data ofile props r tgt_seq).
Proof. unfold sweep_target. repeat first [apply keeps_sweep_source | keeps_step]. Qed.

Lemma keeps_sweep_case self save_probabilities st rec :
  keeps (sweep_case self save_probabilities st rec).
Proof. unfold sweep_case. repeat first [apply keeps_sweep_target | keeps_step]. Qed.

Lemma keeps_predict_from_data_iterator self data_iterator multithreaded
    save_probabilities num_processes_segmentation_export :
  keeps (predict_from_data_iterator self data_iterator multithreaded
           save_probabilities num_processes_segmentation_export).
Proof.
  unfold predict_from_data_iterator, write_contribution_report.
  repeat first [apply keeps_sweep_case | keeps_step].
Qed.

(** X21: a sweep never loses an observation. If the predictor has a PSNR
    table when [predict_from_data_iterator] or
    [predict_from_list_of_npy_arrays] is called, it has one afterwards,
    whether the call returns or raises and whatever fails on the way, and
    every cell of the old table is the beginning of the same cell of the new
    one: values are only appended, and tables of successive calls
    accumulate. *)
Theorem sweep_only_appends_to_the_table (self : predictor) (t : Report.table) (w : world) :
  psnr w = Some t →
  (∀ data_iterator multithreaded save_probabilities n,
     ∃ t', psnr (snd (predict_from_data_iterator self data_iterator multithreaded
                        save_probabilities n w)) = Some t'
           ∧ extends t t')
  ∧ (∀ images segs props names save_probabilities n,
       ∃ t', psnr (snd (predict_from_list_of_npy_arrays self images segs props names
                          save_probabilities n w)) = Some t'
             ∧ extends t t').
Proof.
  intros Ht. split.
  - intros it mt sp n. apply keeps_predict_from_data_iterator, Ht.
  - intros images segs props names sp n. unfold predict_from_list_of_npy_arrays.
    apply keeps_predict_from_data_iterator, Ht.
Qed.

End TableGrowth.

Lemma sweep_only_appends_to_the_table_witness :
  let w := Toy.world_with Toy.no_fault (Some [[[7]]]) in
  ∃ t',
    psnr (snd (predict_from_data_iterator Toy.on_device [Toy.record_for (Some "out/case")]
                 false false 1 w)) = Some t'
    ∧ extends (SC := Toy.scalars) [[[7]]] t'.
Proof.
  apply (proj1 (sweep_only_appends_to_the_table (TL := Toy.tensors) (SC := Toy.scalars)
                  (NW := Toy.network) (TK := Toy.toolkit)
                  Toy.on_device [[[7]]] (Toy.world_with Toy.no_fault (Some [[[7]]]))
                  eq_refl)).
Defined.

(** ** The command-line entry points *)

Section EntryPointFacts.
Context `{TL : TensorLib} `{SC : Scalar} `{NW : !Network} `{TK : !Toolkit}.
Variable default_step_size : tile_step.

Lemma choose_device_ok (name : string) (dev : device) :
  choose_device name = Ok dev →
  (name = "cpu"%string ∧ dev = Cpu) ∨ (name = "cuda"%string ∧ dev = Cuda)
  ∨ (name = "mps"%string ∧ dev = Mps).
Proof.
  unfold choose_device, assert.
  destruct (String.eqb name "cpu") eqn:Hcpu; cbn.
  { intros [= <-]. left. apply String.eqb_eq in Hcpu. auto. }
  destruct (String.eqb name "cuda") eqn:Hcuda; cbn.
  { intros [= <-]. right; left. apply String.eqb_eq in Hcuda. auto. }
  destruct (String.eqb name "mps") eqn:Hmps; cbn; [|discriminate].
  intros [= <-]. right; right. apply String.eqb_eq in Hmps. auto.
Qed.

(** X22: [predict_entry_point] never mirrors. Its flag [--disable_tta] is a
    [store_true] flag whose default is [True], so the predictor it
    constructs has [use_mirroring = False] whether the flag is given or not;
    [predict_entry_point_modelfolder], whose default is [False], mirrors
    exactly when the flag is absent. Both ask for the results to be kept on
    the device, which the constructor grants on cuda only. *)
Theorem predict_entry_point_never_mirrors (isdir : string → bool) (cl : command_line) :
  (∀ d c p tr s,
     snd (predict_entry_point default_step_size isdir d c p tr cl) = Ok s →
     c_use_mirroring (s_predictor s) = false
     ∧ (c_perform_everything_on_device (s_predictor s) = true
        ↔ c_device (s_predictor s) = Cuda))
  ∧ (∀ m s,
       snd (predict_entry_point_modelfolder default_step_size isdir m cl) = Ok s →
       c_use_mirroring (s_predictor s) = negb (cl_disable_tta cl)
       ∧ (c_perform_everything_on_device (s_predictor s) = true
          ↔ c_device (s_predictor s) = Cuda)).
Proof.
  split.
  - intros d c p tr s. unfold predict_entry_point.
    destruct (comprehension convert_fold (raw_folds cl)) as [f|e]; [|discriminate].
    cbn [snd]. destruct (assert _); [|discriminate]. cbn.
    destruct (choose_device _) as [dev|e]; [|discriminate]. cbn.
    intros [= <-]. cbn. split.
    + destruct (cl_disable_tta cl); reflexivity.
    + destruct dev; split; congruence.
  - intros m s. unfold predict_entry_point_modelfolder.
    destruct (comprehension convert_fold (raw_folds cl)) as [f|e]; [|discriminate].
    cbn [snd].
    destruct (choose_device _) as [dev|e]; [|discriminate]. cbn.
    intros [= <-]. cbn. split.
    + destruct (cl_disable_tta cl); reflexivity.
    + destruct dev; split; congruence.
Qed.




End EntryPointFacts.

Lemma predict_entry_point_never_mirrors_witness :
  (∃ s, snd (predict_entry_point (TL := Toy.tensors) (SC := Toy.scalars) (TK := Toy.toolkit)
               tt (fun _ => false) "Dataset001" "3d_fullres" None None bare_command_line) = Ok s
        ∧ c_use_mirroring (s_predictor s) = false
        ∧ c_device (s_predictor s) = Cuda)
  ∧ (∃ s, snd (predict_entry_point_modelfolder (TL := Toy.tensors) (SC := Toy.scalars)
                 (TK := Toy.toolkit) tt (fun _ => false) "model" full_command_line) = Ok s
          ∧ c_use_mirroring (s_predictor s) = false
          ∧ c_perform_everything_on_device (s_predictor s) = false
          ∧ s_folds s = [Fold 0; FoldAll; Fold 12]).
Proof.
  split.
  - eexists. split; [reflexivity|].
    pose proof (proj1 (predict_entry_point_never_mirrors (TL := Toy.tensors)
                         (SC := Toy.scalars) (TK := Toy.toolkit)
                         tt (fun _ => false) bare_command_line)
                  "Dataset001"%string "3d_fullres"%string None None _ eq_refl) as [Hm _].
    split; [exact Hm | reflexivity].
  - eexists. split; [reflexivity|].
    pose proof (proj2 (predict_entry_point_never_mirrors (TL := Toy.tensors)
                         (SC := Toy.scalars) (TK := Toy.toolkit)
                         tt (fun _ => false) full_command_line)
                  "model"%string _ eq_refl) as [Hm _].
    split; [exact Hm|]. split; reflexivity.
Defined.


(** ** The channels of a case on the fusion path *)

Section Channels.
Context `{TL : TensorLib} `{SC : Scalar} `{NW : !Network} `{TK : !Toolkit}.

Lemma scatter_loop (x : tensor) (n : nat) (pairs : list (nat * nat)) :
  ∀ acc : list tensor, length acc = n →
    (Forall (fun p => (snd p < n)%nat) pairs →
     ∃ acc', for_each pairs acc (fun tsf_data '(i, seq_i) =>
               _ ← index tsf_data seq_i;
               Ok (<[seq_i := narrow 1 i x]> tsf_data)) = Ok acc')
    ∧ (Exists (fun p => (n ≤ snd p)%nat) pairs →
       for_each pairs acc (fun tsf_data '(i, seq_i) =>
         _ ← index tsf_data seq_i;
         Ok (<[seq_i := narrow 1 i x]> tsf_data)) = Raise IndexError).
Proof.
  set (body := fun (tsf_data : list tensor) '(i, seq_i) =>
                 _ ← index tsf_data seq_i;
                 Ok (<[seq_i := narrow 1 i x]> tsf_data)).
  induction pairs as [|[i s] pairs IH]; intros acc Hlen.
  - split; [intros _; exists acc; reflexivity | intros Hex; inversion Hex].
  - cbn [for_each].
    destruct (acc !! s) as [t|] eqn:Hs.
    + assert (Hstep : body acc (i, s) = Ok (<[s := narrow 1 i x]> acc))
        by (unfold body, index; rewrite Hs; reflexivity).
      rewrite Hstep. cbn.
      assert (Hlen' : length (<[s := narrow 1 i x]> acc) = n)
        by (rewrite length_insert; exact Hlen).
      destruct (IH _ Hlen') as [Hall Hex]. split.
      * intros Hforall. apply Hall. inversion Hforall; assumption.
      * intros Hexists. apply Hex. inversion Hexists as [? ? Hbad|]; subst; [|assumption].
        cbn in Hbad. apply lookup_lt_Some in Hs. lia.
    + assert (Hstep : body acc (i, s) = Raise IndexError)
        by (unfold body, index; rewrite Hs; reflexivity).
      rewrite Hstep. cbn. split; [|reflexivity].
      intros Hforall. inversion Hforall as [|? ? Hlt]; subst. cbn in Hlt.
      apply lookup_ge_None in Hs. lia.
Qed.

Lemma enumerate_forall {A} (P : A → Prop) (l : list A) :
  Forall P l → Forall (fun p => P (snd p)) (imap (fun i s => (i, s)) l).
Proof.
  intros Hl. apply Forall_lookup. intros k [i s] Hk.
  rewrite list_lookup_imap in Hk.
  destruct (l !! k) as [a|] eqn:Ha; [|discriminate]. injection Hk as <- <-.
  cbn. eapply Forall_lookup_1; eassumption.
Qed.

Lemma enumerate_exists {A} (P : A → Prop) (l : list A) :
  Exists P l → Exists (fun p => P (snd p)) (imap (fun i s => (i, s)) l).
Proof.
  intros Hl. apply Exists_exists in Hl as (a & Ha & HP).
  apply list_elem_of_lookup in Ha as [k Hk].
  apply Exists_exists. exists (k, a). split; [|exact HP].
  apply list_elem_of_lookup. exists k. rewrite list_lookup_imap, Hk. reflexivity.
Qed.

(** X24: the channel indices of a case are checked before the network is
    run. On the fusion path the tile of a case whose available channels
    all lie below [num_channel] is staged; if one of them does not, the
    tile prediction raises [IndexError] and has called nothing: neither the
    encoder nor any transfer. *)
Theorem channel_indices_are_checked_first (self : predictor) (x : tensor)
    (target_code : list Z) (props : properties) (with_attn : bool) :
  (Forall (fun s => (s < num_channel props)%nat) (available_channel props) →
   ∃ inp, tile_input_of self x target_code (Some props) = Ok inp)
  ∧ (Exists (fun s => (num_channel props ≤ s)%nat) (available_channel props) →
     ∀ w, _internal_maybe_mirror_and_predict self x target_code (Some props) with_attn w
          = (Raise IndexError, w)).
Proof.
  assert (Hblank : length ((fun _ : nat => zeros_like (narrow 1 0 x))
                             <$> range (num_channel props)) = num_channel props)
    by (rewrite length_fmap; apply length_seq).
  destruct (scatter_loop x (num_channel props)
              (imap (fun i s => (i, s)) (available_channel props)) _ Hblank)
    as [Hall Hex].
  split.
  - intros Hforall.
    destruct (Hall (enumerate_forall (fun s => (s < num_channel props)%nat) _ Hforall))
      as (acc & Hacc).
    unfold tile_input_of, scatter_channels. rewrite Hacc. cbn. eexists. reflexivity.
  - intros Hexists w.
    pose proof (Hex (enumerate_exists (fun s => (num_channel props ≤ s)%nat) _ Hexists))
      as Hraise.
    unfold _internal_maybe_mirror_and_predict, scatter_channels. rewrite Hraise.
    reflexivity.
Qed.

End Channels.

Lemma channel_indices_are_checked_first_witness :
  let props := {| num_channel := 2; available_channel := [0%nat; 2%nat] |} in
  let w := Toy.world_with Toy.no_fault None in
  _internal_maybe_mirror_and_predict Toy.on_device (Toy.tile [1; 2; 4; 3]) [1]
    (Some props) true w
  = (Raise IndexError, w).
Proof.
  apply (proj2 (channel_indices_are_checked_first (TL := Toy.tensors) (SC := Toy.scalars)
                  (NW := Toy.network) (TK := Toy.toolkit)
                  Toy.on_device (Toy.tile [1; 2; 4; 3]) [1]
                  {| num_channel := 2; available_channel := [0%nat; 2%nat] |} true)).
  apply Exists_cons_tl, Exists_cons_hd. cbn. lia.
Defined.

(** ** The jobs of the export pool *)

Section Pool.
Context `{TL : TensorLib} `{SC : Scalar} `{NW : !Network} `{TK : !Toolkit}.

Lemma ignores_ret {A} (a : A) : ignores_pool (mret a).
Proof. intros w. reflexivity. Qed.

Lemma ignores_raise {A} e : ignores_pool (raise (A := A) e).
Proof. intros w. reflexivity. Qed.

Lemma ignores_lift {A} (r : res A) : ignores_pool (lift r).
Proof. intros w. reflexivity. Qed.

Lemma ignores_get_loaded : ignores_pool get_loaded.
Proof. intros w. reflexivity. Qed.

Lemma ignores_set_loaded p : ignores_pool (set_loaded p).
Proof. intros w. reflexivity. Qed.

Lemma ignores_get_bound : ignores_pool get_tile_outputs_bound.
Proof. intros w. reflexivity. Qed.

Lemma ignores_set_bound b : ignores_pool (set_tile_outputs_bound b).
Proof. intros w. reflexivity. Qed.

Lemma ignores_set_psnr t : ignores_pool (set_psnr t).
Proof. intros w. reflexivity. Qed.

Lemma ignores_get_psnr : ignores_pool get_psnr.
Proof. intros w. unfold get_psnr. destruct (psnr w); reflexivity. Qed.

Lemma ignores_ext e :
  match e with Submit _ | Get _ => False | _ => True end → ignores_pool (ext e).
Proof.
  intros He w. unfold ext.
  destruct (faults w (clock w)); cbn [snd trace]; unfold pool_log;
    rewrite omap_app; destruct e; try contradiction; cbn; apply app_nil_r.
Qed.

Lemma ignores_bind {A B} (m : M A) (f : A → M B) :
  ignores_pool m → (∀ a, ignores_pool (f a)) → ignores_pool (m ≫= f).
Proof.
  intros Hm Hf w. unfold mbind, M_bind. specialize (Hm w).
  destruct (m w) as [[a|e] w1]; cbn [snd] in *.
  - rewrite Hf. exact Hm.
  - exact Hm.
Qed.

Lemma ignores_try_except {A} (body : M A) (handler : exn → M A) :
  ignores_pool body → (∀ e, ignores_pool (handler e)) → ignores_pool (try_except body handler).
Proof.
  intros Hb Hh w. unfold try_except. specialize (Hb w).
  destruct (body w) as [[a|e] w1]; cbn [snd] in *.
  - exact Hb.
  - rewrite Hh. exact Hb.
Qed.

Lemma ignores_for_eachM {A B} (l : list B) (a : A) (body : A → B → M A) :
  (∀ a b, ignores_pool (body a b)) → ignores_pool (for_eachM l a body).
Proof.
  intros Hbody. revert a. induction l as [|b l IH]; intros a.
  - apply ignores_ret.
  - cbn [for_eachM]. apply ignores_bind; [apply Hbody | intros a'; apply IH].
Qed.

Ltac ignores_step :=
  match goal with
  | |- ignores_pool (mret _) => apply ignores_ret
  | |- ignores_pool (raise _) => apply ignores_raise
  | |- ignores_pool (lift _) => apply ignores_lift
  | |- ignores_pool (ext _) => apply ignores_ext; exact I
  | |- ignores_pool get_loaded => apply ignores_get_loaded
  | |- ignores_pool (set_loaded _) => apply ignores_set_loaded
  | |- ignores_pool get_tile_outputs_bound => apply ignores_get_bound
  | |- ignores_pool (set_tile_outputs_bound _) => apply ignores_set_bound
  | |- ignores_pool get_psnr => apply ignores_get_psnr
  | |- ignores_pool (set_psnr _) => apply ignores_set_psnr
  | |- ignores_pool (_ ≫= _) => apply ignores_bind; [|intros ?]
  | |- ignores_pool (try_except _ _) => apply ignores_try_except; [|intros ?]
  | |- ignores_pool (for_eachM _ _ _) => apply ignores_for_eachM; intros ? ?
  | |- ignores_pool (match ?x with _ => _ end) => destruct x
  end.

Lemma ignores_run_pass target_code with_attn inp :
  ignores_pool (run_pass target_code with_attn inp).
Proof.
  destruct inp; cbn [run_pass]; unfold run_bare_pass, run_fused_pass; repeat ignores_step.
Qed.

Lemma ignores_mirror self x target_code props with_attn :
  ignores_pool (_internal_maybe_mirror_and_predict self x target_code props with_attn).
Proof.
  unfold _internal_maybe_mirror_and_predict.
  repeat first [apply ignores_run_pass | ignores_step].
Qed.

Lemma ignores_internal self data slicers target_code do_on_device props with_attn :
  ignores_pool (_internal_predict_sliding_window_return_logits self data slicers
                  target_code do_on_device props with_attn).
Proof.
  unfold _internal_predict_sliding_window_return_logits, sliding_window_body,
    sliding_window_tiles, sliding_window_handler, check_for_infs.
  repeat first [apply ignores_mirror | ignores_step].
Qed.

Lemma ignores_sliding_window self input_image target_code props with_attn :
  ignores_pool (predict_sliding_window_return_logits self input_image target_code
                  props with_attn).
Proof.
  unfold predict_sliding_window_return_logits, sliding_window_with_fallback,
    except_RuntimeError.
  repeat first [apply ignores_internal | ignores_step].
Qed.

Lemma ignores_call_predict_logits self data target_code props with_attn :
  ignores_pool (call_predict_logits_from_preprocessed_data self data target_code
                  props with_attn).
Proof.
  unfold call_predict_logits_from_preprocessed_data,
    predict_logits_from_preprocessed_data, move3.
  repeat first [apply ignores_sliding_window | ignores_step].
Qed.

Lemma appends_ret {A} (jobs : A → list job) (a : A) : appends_jobs jobs (jobs a) (mret a).
Proof.
  intros w a' w' [= <- <-]. exists []. rewrite !app_nil_r. split; reflexivity.
Qed.

Lemma appends_submit (r : list job) (j : job) : appends_jobs (fun r => r) r (submit r j).
Proof.
  intros w a w' Hrun. unfold submit in Hrun.
  apply bind_ok_inv in Hrun as ([] & w1 & Hext & Hret).
  injection Hret as <- <-. apply ext_ok_inv in Hext as ->.
  exists [j]. split; [reflexivity|].
  cbn [after trace]. unfold pool_log. rewrite omap_app. reflexivity.
Qed.

Lemma appends_after_ignores {A B} (jobs : B → list job) r (m : M A) (f : A → M B) :
  ignores_pool m → (∀ a, appends_jobs jobs r (f a)) → appends_jobs jobs r (m ≫= f).
Proof.
  intros Hm Hf w b w' Hrun.
  apply bind_ok_inv in Hrun as (a & w1 & Hma & Hfb).
  destruct (Hf a w1 b w' Hfb) as (new & Hjobs & Hlog).
  exists new. split; [exact Hjobs|].
  rewrite Hlog. pose proof (Hm w) as Hsame. rewrite Hma in Hsame. cbn in Hsame.
  rewrite Hsame. reflexivity.
Qed.

Lemma appends_bind {A B} (jobs1 : A → list job) (jobs2 : B → list job) r
    (m : M A) (f : A → M B) :
  appends_jobs jobs1 r m → (∀ a, appends_jobs jobs2 (jobs1 a) (f a)) →
  appends_jobs jobs2 r (m ≫= f).
Proof.
  intros Hm Hf w b w' Hrun.
  apply bind_ok_inv in Hrun as (a & w1 & Hma & Hfb).
  destruct (Hm w a w1 Hma) as (new1 & Hjobs1 & Hlog1).
  destruct (Hf a w1 b w' Hfb) as (new2 & Hjobs2 & Hlog2).
  exists (new1 ++ new2). split.
  - rewrite Hjobs2, Hjobs1, app_assoc. reflexivity.
  - rewrite Hlog2, Hlog1, fmap_app, app_assoc. reflexivity.
Qed.

Lemma appends_for_eachM {A B} (jobs : A → list job) (l : list B) (body : A → B → M A) :
  (∀ a b, appends_jobs jobs (jobs a) (body a b)) →
  ∀ a, appends_jobs jobs (jobs a) (for_eachM l a body).
Proof.
  intros Hbody. induction l as [|b l IH]; intros a.
  - apply appends_ret.
  - cbn [for_eachM]. eapply appends_bind; [apply Hbody | intros a'; apply IH].
Qed.

Lemma ignores_ok {A} (m : M A) w a w' :
  ignores_pool m → m w = (Ok a, w') → pool_log (trace w') = pool_log (trace w).
Proof. intros Hm Hrun. pose proof (Hm w) as Hsame. rewrite Hrun in Hsame. exact Hsame. Qed.

Ltac ignores_all :=
  repeat first [apply ignores_call_predict_logits | ignores_step].

Ltac appends_step :=
  match goal with
  | |- appends_jobs _ _ (submit _ _ ≫= _) =>
      eapply (appends_bind (fun r => r)); [apply appends_submit | intros ?]
  | |- appends_jobs _ _ ((if ?c then submit _ _ else mret _) ≫= _) =>
      eapply (appends_bind (fun r => r));
      [destruct c; [apply appends_submit | apply (appends_ret (fun r => r))] | intros ?]
  | |- appends_jobs _ _ (mret _) => first [apply (appends_ret fst) | apply (appends_ret (fun r => r))]
  | |- appends_jobs _ _ (_ ≫= _) =>
      apply appends_after_ignores; [solve [ignores_all] | intros ?]
  | |- appends_jobs _ _ (match ?x with _ => _ end) => destruct x
  end.

Lemma appends_sweep_source self save_probabilities data ofile props tgt_seq tgt_code
    (st : list job * tensor) (src : nat * nat) :
  appends_jobs fst (fst st)
    (sweep_source self save_probabilities data ofile props tgt_seq tgt_code st src).
Proof.
  unfold sweep_source. destruct st as [r md], src as [src_idx src_seq]. cbn [fst].
  repeat appends_step.
Qed.

Lemma appends_sweep_target self save_probabilities data ofile props
    (r : list job) (tgt_seq : nat) :
  appends_jobs (fun r => r) r
    (sweep_target self save_probabilities data ofile props r tgt_seq).
Proof.
  unfold sweep_target.
  do 9 appends_step.
  eapply (appends_bind fst).
  - apply (appends_for_eachM fst _ _ (appends_sweep_source _ _ _ _ _ _ _) (_, _)).
  - intros st. apply (appends_ret (fun r => r)).
Qed.

Lemma appends_sweep_case self save_probabilities
    (st : list job * option (option string)) (rec : preprocessed) :
  appends_jobs fst (fst st) (sweep_case self save_probabilities st rec).
Proof.
  unfold sweep_case.
  apply appends_after_ignores; [solve [ignores_all] | intros data].
  apply appends_after_ignores; [solve [ignores_all] | intros _].
  eapply (appends_bind (fun r => r)).
  - apply (appends_for_eachM (fun r => r) _ _ (appends_sweep_target _ _ _ _ _)).
  - intros r. apply (appends_ret fst (r, _)).
Qed.

Lemma collect_fetches (r : list job) :
  ∀ (acc : list exported) w ret w',
    for_eachM r acc (fun ret j => ext (Get j);; mret (ret ++ [job_result j])) w
    = (Ok ret, w') →
    ret = acc ++ (job_result <$> r)
    ∧ pool_log (trace w') = pool_log (trace w) ++ (inr <$> r).
Proof.
  induction r as [|j r IH]; intros acc w ret w' Hrun.
  - injection Hrun as <- <-. rewrite !app_nil_r. split; reflexivity.
  - cbn [for_eachM] in Hrun.
    apply bind_ok_inv in Hrun as (acc1 & w1 & Hbody & Hrest).
    apply bind_ok_inv in Hbody as ([] & w2 & Hext & Hret).
    injection Hret as <- <-. apply ext_ok_inv in Hext as ->.
    destruct (IH _ _ _ _ Hrest) as [-> Hlog]. split.
    + rewrite <- app_assoc. reflexivity.
    + rewrite Hlog. cbn [after trace]. unfold pool_log at 1. rewrite omap_app.
      cbn. rewrite <- app_assoc. reflexivity.
Qed.

(** X25: every job is fetched once, in the order of submission. When
    [predict_from_data_iterator] returns, the list it returns holds the
    results of the jobs it has submitted to the export pool, one per job and
    in the order of submission; all submissions come before the first
    result is fetched, and the results are fetched in that same order. *)
Theorem results_follow_submission_order (self : predictor)
    (data_iterator : list preprocessed) (multithreaded save_probabilities : bool)
    (num_processes_segmentation_export : nat) (w w' : world) (ret : list exported) :
  predict_from_data_iterator self data_iterator multithreaded save_probabilities
    num_processes_segmentation_export w = (Ok ret, w') →
  ∃ jobs,
    ret = job_result <$> jobs
    ∧ pool_log (trace w') = pool_log (trace w) ++ (inl <$> jobs) ++ (inr <$> jobs).
Proof.
  intros Hrun. unfold predict_from_data_iterator in Hrun.
  apply bind_ok_inv in Hrun as ([] & w1 & Hopen & Hrun).
  apply bind_ok_inv in Hrun as (st & w2 & Hloop & Hrun).
  apply bind_ok_inv in Hrun as (ret' & w3 & Hcollect & Hrun).
  apply bind_ok_inv in Hrun as ([] & w4 & Hfinish & Hrun).
  apply bind_ok_inv in Hrun as ([] & w5 & Hreport & Hrun).
  apply bind_ok_inv in Hrun as ([] & w6 & Hclear & Hrun).
  apply bind_ok_inv in Hrun as ([] & w7 & Hempty & Hret).
  injection Hret as <- <-.
  destruct (appends_for_eachM fst data_iterator _ (appends_sweep_case self save_probabilities)
              ([], None) w1 st w2 Hloop) as (jobs & Hjobs & Hlog2).
  cbn [fst app] in Hjobs.
  destruct (collect_fetches _ _ _ _ _ Hcollect) as [-> Hlog3].
  exists jobs. rewrite Hjobs. split; [reflexivity|].
  assert (H7 : pool_log (trace w7) = pool_log (trace w6))
    by (eapply ignores_ok; [|exact Hempty]; ignores_all).
  assert (H6 : pool_log (trace w6) = pool_log (trace w5))
    by (eapply ignores_ok; [|exact Hclear]; ignores_all).
  assert (H5 : pool_log (trace w5) = pool_log (trace w4))
    by (eapply ignores_ok; [|exact Hreport]; unfold write_contribution_report; ignores_all).
  assert (H4 : pool_log (trace w4) = pool_log (trace w3))
    by (eapply ignores_ok; [|exact Hfinish]; ignores_all).
  assert (H1 : pool_log (trace w1) = pool_log (trace w))
    by (eapply ignores_ok; [|exact Hopen]; ignores_all).
  rewrite H7, H6, H5, H4, Hlog3, Hjobs, Hlog2, H1.
  rewrite <- app_assoc. reflexivity.
Qed.

End Pool.

Lemma results_follow_submission_order_witness :
  let w := Toy.world_with Toy.no_fault (Some (Report.empty_table 1)) in
  let run := predict_from_data_iterator Toy.on_device [Toy.record_for (Some "out/case")]
               false false 1 w in
  ∃ jobs,
    fst run = Ok (job_result <$> jobs)
    ∧ pool_log (trace (snd run)) = pool_log (trace w) ++ (inl <$> jobs) ++ (inr <$> jobs).
Proof.
  intros w run.
  assert (Hok : is_ok (fst run) = true) by (vm_compute; reflexivity).
  destruct run as [[ret|e] w'] eqn:Hrun; [|discriminate].
  destruct (results_follow_submission_order (TL := Toy.tensors) (SC := Toy.scalars)
              (NW := Toy.network) (TK := Toy.toolkit)
              Toy.on_device [Toy.record_for (Some "out/case")] false false 1 w w' ret Hrun)
    as (jobs & Hret & Hlog).
  exists jobs. cbn [fst snd]. split; [rewrite Hret; reflexivity | exact Hlog].
Defined.

(** ** An iterator without records *)

Section EmptyInputs.
Context `{TL : TensorLib} `{SC : Scalar} `{NW : !Network} `{TK : !Toolkit}.

(** X26: an empty iterator never yields a result. The report of
    [predict_from_data_iterator] is written next to the [ofile] of the last
    record; with no record the name is unbound, so the call raises in every
    world. When nothing fails outside and the report can be computed from
    the table, the exception is [UnboundLocalError], raised after the pool
    was opened and, for a multi-threaded iterator, the iterator finished;
    nothing is written. *)
Theorem empty_iterator_never_returns (self : predictor)
    (multithreaded save_probabilities : bool) (n : nat) (w : world) :
  is_ok (fst (predict_from_data_iterator self [] multithreaded save_probabilities n w))
  = false
  ∧ (∀ t rows,
       quiet w → psnr w = Some t →
       Report.synthesis_based_sequence_contribution (tsf_num_channel self) t = Ok rows →
       predict_from_data_iterator self [] multithreaded save_probabilities n w
       = (Raise UnboundLocalError,
          after w (PoolOpen n :: if multithreaded then [FinishIterator] else []))).
Proof.
  split.
  - destruct (predict_from_data_iterator self [] multithreaded save_probabilities n w)
      as [[ret|e] w'] eqn:Hrun; [|reflexivity].
    exfalso. unfold predict_from_data_iterator in Hrun.
    apply bind_ok_inv in Hrun as ([] & w1 & _ & Hrun).
    apply bind_ok_inv in Hrun as (st & w2 & Hloop & Hrun).
    injection Hloop as <- <-.
    apply bind_ok_inv in Hrun as (ret' & w3 & _ & Hrun).
    apply bind_ok_inv in Hrun as ([] & w4 & _ & Hrun).
    apply bind_ok_inv in Hrun as ([] & w5 & Hreport & _).
    unfold write_contribution_report in Hreport. cbn [snd] in Hreport.
    apply bind_ok_inv in Hreport as (t & w6 & _ & Hreport).
    apply bind_ok_inv in Hreport as (rows & w7 & _ & Hreport).
    apply bind_ok_inv in Hreport as (ofile & w8 & Hofile & _).
    discriminate.
  - intros t rows Hq Ht Hrows. unfold predict_from_data_iterator.
    assert (H0 : faults w (clock w) = None) by (apply Hq; lia).
    rewrite (bind_ok _ _ w tt _ (ext_ok _ w H0)).
    rewrite (bind_ok (for_eachM [] ([], None) (sweep_case self save_probabilities)) _
               (after w [PoolOpen n]) ([], None) (after w [PoolOpen n]) eq_refl).
    cbn [fst snd].
    rewrite (bind_ok (collect []) _ (after w [PoolOpen n]) [] (after w [PoolOpen n])
               eq_refl).
    assert (Hfinish : (if multithreaded then ext FinishIterator else mret tt)
                        (after w [PoolOpen n])
                      = (Ok tt, after w (PoolOpen n ::
                                           if multithreaded then [FinishIterator] else []))).
    { destruct multithreaded.
      - rewrite ext_ok by (cbn; apply Hq; lia). rewrite after_after. reflexivity.
      - reflexivity. }
    rewrite (bind_ok _ _ _ tt _ Hfinish).
    apply bind_raise. unfold write_contribution_report. cbn [snd].
    assert (Hget : get_psnr (after w (PoolOpen n ::
                     if multithreaded then [FinishIterator] else []))
                   = (Ok t, after w (PoolOpen n ::
                        if multithreaded then [FinishIterator] else [])))
      by (unfold get_psnr; cbn [psnr after]; rewrite Ht; reflexivity).
    rewrite (bind_ok _ _ _ t _ Hget). rewrite Hrows.
    rewrite (bind_ok (lift (Ok rows)) _ _ rows _ eq_refl).
    reflexivity.
Qed.

End EmptyInputs.

Lemma empty_iterator_never_returns_witness :
  let w := Toy.world_with Toy.no_fault (Some (Report.empty_table 1)) in
  predict_from_data_iterator Toy.on_device [] true false 2 w
  = (Raise UnboundLocalError, after w [PoolOpen 2; FinishIterator]).
Proof.
  apply (proj2 (empty_iterator_never_returns (TL := Toy.tensors) (SC := Toy.scalars)
                  (NW := Toy.network) (TK := Toy.toolkit)
                  Toy.on_device true false 2
                  (Toy.world_with Toy.no_fault (Some (Report.empty_table 1))))
           (Report.empty_table 1) [(0%nat, 0, 0)]).
  - intros k _. reflexivity.
  - reflexivity.
  - reflexivity.
Defined.
